(** * scorechat: the scoring and team-sidegame engine

    A shallow embedding of [server/src/services/scoring.ts] (class
    [ScoringService]) and [server/src/services/teamSidegame.ts] (class
    [TeamSidegameService]), with the properties their specification states.

    Conventions of the embedding.
    - A JavaScript number that the engine computes with is an integer, a
      [NaN], or an infinity (type [number]); [undefined] read as a number is
      [NaN], which is what every arithmetic operator and comparison of the
      source makes of it.  The figures of the handicap arithmetic have a
      fraction: they are IEEE 754 doubles (type [double]), a finite one
      being the rational it stands for, and every operation on them rounds
      its exact result to the nearest double, ties to the even one.  The
      sign of a zero is not kept: no operation of the source tells the two
      zeros apart.
    - A JavaScript object used as a dictionary is a [gmap string _]; the
      loops over its entries only add up or overwrite, so the order of the
      entries does not show.  Where the source keeps the keys of such an
      object ([participants] of a match), they are kept as the set they
      form, not in the order of insertion.
    - [Array.prototype.sort] is the stable sort by insertion.  Every
      conforming sort returns the same list when the comparator is
      consistent, as it is on scores that are numbers; on a comparator that
      returns [NaN] for some pairs the order is left to the implementation
      by the language, and the properties that speak of an order are stated
      for ledgers on which the comparator is consistent.
    - The round of a tournament and of a ledger entry is a [number]: the
      endpoint that sets it passes on whatever [parseInt] made of the
      request, [NaN] included, and [===] on rounds is [jseq], under which
      [NaN] is equal to nothing.
    - A [Map] is the list of its values in insertion order.
    - [uuidv4()] and [new Date()] are inputs of the operations that call
      them; a timestamp is the instant in milliseconds.
    - [toLowerCase] and [localeCompare] are parameters of the development.
    - The methods mutate the service's tournaments and sidegames in place;
      here they return the new ones next to their result.  Saving to disk is
      left out. *)

From Stdlib Require Import ZArith QArith Qround Qpower Qabs Lia Lqa.
From Stdlib Require OrderedTypeEx Floats.
From stdpp Require Import base option list sorting gmap strings.

Local Open Scope Z_scope.

(** ** JavaScript numbers *)

Inductive number : Type :=
  | Num (z : Z)
  | NaN
  | PosInf
  | NegInf.

#[global] Instance number_eq_dec : EqDecision number.
Proof. solve_decision. Defined.

Definition is_num (a : number) : Prop :=
  match a with Num _ => True | _ => False end.

(** [a + b] *)
Definition jsadd (a b : number) : number :=
  match a, b with
  | NaN, _ | _, NaN => NaN
  | Num x, Num y => Num (x + y)
  | PosInf, NegInf | NegInf, PosInf => NaN
  | PosInf, _ | _, PosInf => PosInf
  | NegInf, _ | _, NegInf => NegInf
  end.

Definition jsneg (a : number) : number :=
  match a with
  | Num x => Num (- x)
  | NaN => NaN
  | PosInf => NegInf
  | NegInf => PosInf
  end.

(** [a - b] *)
Definition jssub (a b : number) : number := jsadd a (jsneg b).

(** [a < b] *)
Definition jslt (a b : number) : bool :=
  match a, b with
  | NaN, _ | _, NaN => false
  | Num x, Num y => x <? y
  | NegInf, NegInf | PosInf, _ | _, NegInf => false
  | NegInf, _ | _, PosInf => true
  end.

(** [a === b] *)
Definition jseq (a b : number) : bool :=
  match a, b with
  | Num x, Num y => x =? y
  | PosInf, PosInf | NegInf, NegInf => true
  | _, _ => false
  end.

(** [a <= b] *)
Definition jsle (a b : number) : bool := jslt a b || jseq a b.

(** [a > b] *)
Definition jsgt (a b : number) : bool := jslt b a.

(** [a >= b] *)
Definition jsge (a b : number) : bool := jsle b a.

(** Truthiness of a number: [0] and [NaN] are falsy. *)
Definition truthy (a : number) : bool :=
  match a with
  | Num z => negb (z =? 0)
  | NaN => false
  | PosInf | NegInf => true
  end.

Definition jsmin (a b : number) : number :=
  match a, b with
  | NaN, _ | _, NaN => NaN
  | _, _ => if jslt b a then b else a
  end.

Definition jsmax (a b : number) : number :=
  match a, b with
  | NaN, _ | _, NaN => NaN
  | _, _ => if jslt a b then b else a
  end.

(** [Math.min(...xs)]: [Infinity] for no argument, [NaN] as soon as one
    argument is [NaN]. *)
Definition Math_min (xs : list number) : number := foldr jsmin PosInf xs.

(** [Math.max(...xs)]: [-Infinity] for no argument. *)
Definition Math_max (xs : list number) : number := foldr jsmax NegInf xs.

(** [Math.floor(a / b)] and [a % b], for a divisor [b] that is a positive
    integer. *)
Definition Math_floor_div (a : number) (b : Z) : number :=
  match a with
  | Num x => Num (x / b)
  | NaN => NaN
  | PosInf => PosInf
  | NegInf => NegInf
  end.

Definition jsrem (a : number) (b : Z) : number :=
  match a with
  | Num x => Num (Z.rem x b)
  | NaN | PosInf | NegInf => NaN
  end.

(** ** JavaScript numbers with a fraction: doubles *)

Inductive double : Type :=
  | Finite (q : Q)
  | Infinite (negative : bool)
  | NotANumber.

Definition pow2 (e : Z) : Q := (2 ^ e)%Q.

(** [floor (log2 x)] of a positive [x]. *)
Definition ilog2 (x : Q) : Z :=
  let k := Z.log2 (Qnum x) - Z.log2 (Zpos (Qden x)) in
  if Qle_bool (pow2 k) x then k else k - 1.

(** The integer nearest to [x], the even one of two that are equally near. *)
Definition rne (x : Q) : Z :=
  let f := Qfloor x in
  match (x - inject_Z f ?= 1 # 2)%Q with
  | Lt => f
  | Gt => f + 1
  | Eq => if Z.even f then f else f + 1
  end.

Definition negative (x : Q) : bool := negb (Qle_bool 0 x).

(** The exponent of the unit in the last place of a positive [x]: 52 binary
    places below its leading bit, and [2^-1074] throughout the subnormal
    range. *)
Definition ulp_exponent (x : Q) : Z := Z.max (ilog2 x) (-1022) - 52.

(** A positive [x] rounded to a whole number of units in its last place. *)
Definition round_magnitude (x : Q) : Q :=
  let e := ulp_exponent x in
  (inject_Z (rne (x / pow2 e)) * pow2 e)%Q.

(** The double nearest to the exact result [x] of an operation: the
    rounding of binary64, to nearest, ties to even, with overflow to an
    infinity from [2^1024] on.  The value is kept in lowest terms, so that
    equal doubles are equal terms. *)
Definition round64 (x : Q) : double :=
  if Qeq_bool x 0 then Finite 0
  else
    let y := round_magnitude (Qabs x) in
    if Qle_bool (pow2 1024) y then Infinite (negative x)
    else Finite (Qred (if negative x then - y else y)).

(** The double a hardware float stands for: the rounding above is checked
    against the floats of the machine further down. *)
Definition double_of_float (f : PrimFloat.float) : double :=
  match FloatOps.Prim2SF f with
  | SpecFloat.S754_zero _ => Finite 0
  | SpecFloat.S754_infinity s => Infinite s
  | SpecFloat.S754_nan => NotANumber
  | SpecFloat.S754_finite s m e =>
      Finite (Qred ((if s then - inject_Z (Zpos m) else inject_Z (Zpos m))
                    * pow2 e))
  end.

(** [- a] *)
Definition dneg (a : double) : double :=
  match a with
  | Finite x => Finite (- x)
  | Infinite s => Infinite (negb s)
  | NotANumber => NotANumber
  end.

(** [a + b] *)
Definition dadd (a b : double) : double :=
  match a, b with
  | NotANumber, _ | _, NotANumber => NotANumber
  | Finite x, Finite y => round64 (x + y)
  | Infinite s, Infinite s' => if Bool.eqb s s' then Infinite s else NotANumber
  | Infinite s, Finite _ | Finite _, Infinite s => Infinite s
  end.

(** [a - b] *)
Definition dsub (a b : double) : double := dadd a (dneg b).

(** [a * b] *)
Definition dmul (a b : double) : double :=
  match a, b with
  | NotANumber, _ | _, NotANumber => NotANumber
  | Finite x, Finite y => round64 (x * y)
  | Infinite s, Infinite s' => Infinite (xorb s s')
  | Infinite s, Finite y | Finite y, Infinite s =>
      if Qeq_bool y 0 then NotANumber else Infinite (xorb s (negative y))
  end.

(** [a / 113] *)
Definition div113 (a : double) : double :=
  match a with
  | Finite x => round64 (x / 113)
  | Infinite s => Infinite s
  | NotANumber => NotANumber
  end.

(** The integer nearest to [x], halves going up. *)
Definition round_half_up (x : Q) : Z := Qfloor (x + (1 # 2))%Q.

(** [Math.round(a)] *)
Definition Math_round (a : double) : number :=
  match a with
  | Finite x => Num (round_half_up x)
  | Infinite false => PosInf
  | Infinite true => NegInf
  | NotANumber => NaN
  end.

(** The double a decimal numeral denotes: what [parseFloat] returns for the
    digits of the rational [q]. *)
Definition decimal (q : Q) : double := round64 q.

(** ** JavaScript arrays and strings *)

(** [arr[i]]: [undefined] out of range. *)
Definition array_get {A} (arr : list A) (i : Z) : option A :=
  if i <? 0 then None else arr !! Z.to_nat i.

(** [arr[i] = v] on an array whose free slots read as [hole]: in range the
    slot is replaced, past the end the array grows up to [i], and a negative
    [i] names a property that is no element of the array. *)
Definition array_set {A} (hole : A) (arr : list A) (i : Z) (v : A) : list A :=
  if i <? 0 then arr
  else
    let n := Z.to_nat i in
    if (n <? length arr)%nat then <[n := v]> arr
    else arr ++ replicate (n - length arr) hole ++ [v].

(** [s.includes(sub)] *)
Fixpoint includes (s sub : string) : bool :=
  String.prefix sub s ||
  match s with
  | EmptyString => false
  | String _ s' => includes s' sub
  end.

(** [Array.prototype.sort(comparefn)]: the sort is stable, and a comparator
    result that is [NaN] counts as [0].  On a consistent comparator every
    stable sort returns the list computed here, which inserts each element
    in front of the first one it does not have to follow. *)
Fixpoint sort_insert {A} (comparefn : A → A → number) (x : A) (l : list A) : list A :=
  match l with
  | [] => [x]
  | y :: l' =>
      if jsgt (comparefn x y) (Num 0) then y :: sort_insert comparefn x l'
      else x :: l
  end.

Definition Array_sort {A} (comparefn : A → A → number) (l : list A) : list A :=
  foldr (sort_insert comparefn) [] l.

(** [arr.find(pred)] *)
Definition find {A} (pred : A → bool) (arr : list A) : option A :=
  snd <$> list_find (λ x, Is_true (pred x)) arr.

(** ** Data model ([server/src/types.ts]) *)

Record Player : Type := {
  id : string;
  name : string;
  currentHole : Z;
  handicap : option double;
  receivedStrokes : option number;
}.

Record ScoreEntry : Type := {
  playerId : string;
  hole : Z;
  round : number;
  strokes : number;
  par : number;
  timestamp : Z;   (* the instant the ISO string denotes, in milliseconds *)
}.

Inductive Action : Type :=
  | birdie | eagle | par_ | bogey | double_bogey | score | delete_.

#[global] Instance Action_eq_dec : EqDecision Action.
Proof. solve_decision. Defined.

Record ScoringUpdate : Type := {
  u_player : string;
  u_hole : option Z;       (* [None]: null, undefined or NaN *)
  u_strokes : option Z;    (* [None]: null, undefined or NaN *)
  u_action : Action;
  rawTranscription : string;
}.

Record Tournament : Type := {
  t_id : string;
  t_name : string;
  course : string;
  courseRating : double;
  slopeRating : double;
  t_par : list Z;
  players : list Player;
  scores : list ScoreEntry;
  createdAt : Z;
  totalRounds : Z;
  currentRound : number;
}.

Record RoundScores : Type := {
  rs_round : Z;
  rs_holeScores : list (option number);
  rs_stablefordPoints : list (option Z);
  roundStrokes : number;
  roundStablefordPoints : Z;
}.

Record LeaderboardEntry : Type := {
  le_playerId : string;
  playerName : string;
  totalStrokes : number;
  holesCompleted : Z;
  currentScore : number;
  position : Z;
  holeScores : list (option number);     (* [None]: null *)
  holePars : list Z;
  stablefordPoints : list (option Z);    (* [None]: null *)
  totalStablefordPoints : Z;
  averageStablefordPoints : double;
  stablefordVsPar : Z;
  le_handicap : option double;
  le_receivedStrokes : option number;
  roundScores : option (list RoundScores);
  le_totalRounds : Z;
}.

Definition set_position (n : Z) (e : LeaderboardEntry) : LeaderboardEntry :=
  {| le_playerId := le_playerId e; playerName := playerName e;
     totalStrokes := totalStrokes e; holesCompleted := holesCompleted e;
     currentScore := currentScore e; position := n;
     holeScores := holeScores e; holePars := holePars e;
     stablefordPoints := stablefordPoints e;
     totalStablefordPoints := totalStablefordPoints e;
     averageStablefordPoints := averageStablefordPoints e;
     stablefordVsPar := stablefordVsPar e; le_handicap := le_handicap e;
     le_receivedStrokes := le_receivedStrokes e;
     roundScores := roundScores e; le_totalRounds := le_totalRounds e |}.

Record Team : Type := {
  team_id : string;
  team_name : string;
  team_color : string;
  team_players : list string;
}.

Inductive GameType : Type := all_vs_all | sum_match.

#[global] Instance GameType_eq_dec : EqDecision GameType.
Proof. solve_decision. Defined.

Record TeamMatch : Type := {
  m_id : string;
  m_sidegameId : string;
  m_hole : Z;
  m_gameType : GameType;
  participants : gset string;
  teamPoints : gmap string number;
  m_holeResults : gmap string number;
  m_timestamp : Z;
}.

Record TeamSidegame : Type := {
  sg_id : string;
  sg_tournamentId : string;
  sg_round : Z;
  gameType : GameType;
  sg_teams : list Team;
  groupings : option (list (list string));
  matches : list TeamMatch;
  sg_createdAt : Z;
}.

Record TeamLeaderboardEntry : Type := {
  teamId : string;
  teamName : string;
  teamColor : string;
  totalPoints : number;
  matchesPlayed : Z;
  tl_position : Z;
}.

Definition set_matches (ms : list TeamMatch) (sg : TeamSidegame) : TeamSidegame :=
  {| sg_id := sg_id sg; sg_tournamentId := sg_tournamentId sg;
     sg_round := sg_round sg; gameType := gameType sg; sg_teams := sg_teams sg;
     groupings := groupings sg; matches := ms; sg_createdAt := sg_createdAt sg |}.

Definition set_tl_position (n : Z) (e : TeamLeaderboardEntry) : TeamLeaderboardEntry :=
  {| teamId := teamId e; teamName := teamName e; teamColor := teamColor e;
     totalPoints := totalPoints e; matchesPlayed := matchesPlayed e;
     tl_position := n |}.

(** [obj[k] += v]: a missing key reads [undefined]. *)
Definition add_to (obj : gmap string number) (k : string) (v : number)
    : gmap string number :=
  <[k := jsadd (default NaN (obj !! k)) v]> obj.

(** [x || 0] for a value read from an object. *)
Definition or_zero (x : option number) : number :=
  match x with
  | Some v => if truthy v then v else Num 0
  | None => Num 0
  end.

(** The object that holds [0] for every team: the initialisation loops. *)
Definition zero_points (teams : list Team) : gmap string number :=
  foldl (λ obj team, <[team_id team := Num 0]> obj) ∅ teams.

(** ** ScoringService *)

Definition standardPar : list Z := [4;4;5;3;5;4;4;4;3;4;5;3;4;4;5;4;3;4].
Definition standardIndex : list Z := [8;14;4;16;2;6;12;10;18;11;3;17;13;9;1;5;15;7].

(** [parsePlayerInfo].  [matched] is the result of matching the player string
    against [/^(.+?)\s+([\d.]+)$/]: the name, and what [parseFloat] makes of
    the digits; [courseRating] and [slopeRating] are what [createTournament]
    parsed from the course string. *)
Definition parsePlayerInfo (uuid : string) (playerString : string)
    (matched : option (string * double)) (courseRating slopeRating : double)
    : Player :=
  let name := match matched with Some (n, _) => n | None => playerString end in
  let handicap := match matched with Some (_, h) => h | None => Finite 0 end in
  let totalPar := foldl Z.add 0 standardPar in
  let courseHandicap :=
    Math_round (dadd (div113 (dmul handicap slopeRating))
                     (dsub courseRating (Finite (inject_Z totalPar)))) in
  let receivedStrokes := Math_max [Num 0; courseHandicap] in
  {| id := uuid; name := name; currentHole := 1;
     handicap := Some handicap; receivedStrokes := Some receivedStrokes |}.

(** [calculateStablefordPoints] *)
Definition calculateStablefordPoints (strokes par receivedStrokes : number)
    (hole : Z) : Z :=
  let holeIndex := array_get standardIndex (hole - 1) in
  let strokesReceived :=
    jsadd (Math_floor_div receivedStrokes 18)
          (if jsle (default NaN (Num <$> holeIndex)) (jsrem receivedStrokes 18)
           then Num 1 else Num 0) in
  let adjustedPar := jsadd par strokesReceived in
  let scoreDiff := jssub strokes adjustedPar in
  if jsle scoreDiff (Num (-2)) then 4
  else if jseq scoreDiff (Num (-1)) then 3
  else if jseq scoreDiff (Num 0) then 2
  else if jseq scoreDiff (Num 1) then 1
  else 0.

(** Field updates of the mutable records. *)
Definition set_currentHole (h : Z) (p : Player) : Player :=
  {| id := id p; name := name p; currentHole := h;
     handicap := handicap p; receivedStrokes := receivedStrokes p |}.

Definition set_players (ps : list Player) (t : Tournament) : Tournament :=
  {| t_id := t_id t; t_name := t_name t; course := course t;
     courseRating := courseRating t; slopeRating := slopeRating t;
     t_par := t_par t; players := ps; scores := scores t;
     createdAt := createdAt t; totalRounds := totalRounds t;
     currentRound := currentRound t |}.

Definition set_scores (ss : list ScoreEntry) (t : Tournament) : Tournament :=
  {| t_id := t_id t; t_name := t_name t; course := course t;
     courseRating := courseRating t; slopeRating := slopeRating t;
     t_par := t_par t; players := players t; scores := ss;
     createdAt := createdAt t; totalRounds := totalRounds t;
     currentRound := currentRound t |}.

(** [x || fallback] for a hole or round number that may be missing. *)
Definition nonzero (x : option Z) : option Z :=
  match x with
  | Some z => if z =? 0 then None else Some z
  | None => None
  end.

(** The comparator [(a, b) => new Date(b.timestamp) - new Date(a.timestamp)]. *)
Definition byTimestampDesc (a b : ScoreEntry) : number :=
  Num (timestamp b - timestamp a).


(** The calls that change a tournament.  The round of [CallSetRound] is
    one the request spelled as an integer. *)
Inductive Call : Type :=
  | CallProcess (uuid : string) (now : Z) (tournamentId : string)
                (update : ScoringUpdate)
  | CallManual (uuid : string) (now : Z) (activeId playerId_ : string)
               (h : Z) (strokes_ : option (option Z))
  | CallSetRound (tournamentId : string) (r : Z)
  | CallAdvance (tournamentId : string)
  | CallClear (tournamentId : string).

(** ** Sample data *)

(** Lower-casing and collation of names written in ASCII. *)
Definition ascii_lower (c : Ascii.ascii) : Ascii.ascii :=
  let n := Ascii.nat_of_ascii c in
  if ((65 <=? n) && (n <=? 90))%nat then Ascii.ascii_of_nat (n + 32) else c.

Fixpoint asciiLowerCase (s : string) : string :=
  match s with
  | EmptyString => EmptyString
  | String c s' => String (ascii_lower c) (asciiLowerCase s')
  end.

Definition byteCompare (a b : string) : Z :=
  match String.compare a b with
  | Lt => -1
  | Eq => 0
  | Gt => 1
  end.

Definition sampleTeams : list Team :=
  [ {| team_id := "red"; team_name := "Red"; team_color := "#c00";
       team_players := ["Ann"; "Bob"] |};
    {| team_id := "blue"; team_name := "Blue"; team_color := "#00c";
       team_players := ["Cid"; "Dan"] |};
    {| team_id := "green"; team_name := "Green"; team_color := "#0c0";
       team_players := ["Eve"; "Christer"; "Anders"] |} ].

Definition samplePlayer (i n : string) (h : Z) : Player :=
  {| id := i; name := n; currentHole := h;
     handicap := Some (Finite 0); receivedStrokes := Some (Num 0) |}.

Definition sampleEntry (p : string) (h r s q ts : Z) : ScoreEntry :=
  {| playerId := p; hole := h; round := Num r; strokes := Num s; par := Num q;
     timestamp := ts |}.

(** Round 1, hole 1 (par 4): Ann and Eve make 2, Cid makes 5. *)
Definition sampleTournament : Tournament :=
  {| t_id := "t"; t_name := "GA 2025"; course := "El Saler";
     courseRating := Finite 72; slopeRating := Finite 113; t_par := standardPar;
     players := [samplePlayer "p1" "Ann" 2; samplePlayer "p2" "Cid" 2;
                 samplePlayer "p3" "Eve" 2];
     scores := [sampleEntry "p1" 1 1 2 4 10; sampleEntry "p2" 1 1 5 4 11;
                sampleEntry "p3" 1 1 2 4 12];
     createdAt := 0; totalRounds := 2; currentRound := Num 1 |}.

(** Round 2 is being played; Ann has hole 5 in round 1 and in round 2. *)
Definition sampleSecondRound : Tournament :=
  {| t_id := "t"; t_name := "GA 2025"; course := "El Saler";
     courseRating := Finite 72; slopeRating := Finite 113; t_par := standardPar;
     players := [samplePlayer "p1" "Ann" 6; samplePlayer "p2" "Cid" 1];
     scores := [sampleEntry "p2" 5 1 6 5 20; sampleEntry "p1" 5 1 4 5 21;
                sampleEntry "p1" 5 2 7 5 90];
     createdAt := 0; totalRounds := 2; currentRound := Num 2 |}.

Definition sampleUpdate (p : string) (h s : option Z) (a : Action) : ScoringUpdate :=
  {| u_player := p; u_hole := h; u_strokes := s; u_action := a;
     rawTranscription := EmptyString |}.

Definition sampleSidegame (ty : GameType) : TeamSidegame :=
  {| sg_id := "sg"; sg_tournamentId := "t"; sg_round := 1; gameType := ty;
     sg_teams := sampleTeams;
     groupings := if ty is all_vs_all then Some [["Ann"; "Cid"; "Eve"]] else None;
     matches := []; sg_createdAt := 0 |}.

(** Strokes against par of the sample hole, by player. *)
Definition sampleResults : gmap string number :=
  {[ "Ann" := Num (-2); "Cid" := Num 1; "Eve" := Num (-2) ]}.

(** Stableford points of a hole: Ann has 3, Cid has 2. *)
Definition samplePoints : gmap string number :=
  {[ "Ann" := Num 3; "Cid" := Num 2 ]}.

Definition sampleTournaments (t : Tournament) : gmap string Tournament :=
  {[ "t" := t ]}.

Definition sampleSidegames (ty : GameType) : gmap string TeamSidegame :=
  {[ "sg" := sampleSidegame ty ]}.


(** The sample tournament after 4 strokes were entered by hand for Ann on a
    hole 25, which has no par. *)
Definition sampleUnreadable : Tournament :=
  {| t_id := "t"; t_name := "GA 2025"; course := "El Saler";
     courseRating := Finite 72; slopeRating := Finite 113; t_par := standardPar;
     players := [samplePlayer "p1" "Ann" 2; samplePlayer "p2" "Cid" 2;
                 samplePlayer "p3" "Eve" 2];
     scores := [sampleEntry "p1" 1 1 2 4 10; sampleEntry "p2" 1 1 5 4 11;
                sampleEntry "p3" 1 1 2 4 12;
                {| playerId := "p1"; hole := 25; round := Num 1; strokes := Num 4;
                   par := NaN; timestamp := 100 |}];
     createdAt := 0; totalRounds := 2; currentRound := Num 1 |}.

Definition sampleRed : Team :=
  {| team_id := "red"; team_name := "Red"; team_color := "#c00";
     team_players := ["Ann"; "Bob"] |}.

Definition sampleBlue : Team :=
  {| team_id := "blue"; team_name := "Blue"; team_color := "#00c";
     team_players := ["Cid"; "Dan"] |}.

(** The calls of an evening: Ann's 4 is recorded, the round is advanced, and
    a 3 on hole 18 is entered by hand for Cid. *)
Definition sampleCalls : list Call :=
  [ CallProcess "u" 100 "t" (sampleUpdate "Ann" None (Some 4) score);
    CallAdvance "t";
    CallManual "v" 101 "t" "p2" 18 (Some (Some 3)) ].

(** Two updates that a sequence "from hole 3: 4 5" was turned into, both on
    hole 3. *)
Definition sampleSequence : list ScoringUpdate :=
  [ sampleUpdate "Ann" (Some 3) (Some 4) score;
    sampleUpdate "Ann" (Some 3) (Some 5) score ].

Definition sampleUuid (k : nat) : string :=
  match k with
  | 0%nat => "t9"
  | 1%nat => "a"
  | _ => "b"
  end.

(** A tournament that is about to start, with Cid, Ann and Eve in the
    roster in this order. *)
Definition sampleRoster : Tournament :=
  {| t_id := "t"; t_name := "GA 2025"; course := "El Saler";
     courseRating := Finite 72; slopeRating := Finite 113; t_par := standardPar;
     players := [samplePlayer "p2" "Cid" 1; samplePlayer "p1" "Ann" 1;
                 samplePlayer "p3" "Eve" 1];
     scores := []; createdAt := 0; totalRounds := 2; currentRound := Num 1 |}.
Section Engine.

(** [String.prototype.toLowerCase] and [String.prototype.localeCompare]
    depend on Unicode tables and on the host's locale: they are parameters. *)
Context (toLowerCase : string → string).
Context (localeCompare : string → string → Z).

(** The fuzzy match of a roster player against a spoken name. *)
Definition name_matches (spoken : string) (p : Player) : bool :=
  includes (toLowerCase (name p)) (toLowerCase spoken) ||
  includes (toLowerCase spoken) (toLowerCase (name p)).

(** The first half of [deleteScore]: the player and the hole the deletion
    aims at, and the ledger as the search leaves it (sorting
    [tournament.scores] itself reorders the ledger). *)
Definition resolve_target (tournament : Tournament) (update : ScoringUpdate)
    : option Player * option Z * list ScoreEntry :=
  let named :=
    if decide (u_player update = EmptyString) then None
    else find (name_matches (u_player update)) (players tournament) in
  match nonzero (u_hole update) with
  | Some h => (named, Some h, scores tournament)
  | None =>
      match named with
      | Some p =>
          let playerScores :=
            Array_sort byTimestampDesc
              (filter (λ s, playerId s = id p) (scores tournament)) in
          (named, hole <$> head playerScores, scores tournament)
      | None =>
          let allScores := Array_sort byTimestampDesc (scores tournament) in
          (head allScores ≫= λ s0,
             find (λ p, bool_decide (id p = playerId s0)) (players tournament),
           hole <$> head allScores, allScores)
      end
  end.

(** [deleteScore], on the tournament found under the given id. *)
Definition deleteScore_in (now : Z) (tournament : Tournament)
    (update : ScoringUpdate) : option ScoreEntry * Tournament :=
  let '(player, target, ledger) := resolve_target tournament update in
  match player, nonzero target with
  | Some p, Some h =>
      match list_find (λ s, playerId s = id p ∧ hole s = h) ledger with
      | Some (scoreIndex, deletedScore) =>
          (Some {| playerId := id p; hole := h; round := round deletedScore;
                   strokes := Num 0; par := par deletedScore;
                   timestamp := now |},
           set_scores (delete scoreIndex ledger) tournament)
      | None => (None, set_scores ledger tournament)
      end
  | _, _ => (None, set_scores ledger tournament)
  end.

(** [deleteScore] *)
Definition deleteScore (now : Z) (tournaments : gmap string Tournament)
    (tournamentId : string) (update : ScoringUpdate)
    : option ScoreEntry * gmap string Tournament :=
  match tournaments !! tournamentId with
  | None => (None, tournaments)
  | Some tournament =>
      let r := deleteScore_in now tournament update in
      (r.1, <[tournamentId := r.2]> tournaments)
  end.

(** The strokes an update stands for when it carries no count. *)
Definition strokes_of_action (a : Action) (par : number) : option number :=
  match a with
  | eagle => Some (jssub par (Num 2))
  | birdie => Some (jssub par (Num 1))
  | par_ => Some par
  | bogey => Some (jsadd par (Num 1))
  | double_bogey => Some (jsadd par (Num 2))
  | score | delete_ => None
  end.

(** The player an update names, with its position in the roster and the
    roster it is then part of: a name that no roster player matches gets a
    new player at the end of the roster. *)
Definition locate_player (uuid : string) (tournament : Tournament)
    (update : ScoringUpdate) : option (nat * Player * list Player) :=
  match list_find (λ p, Is_true (name_matches (u_player update) p))
                  (players tournament) with
  | Some (i, p) => Some (i, p, players tournament)
  | None =>
      if decide (u_player update = EmptyString) then None
      else
        let p := {| id := uuid; name := u_player update; currentHole := 1;
                    handicap := None; receivedStrokes := None |} in
        Some (length (players tournament), p, players tournament ++ [p])
  end.

(** The entry replaces the one stored under its key, or goes to the end. *)
Definition upsert (scoreEntry : ScoreEntry) (ledger : list ScoreEntry)
    : list ScoreEntry :=
  match list_find (λ s, playerId s = playerId scoreEntry ∧
                        hole s = hole scoreEntry ∧
                        jseq (round s) (round scoreEntry)) ledger with
  | Some (existingScoreIndex, _) => <[existingScoreIndex := scoreEntry]> ledger
  | None => ledger ++ [scoreEntry]
  end.

(** [processScoringUpdate], on the tournament found under the given id.
    The player is kept by position in the roster, since the code updates the
    roster's own object. *)
Definition processScoringUpdate_in (uuid : string) (now : Z)
    (tournament : Tournament) (update : ScoringUpdate)
    : option ScoreEntry * Tournament :=
  if decide (u_action update = delete_) then deleteScore_in now tournament update
  else
    match locate_player uuid tournament update with
    | None => (None, tournament)
    | Some (i, player, roster) =>
        let h := default (currentHole player) (nonzero (u_hole update)) in
        let par :=
          match array_get (t_par tournament) (h - 1) with
          | Some p => Num p
          | None => NaN
          end in
        let strokes :=
          match nonzero (u_strokes update) with
          | Some s => Some (Num s)
          | None => strokes_of_action (u_action update) par
          end in
        match strokes with
        | None => (None, set_players roster tournament)
        | Some strokes =>
            let scoreEntry :=
              {| playerId := id player; hole := h;
                 round := currentRound tournament; strokes := strokes;
                 par := par; timestamp := now |} in
            let roster' :=
              if decide (h = currentHole player ∧ h < 18)
              then <[i := set_currentHole (h + 1) player]> roster
              else roster in
            (Some scoreEntry,
             set_scores (upsert scoreEntry (scores tournament))
               (set_players roster' tournament))
        end
    end.

(** [processScoringUpdate] *)
Definition processScoringUpdate (uuid : string) (now : Z)
    (tournaments : gmap string Tournament) (tournamentId : string)
    (update : ScoringUpdate) : option ScoreEntry * gmap string Tournament :=
  match tournaments !! tournamentId with
  | None => (None, tournaments)
  | Some tournament =>
      let r := processScoringUpdate_in uuid now tournament update in
      (r.1, <[tournamentId := r.2]> tournaments)
  end.

(** The manual-score endpoint ([POST /api/tournament/:id/manual-score] in
    [server/src/index.ts]), up to the call of [processScoringUpdate], for a
    request whose body gives the hole as a JSON number and has a [strokes]
    field.  [activeId] is the id of the active tournament; [h] is the hole
    of the request, an integer, which [!hole] rejects exactly when it is 0
    and which [parseInt] leaves as it is; [strokes] is the field of that
    name: [None] for [null], which asks for a deletion, [Some None] when
    [parseInt] finds no number in it.  A request without player id or with
    hole 0, or for a player who is not in the roster, is answered with an
    error and nothing is processed.  (A hole sent as a string is tested as
    a string and then parsed, and a request without [strokes] field is
    refused: these requests are not covered.) *)
Definition manual_score (uuid : string) (now : Z)
    (tournaments : gmap string Tournament) (activeId : string)
    (playerId : string) (h : Z) (strokes : option (option Z))
    : option ScoreEntry * gmap string Tournament :=
  if decide (playerId = EmptyString ∨ h = 0) then (None, tournaments)
  else
    match tournaments !! activeId with
    | None => (None, tournaments)
    | Some activeTournament =>
        match find (λ p, bool_decide (id p = playerId))
                   (players activeTournament) with
        | None => (None, tournaments)
        | Some player =>
            let scoringUpdate :=
              {| u_player := name player; u_hole := Some h;
                 u_strokes := mjoin strokes;
                 u_action := if strokes is Some _ then score else delete_;
                 rawTranscription := "Manual entry" |} in
            processScoringUpdate uuid now tournaments activeId scoringUpdate
        end
    end.

(** *** The individual leaderboard *)

(** The entries of one player in one round, in ledger order. *)
Definition scores_of (tournament : Tournament) (player : Player) (r : number)
    : list ScoreEntry :=
  filter (λ s, playerId s = id player ∧ jseq (round s) r) (scores tournament).

(** The hole-by-hole arrays a [forEach] over the round's entries fills. *)
Definition fill_holeScores (ss : list ScoreEntry) : list (option number) :=
  foldl (λ arr s, array_set None arr (hole s - 1) (Some (strokes s)))
        (replicate 18 None) ss.

Definition fill_stablefordPoints (player : Player) (ss : list ScoreEntry)
    : list (option Z) :=
  foldl (λ arr s,
           array_set None arr (hole s - 1)
             (Some (calculateStablefordPoints (strokes s) (par s)
                      (or_zero (receivedStrokes player)) (hole s))))
        (replicate 18 None) ss.

(** One element of [multiRoundScores]. *)
Definition roundScores_of (tournament : Tournament) (player : Player) (r : Z)
    : RoundScores :=
  let roundPlayerScores := scores_of tournament player (Num r) in
  {| rs_round := r;
     rs_holeScores := fill_holeScores roundPlayerScores;
     rs_stablefordPoints := fill_stablefordPoints player roundPlayerScores;
     roundStrokes := foldl (λ acc s, jsadd acc (strokes s)) (Num 0) roundPlayerScores;
     roundStablefordPoints :=
       foldl (λ acc s,
                acc + calculateStablefordPoints (strokes s) (par s)
                        (or_zero (receivedStrokes player)) (hole s))
             0 roundPlayerScores |}.

(** The entry [tournament.players.map] builds for one player. *)
Definition leaderboard_entry (tournament : Tournament) (selectedRound : option Z)
    (player : Player) : LeaderboardEntry :=
  let displayRound :=
    default (currentRound tournament) (Num <$> nonzero selectedRound) in
  let currentRoundScores := scores_of tournament player displayRound in
  let totalStrokes := foldl (λ sum s, jsadd sum (strokes s)) (Num 0) currentRoundScores in
  let holesCompleted := Z.of_nat (length currentRoundScores) in
  let totalPar := foldl (λ sum s, jsadd sum (par s)) (Num 0) currentRoundScores in
  let currentScore := jssub totalStrokes totalPar in
  let stablefordPoints := fill_stablefordPoints player currentRoundScores in
  let totalStablefordPoints :=
    foldl (λ sum points, sum + default 0 points) 0 stablefordPoints in
  let averageStablefordPoints :=
    if 0 <? holesCompleted
    then round64 (inject_Z totalStablefordPoints / inject_Z holesCompleted)
    else Finite 0 in
  let expectedPoints := holesCompleted * 2 in
  let multiRoundScores :=
    (λ k, roundScores_of tournament player (Z.of_nat k)) <$>
      seq 1 (Z.to_nat (totalRounds tournament)) in
  {| le_playerId := id player; playerName := name player;
     totalStrokes := totalStrokes; holesCompleted := holesCompleted;
     currentScore := currentScore; position := 0;
     holeScores := fill_holeScores currentRoundScores;
     holePars := t_par tournament;
     stablefordPoints := stablefordPoints;
     totalStablefordPoints := totalStablefordPoints;
     averageStablefordPoints := averageStablefordPoints;
     stablefordVsPar := totalStablefordPoints - expectedPoints;
     le_handicap := handicap player;
     le_receivedStrokes := receivedStrokes player;
     roundScores :=
       if 1 <? totalRounds tournament then Some multiRoundScores else None;
     le_totalRounds := totalRounds tournament |}.

(** The comparator of the leaderboard sort. *)
Definition leaderboard_compare (a b : LeaderboardEntry) : number :=
  if negb (jseq (currentScore a) (currentScore b))
  then jssub (currentScore a) (currentScore b)
  else Num (holesCompleted b - holesCompleted a).

(** [generateLeaderboard], on the tournament found under the given id. *)
Definition generateLeaderboard_in (tournament : Tournament)
    (selectedRound : option Z) : list LeaderboardEntry :=
  let leaderboard := leaderboard_entry tournament selectedRound <$> players tournament in
  let sorted := Array_sort leaderboard_compare leaderboard in
  imap (λ index entry, set_position (Z.of_nat index + 1) entry) sorted.

(** [generateLeaderboard] *)
Definition generateLeaderboard (tournaments : gmap string Tournament)
    (tournamentId : string) (selectedRound : option Z) : list LeaderboardEntry :=
  match tournaments !! tournamentId with
  | None => []
  | Some tournament => generateLeaderboard_in tournament selectedRound
  end.

(** ** TeamSidegameService *)

(** The teams of the static configuration, in the order of [this.teams]. *)
Context (teams : list Team).

(** [getPlayerTeam] *)
Definition getPlayerTeam (playerName : string) : option Team :=
  find (λ team,
          existsb (λ player,
                     String.eqb (toLowerCase player) (toLowerCase playerName) ||
                     includes (toLowerCase playerName) (toLowerCase player) ||
                     includes (toLowerCase player) (toLowerCase playerName))
                  (team_players team))
       teams.

(** Whether a player's result counts for the team on this hole: the green
    team alternates between Christer (even holes) and Anders (odd holes). *)
Definition counts_on_hole (team : Team) (playerName : string) (h : Z) : bool :=
  if bool_decide (team_id team = "green") &&
     (includes playerName "Christer" || includes playerName "Anders")
  then
    let isChristersHole := Z.rem h 2 =? 0 in
    let isAndersHole := Z.rem h 2 =? 1 in
    (includes playerName "Christer" && isChristersHole) ||
    (includes playerName "Anders" && isAndersHole)
  else if negb (bool_decide (team_id team = "green")) ||
          (negb (includes playerName "Christer") &&
           negb (includes playerName "Anders"))
  then true
  else false.

(** One step of the loop that sums a hole's results per team. *)
Definition add_result (h : Z) (obj : gmap string number)
    (playerName : string) (strokesVsPar : number) : gmap string number :=
  match getPlayerTeam playerName with
  | Some team =>
      if counts_on_hole team playerName h
      then add_to obj (team_id team) strokesVsPar
      else obj
  | None => obj
  end.

(** The team ids whose total is the given extreme:
    [Object.entries(...).filter(([_, score]) => score === extreme).map(...)]. *)
Definition teams_at (extreme : number) (teamStrokesDifference : gmap string number)
    : list string :=
  (filter (λ e, Is_true (jseq e.2 extreme)) (map_to_list teamStrokesDifference)).*1.

(** The strokes against par of every team on a hole, summed from the
    results handed to [calculateSumMatchPoints]. *)
Definition sum_totals (holeResults : gmap string number) (h : Z)
    : gmap string number :=
  foldl (λ obj e, add_result h obj e.1 e.2) (zero_points teams)
        (map_to_list holeResults).

(** [calculateSumMatchPoints] *)
Definition calculateSumMatchPoints (holeResults : gmap string number) (h : Z)
    : gmap string number :=
  let teamPoints := zero_points teams in
  let teamStrokesDifference := sum_totals holeResults h in
  let teamScores := (map_to_list teamStrokesDifference).*2 in
  let bestScore := Math_min teamScores in
  let worstScore := Math_max teamScores in
  if negb (jseq bestScore worstScore) then
    let winners := teams_at bestScore teamStrokesDifference in
    let losers := teams_at worstScore teamStrokesDifference in
    let teamPoints := foldl (λ obj teamId, <[teamId := Num 1]> obj) teamPoints winners in
    foldl (λ obj teamId, <[teamId := Num (-1)]> obj) teamPoints losers
  else teamPoints.

(** The loops [for i] / [for j = i + 1] over a group. *)
Fixpoint each_pair {A S} (f : S → A → A → S) (s : S) (l : list A) : S :=
  match l with
  | [] => s
  | x :: l' => each_pair f (foldl (λ s y, f s x y) s l') l'
  end.

(** The body of the inner loop of [calculateAllVsAllPoints]. *)
Definition compare_pair (holeResults : gmap string number)
    (teamPoints : gmap string number) (player1 player2 : string)
    : gmap string number :=
  match getPlayerTeam player1, getPlayerTeam player2 with
  | Some team1, Some team2 =>
      if bool_decide (team_id team1 ≠ team_id team2) then
        let score1 := or_zero (holeResults !! player1) in
        let score2 := or_zero (holeResults !! player2) in
        if jsgt score1 score2 then add_to teamPoints (team_id team1) (Num 1)
        else if jsgt score2 score1 then add_to teamPoints (team_id team2) (Num 1)
        else teamPoints
      else teamPoints
  | _, _ => teamPoints
  end.

(** [calculateAllVsAllPoints].  [playerName in holeResults] is read as the
    object having a result under that name. *)
Definition calculateAllVsAllPoints (holeResults : gmap string number)
    (groupings : list (list string)) : gmap string number :=
  foldl (λ teamPoints group,
           let groupPlayers :=
             filter (λ playerName, is_Some (holeResults !! playerName)) group in
           each_pair (compare_pair holeResults) teamPoints groupPlayers)
        (zero_points teams) groupings.

(** [processHoleMatch].  The object first filled from [sidegame.teams] is
    replaced by the result of the game type's computation.  The
    participants, [Object.keys(holeResults)], are kept as a set. *)
Definition processHoleMatch (uuid : string) (now : Z)
    (sidegames : gmap string TeamSidegame) (sidegameId : string) (h : Z)
    (holeResults : gmap string number)
    : option TeamMatch * gmap string TeamSidegame :=
  match sidegames !! sidegameId with
  | None => (None, sidegames)
  | Some sidegame =>
      let teamPoints :=
        match gameType sidegame with
        | sum_match => calculateSumMatchPoints holeResults h
        | all_vs_all =>
            calculateAllVsAllPoints holeResults (default [] (groupings sidegame))
        end in
      let match_ :=
        {| m_id := uuid; m_sidegameId := sidegameId; m_hole := h;
           m_gameType := gameType sidegame;
           participants := dom holeResults;
           teamPoints := teamPoints; m_holeResults := holeResults;
           m_timestamp := now |} in
      let matches' :=
        filter (λ m, m_hole m ≠ h) (matches sidegame) ++ [match_] in
      (Some match_, <[sidegameId := set_matches matches' sidegame]> sidegames)
  end.

(** The holes of a [Set<number>] filled in this order. *)
Definition holes_set (hs : list Z) : list Z :=
  foldl (λ acc h, if decide (h ∈ acc) then acc else acc ++ [h]) [] hs.

(** The per-team totals of one hole in [generateTeamLeaderboard]. *)
Definition hole_totals (activeTournament : Tournament) (h : Z)
    : gmap string number :=
  let holeScores :=
    filter (λ s, hole s = h ∧ jseq (round s) (currentRound activeTournament))
           (scores activeTournament) in
  foldl (λ obj s,
           match find (λ p, bool_decide (id p = playerId s))
                      (players activeTournament) with
           | None => obj
           | Some player =>
               add_result h obj (name player) (jssub (strokes s) (par s))
           end)
        (zero_points teams) holeScores.

(** The award of one hole in [generateTeamLeaderboard]: only a sole winner
    and a sole loser score ([-= 1] adds [-1]). *)
Definition award_hole (activeTournament : Tournament)
    (teamTotalPoints : gmap string number) (h : Z) : gmap string number :=
  let teamStrokesDifference := hole_totals activeTournament h in
  let teamScores := (map_to_list teamStrokesDifference).*2 in
  let bestScore := Math_min teamScores in
  let worstScore := Math_max teamScores in
  if negb (jseq bestScore worstScore) then
    let winners := teams_at bestScore teamStrokesDifference in
    let losers := teams_at worstScore teamStrokesDifference in
    let teamTotalPoints :=
      match winners with
      | [w] => add_to teamTotalPoints w (Num 1)
      | _ => teamTotalPoints
      end in
    match losers with
    | [l] => add_to teamTotalPoints l (Num (-1))
    | _ => teamTotalPoints
    end
  else teamTotalPoints.

(** The comparator of the team leaderboard sort. *)
Definition team_compare (a b : TeamLeaderboardEntry) : number :=
  if negb (jseq (totalPoints b) (totalPoints a))
  then jssub (totalPoints b) (totalPoints a)
  else Num (localeCompare (teamName a) (teamName b)).

(** [generateTeamLeaderboard].  [activeTournament] is what
    [loadActiveTournament] finds in the stored tournaments. *)
Definition generateTeamLeaderboard (activeTournament : option Tournament)
    (sidegames : gmap string TeamSidegame) (sidegameId : string)
    : list TeamLeaderboardEntry :=
  match sidegames !! sidegameId with
  | None => []
  | Some sidegame =>
      if decide (gameType sidegame ≠ sum_match) then []
      else
        match activeTournament with
        | None => []
        | Some activeTournament =>
            let holesWithScores :=
              holes_set
                (hole <$> filter (λ s, jseq (round s) (currentRound activeTournament))
                                 (scores activeTournament)) in
            let teamTotalPoints :=
              foldl (award_hole activeTournament)
                    (zero_points (sg_teams sidegame)) holesWithScores in
            let matchesPlayed := Z.of_nat (length holesWithScores) in
            let leaderboard :=
              (λ team,
                 {| teamId := team_id team; teamName := team_name team;
                    teamColor := team_color team;
                    totalPoints := or_zero (teamTotalPoints !! team_id team);
                    matchesPlayed := matchesPlayed; tl_position := 0 |})
                <$> sg_teams sidegame in
            imap (λ index entry, set_tl_position (Z.of_nat index + 1) entry)
                 (Array_sort team_compare leaderboard)
        end
  end.

(** ** The remaining operations of the services *)

Definition set_currentRound (r : number) (t : Tournament) : Tournament :=
  {| t_id := t_id t; t_name := t_name t; course := course t;
     courseRating := courseRating t; slopeRating := slopeRating t;
     t_par := t_par t; players := players t; scores := scores t;
     createdAt := createdAt t; totalRounds := totalRounds t;
     currentRound := r |}.

(** [createTournament].  [courseMatch] is the result of matching the course
    string against [/^(.+?)\s+([\d.]+)\s+([\d.]+)$/] (name, rating, slope);
    every player string comes with its own match, as in [parsePlayerInfo];
    [uuid k] is the result of the [k]-th call of [uuidv4()]: the first call
    names the tournament, the following ones the players in order. *)
Definition createTournament (uuid : nat → string) (now : Z)
    (tournaments : gmap string Tournament)
    (tournamentName courseString : string)
    (courseMatch : option (string * double * double))
    (playerNames : list (string * option (string * double))) (rounds : Z)
    : Tournament * gmap string Tournament :=
  let courseName := if courseMatch is Some (n, _, _) then n else courseString in
  let rating := if courseMatch is Some (_, r, _) then r else Finite 72 in
  let slope := if courseMatch is Some (_, _, s) then s else Finite 113 in
  let tournament :=
    {| t_id := uuid 0%nat; t_name := tournamentName; course := courseName;
       courseRating := rating; slopeRating := slope; t_par := standardPar;
       players :=
         imap (λ k pm, parsePlayerInfo (uuid (S k)) pm.1 pm.2 rating slope)
              playerNames;
       scores := []; createdAt := now; totalRounds := rounds;
       currentRound := Num 1 |} in
  (tournament, <[t_id tournament := tournament]> tournaments).

(** [setCurrentRound].  The round is whatever [parseInt] made of the
    request's parameter: an integer or [NaN], and [NaN] is neither below 1
    nor above the number of rounds. *)
Definition setCurrentRound (tournaments : gmap string Tournament)
    (tournamentId : string) (r : number) : bool * gmap string Tournament :=
  match tournaments !! tournamentId with
  | None => (false, tournaments)
  | Some tournament =>
      if jslt r (Num 1) || jsgt r (Num (totalRounds tournament))
      then (false, tournaments)
      else (true, <[tournamentId := set_currentRound r tournament]> tournaments)
  end.

(** [advanceToNextRound] *)
Definition advanceToNextRound (tournaments : gmap string Tournament)
    (tournamentId : string) : bool * gmap string Tournament :=
  match tournaments !! tournamentId with
  | None => (false, tournaments)
  | Some tournament =>
      if jsge (currentRound tournament) (Num (totalRounds tournament))
      then (false, tournaments)
      else (true,
            <[tournamentId :=
                set_currentRound (jsadd (currentRound tournament) (Num 1))
                                 tournament]> tournaments)
  end.

(** [clearTournamentData] *)
Definition clearTournamentData (tournaments : gmap string Tournament)
    (tournamentId : string) : bool * gmap string Tournament :=
  match tournaments !! tournamentId with
  | None => (false, tournaments)
  | Some tournament =>
      let cleared :=
        set_players (set_currentHole 1 <$> players tournament)
          (set_currentRound (Num 1) (set_scores [] tournament)) in
      (true, <[tournamentId := cleared]> tournaments)
  end.

(** [getPlayerScorecard].  The round, when given, is used as it is (also
    when it is 0). *)
Record Scorecard : Type := {
  sc_player : Player;
  sc_scores : list ScoreEntry;
  sc_par : list Z;
}.

Definition byHole (a b : ScoreEntry) : number := Num (hole a - hole b).

Definition getPlayerScorecard (tournaments : gmap string Tournament)
    (tournamentId playerId_ : string) (r : option number) : option Scorecard :=
  match tournaments !! tournamentId with
  | None => None
  | Some tournament =>
      match find (λ p, bool_decide (id p = playerId_)) (players tournament) with
      | None => None
      | Some player =>
          let targetRound := default (currentRound tournament) r in
          Some {| sc_player := player;
                  sc_scores :=
                    Array_sort byHole
                      (filter (λ s, playerId s = playerId_ ∧
                                    jseq (round s) targetRound)
                              (scores tournament));
                  sc_par := t_par tournament |}
      end
  end.

(** [createSidegame] *)
Definition createSidegame (uuid : string) (now : Z)
    (sidegames : gmap string TeamSidegame) (tournamentId : string) (r : Z)
    (ty : GameType) (groups : option (list (list string)))
    : TeamSidegame * gmap string TeamSidegame :=
  let sidegame :=
    {| sg_id := uuid; sg_tournamentId := tournamentId; sg_round := r;
       gameType := ty; sg_teams := teams;
       groupings := if ty is all_vs_all then groups else None;
       matches := []; sg_createdAt := now |} in
  (sidegame, <[uuid := sidegame]> sidegames).

(** The holes that have a score in the current round, as the [Set] holds
    them. *)
Definition holesWithScores (activeTournament : Tournament) : list Z :=
  holes_set
    (hole <$> filter (λ s, jseq (round s) (currentRound activeTournament))
                     (scores activeTournament)).

(** [getSumMatchLiveScorecard]: an object from holes to the object of the
    teams' totals. *)
Definition getSumMatchLiveScorecard (activeTournament : option Tournament)
    (sidegames : gmap string TeamSidegame) (sidegameId : string)
    : gmap Z (gmap string number) :=
  match sidegames !! sidegameId with
  | None => ∅
  | Some sidegame =>
      if decide (gameType sidegame ≠ sum_match) then ∅
      else
        match activeTournament with
        | None => ∅
        | Some activeTournament =>
            foldl (λ liveScorecard h,
                     <[h := hole_totals activeTournament h]> liveScorecard)
                  ∅ (holesWithScores activeTournament)
        end
  end.

(** [clearTournamentSidegames]: the sidegames of the tournament are
    collected, and each is deleted under its own id. *)
Definition clearTournamentSidegames (sidegames : gmap string TeamSidegame)
    (tournamentId : string) : gmap string TeamSidegame :=
  let sidegamesToDelete :=
    filter (λ sg, sg_tournamentId sg = tournamentId) (map_to_list sidegames).*2 in
  foldl (λ m sg, delete (sg_id sg) m) sidegames sidegamesToDelete.

(** The results the manual-score endpoint hands to [processHoleMatch] for a
    sum-match sidegame: the one score just recorded, against par. *)
Definition manual_sum_match_results (player : Player) (scoreEntry : ScoreEntry)
    : gmap string number :=
  {[ name player := jssub (strokes scoreEntry) (par scoreEntry) ]}.

(** ** TranscriptionService *)

Definition set_hole_strokes (h : option Z) (s : option Z) (u : ScoringUpdate)
    : ScoringUpdate :=
  {| u_player := u_player u; u_hole := h; u_strokes := s;
     u_action := u_action u; rawTranscription := rawTranscription u |}.

(** The rewriting both branches of [fixSequentialScoring] do: the updates
    get consecutive holes from [startHole] on, and the strokes of the
    sequence where it has a number that is not 0. *)
Definition renumber (startHole : Z) (scores_ : list Z)
    (scoringUpdates : list ScoringUpdate) : list ScoringUpdate :=
  imap (λ index update,
          set_hole_strokes (Some (startHole + Z.of_nat index))
            (match nonzero (scores_ !! index) with
             | Some s => Some s
             | None => u_strokes update
             end)
            update)
       scoringUpdates.

(** [fixSequentialScoring].  [matched] is what the sequence pattern finds in
    the transcription: the starting hole and the numbers after it. *)
Definition fixSequentialScoring (scoringUpdates : list ScoringUpdate)
    (matched : option (Z * list Z)) : list ScoringUpdate :=
  match matched with
  | None => scoringUpdates
  | Some (startHole, scores_) =>
      if decide (scores_ = []) then scoringUpdates
      else
        let firstHole := head scoringUpdates ≫= u_hole in
        let sameHoleError :=
          bool_decide (Forall (λ update, u_hole update = firstHole) scoringUpdates) &&
          bool_decide (length scoringUpdates = length scores_) &&
          bool_decide (firstHole = Some startHole) in
        if sameHoleError then renumber startHole scores_ scoringUpdates
        else if bool_decide (length scoringUpdates = length scores_) &&
                bool_decide (1 < length scores_)%nat
        then
          let hasCorrectHoles :=
            bool_decide
              (Forall (λ i, Some (startHole + Z.of_nat i) ∈ u_hole <$> scoringUpdates)
                      (seq 0 (length scores_))) in
          if negb hasCorrectHoles then renumber startHole scores_ scoringUpdates
          else scoringUpdates
        else scoringUpdates
  end.

(** ** Vocabulary of the specification *)

(** The points of a hole as the specification words them: the allowance is
    [floor(R / 18)] plus one on the holes whose stroke index is at most
    [R mod 18]. *)
Definition stableford_reference (strokes par R idx : Z) : Z :=
  let allowance := R / 18 + (if idx <=? R mod 18 then 1 else 0) in
  let adjustedPar := par + allowance in
  let diff := strokes - adjustedPar in
  if diff <=? -2 then 4
  else if diff =? -1 then 3
  else if diff =? 0 then 2
  else if diff =? 1 then 1
  else 0.

(** The value the specification rounds: [index * slope / 113 + (courseRating - totalPar)]. *)
Definition course_handicap_value (index slope rating : Q) (totalPar : Z) : Q :=
  (index * slope / 113 + (rating - inject_Z totalPar))%Q.

(** The figures of a handicap computation that the properties cover: an
    index, a slope rating and a course rating between 0 and 1024. *)
Definition in_range (x : Q) : Prop := (0 <= x)%Q ∧ (x <= 1024)%Q.

(** The key of a ledger entry. *)
Definition entry_key (s : ScoreEntry) : string * Z * number :=
  (playerId s, hole s, round s).

(** The part of a player that recording scores is not meant to touch. *)
Definition identity_of (p : Player)
    : string * string * option double * option number :=
  (id p, name p, handicap p, receivedStrokes p).

(** [a] may stand before [b] on the leaderboard: a lower score against par,
    or the same score with at least as many holes completed. *)
Definition ranks_before (a b : LeaderboardEntry) : Prop :=
  ∃ x y, currentScore a = Num x ∧ currentScore b = Num y ∧
         (x < y ∨ (x = y ∧ holesCompleted b ≤ holesCompleted a)).

(** A ledger whose strokes and pars are all numbers. *)
Definition numeric_ledger (ledger : list ScoreEntry) : Prop :=
  Forall (λ s, is_num (strokes s) ∧ is_num (par s)) ledger.

(** The vocabulary of the sum-match award, over the teams' totals on a hole. *)
Definition is_best (totals : gmap string number) (v : Z) : Prop :=
  ∀ k' v', totals !! k' = Some (Num v') → v ≤ v'.

Definition is_worst (totals : gmap string number) (v : Z) : Prop :=
  ∀ k' v', totals !! k' = Some (Num v') → v' ≤ v.

Definition all_tied (totals : gmap string number) : Prop :=
  ∀ k1 k2 v1 v2,
    totals !! k1 = Some (Num v1) → totals !! k2 = Some (Num v2) → v1 = v2.

Definition sole_best (totals : gmap string number) (k : string) : Prop :=
  ∃ v, totals !! k = Some (Num v) ∧
       ∀ k' v', k' ≠ k → totals !! k' = Some (Num v') → v < v'.

Definition sole_worst (totals : gmap string number) (k : string) : Prop :=
  ∃ v, totals !! k = Some (Num v) ∧
       ∀ k' v', k' ≠ k → totals !! k' = Some (Num v') → v' < v.

Definition numeric_object (obj : gmap string number) : Prop :=
  map_Forall (λ _ v, is_num v) obj.

(** Every configured team has a number as its total, and only they. *)
Definition totals_of_teams (ts : list Team) (totals : gmap string number) : Prop :=
  ∀ k, (k ∈ team_id <$> ts → ∃ v, totals !! k = Some (Num v)) ∧
       (k ∉ team_id <$> ts → totals !! k = None).

(** The all-vs-all rule, pair by pair: what the pair of [player1] and
    [player2] is worth to team [k].  Players of one team, and players who
    tie, are worth nothing to anybody; otherwise the pair is worth one point
    to the team of the player with the higher result, and nothing to the
    other team. *)
Definition pair_points (holeResults : gmap string number) (k : string)
    (player1 player2 : string) : Z :=
  match getPlayerTeam player1, getPlayerTeam player2 with
  | Some team1, Some team2 =>
      if decide (team_id team1 = team_id team2) then 0
      else
        let score1 := or_zero (holeResults !! player1) in
        let score2 := or_zero (holeResults !! player2) in
        if jsgt score1 score2 then (if decide (team_id team1 = k) then 1 else 0)
        else if jsgt score2 score1 then (if decide (team_id team2 = k) then 1 else 0)
        else 0
  | _, _ => 0
  end.

(** The unordered pairs of a list, each once: positions [i < j]. *)
Fixpoint pairs_of {A} (l : list A) : list (A * A) :=
  match l with
  | [] => []
  | x :: l' => ((λ y, (x, y)) <$> l') ++ pairs_of l'
  end.

Definition sum_Z (l : list Z) : Z := foldr Z.add 0 l.

(** The points of team [k] on a hole: the worth of every pair of every
    group, among the group's players who have a result. *)
Definition all_vs_all_reference (holeResults : gmap string number)
    (groupings : list (list string)) (k : string) : Z :=
  sum_Z ((λ group,
            sum_Z ((λ pr, pair_points holeResults k pr.1 pr.2) <$>
                   pairs_of (filter (λ playerName, is_Some (holeResults !! playerName))
                                    group)))
         <$> groupings).

(** [a] may stand before [b] on the team leaderboard: more points, or the
    same points and a name that does not sort after the other's. *)
Definition team_ranks_before (a b : TeamLeaderboardEntry) : Prop :=
  ∃ x y, totalPoints a = Num x ∧ totalPoints b = Num y ∧
         (y < x ∨ (x = y ∧ localeCompare (teamName a) (teamName b) ≤ 0)).

(** What a collation has to satisfy for a sort by it to be defined. *)
Definition consistent_collation : Prop :=
  (∀ a b, 0 < localeCompare a b → localeCompare b a ≤ 0) ∧
  (∀ a b c, localeCompare a b ≤ 0 → localeCompare b c ≤ 0 →
            localeCompare a c ≤ 0).

(** Decidable forms of the vocabulary, for objects that are given. *)
Definition at_least (v : Z) (x : number) : Prop :=
  match x with Num v' => v ≤ v' | _ => True end.

Definition at_most (v : Z) (x : number) : Prop :=
  match x with Num v' => v' ≤ v | _ => True end.

#[global] Instance is_num_dec x : Decision (is_num x).
Proof. destruct x; simpl; apply _. Defined.

#[global] Instance at_least_dec v x : Decision (at_least v x).
Proof. destruct x; simpl; apply _. Defined.

#[global] Instance at_most_dec v x : Decision (at_most v x).
Proof. destruct x; simpl; apply _. Defined.

(** ** Vocabulary of the further properties *)

(** A run of calls. *)
Definition call (tournaments : gmap string Tournament) (c : Call)
    : gmap string Tournament :=
  match c with
  | CallProcess uuid now tid u => (processScoringUpdate uuid now tournaments tid u).2
  | CallManual uuid now tid pid h s => (manual_score uuid now tournaments tid pid h s).2
  | CallSetRound tid r => (setCurrentRound tournaments tid (Num r)).2
  | CallAdvance tid => (advanceToNextRound tournaments tid).2
  | CallClear tid => (clearTournamentData tournaments tid).2
  end.

Definition run (cs : list Call) (tournaments : gmap string Tournament)
    : gmap string Tournament :=
  foldl call tournaments cs.

(** [r] is the number of one of the rounds of the tournament. *)
Definition is_round (t : Tournament) (r : number) : Prop :=
  ∃ c, r = Num c ∧ 1 ≤ c ≤ totalRounds t.

Definition round_in_bounds (t : Tournament) : Prop :=
  is_round t (currentRound t).

Definition pointers_in_bounds (t : Tournament) : Prop :=
  Forall (λ p, 1 ≤ currentHole p ≤ 18) (players t).

(** Every entry is of a roster player and of a round of the tournament, and
    no key is stored twice. *)
Definition ledger_sound (t : Tournament) : Prop :=
  Forall (λ s, playerId s ∈ id <$> players t ∧ is_round t (round s))
         (scores t) ∧
  NoDup (entry_key <$> scores t).

(** [x] stands before [y] in the list. *)
Definition stands_before {A} (x y : A) (l : list A) : Prop :=
  ∃ i j, (i < j)%nat ∧ l !! i = Some x ∧ l !! j = Some y.

(** The strokes a spoken result is away from par. *)
Definition action_offset (a : Action) : option Z :=
  match a with
  | eagle => Some (-2)
  | birdie => Some (-1)
  | par_ => Some 0
  | bogey => Some 1
  | double_bogey => Some 2
  | score | delete_ => None
  end.


(** What reading [arr[i]] gives: a free slot and a slot past the end both
    read as nothing. *)
Definition slot {A} (arr : list (option A)) (i : Z) : option A :=
  default None (array_get arr i).

(** The Stableford points an entry is worth to a player who receives [R]
    strokes. *)
Definition points_of (R : option number) (s : ScoreEntry) : Z :=
  calculateStablefordPoints (strokes s) (par s) (or_zero R) (hole s).

(** The array the [forEach] loops of the leaderboard fill from [arr]. *)
Definition fill_from {A} (f : ScoreEntry → A) (arr : list (option A))
    (ss : list ScoreEntry) : list (option A) :=
  foldl (λ arr s, array_set None arr (hole s - 1) (Some (f s))) arr ss.

(** The entries of the ledger a leaderboard line of round [d] is about. *)
Definition entries_of (t : Tournament) (e : LeaderboardEntry) (d : number)
    : list ScoreEntry :=
  filter (λ s, playerId s = le_playerId e ∧ jseq (round s) d) (scores t).

(** Every sidegame is stored under its own id. *)
Definition keyed_by_id (sidegames : gmap string TeamSidegame) : Prop :=
  map_Forall (λ k sg, sg_id sg = k) sidegames.

(** The name [parsePlayerInfo] gives a player: the matched name, or the
    whole string when nothing matched. *)
Definition name_given (pm : string * option (string * double)) : string :=
  match pm.2 with
  | Some (n, _) => n
  | None => pm.1
  end.

(** * Properties *)

(** ** Stableford points of a hole *)

Lemma calculateStablefordPoints_Num strokes par R h :
  calculateStablefordPoints (Num strokes) (Num par) (Num R) h =
  let allowance :=
    R / 18 + match array_get standardIndex (h - 1) with
             | Some idx => if idx <=? Z.rem R 18 then 1 else 0
             | None => 0
             end in
  let diff := strokes - (par + allowance) in
  if diff <=? -2 then 4
  else if diff =? -1 then 3
  else if diff =? 0 then 2
  else if diff =? 1 then 1
  else 0.
Proof.
  unfold calculateStablefordPoints. cbv zeta.
  assert (jsadd (Math_floor_div (Num R) 18)
            (if jsle (default NaN (Num <$> array_get standardIndex (h - 1)))
                     (jsrem (Num R) 18)
             then Num 1 else Num 0)
          = Num (R / 18 + match array_get standardIndex (h - 1) with
                          | Some idx => if idx <=? Z.rem R 18 then 1 else 0
                          | None => 0
                          end)) as ->.
  { destruct (array_get standardIndex (h - 1)) as [idx|]; simpl; [|done].
    unfold jsle, jslt, jseq.
    destruct (Z.leb_spec idx (Z.rem R 18)), (Z.ltb_spec idx (Z.rem R 18)),
      (Z.eqb_spec idx (Z.rem R 18)); simpl; first [done | lia]. }
  unfold jsle, jssub, jsadd, jsneg, jslt, jseq.
  set (a := R / 18 + _).
  replace (strokes + - (par + a)) with (strokes - (par + a)) by lia.
  destruct (Z.leb_spec (strokes - (par + a)) (-2)) as [H|H].
  - destruct (Z.ltb_spec (strokes - (par + a)) (-2)); [done|].
    assert (strokes - (par + a) = -2) as -> by lia. done.
  - destruct (Z.ltb_spec (strokes - (par + a)) (-2)); [lia|].
    destruct (Z.eqb_spec (strokes - (par + a)) (-2)); [lia|]. done.
Qed.

Lemma calculateStablefordPoints_range strokes par R h :
  calculateStablefordPoints strokes par R h ∈ [0; 1; 2; 3; 4].
Proof.
  unfold calculateStablefordPoints. cbv zeta.
  repeat case_match; set_solver.
Qed.

(** C2. On a ledger entry (integer strokes and par) of a player who receives
    [R >= 0] strokes, on a hole whose stroke index is [idx],
    [calculateStablefordPoints] is the reference definition; its result is
    one of 0, 1, 2, 3, 4, and it does not increase when the strokes do. *)
Theorem C2_stableford_points (strokes par R h : Z) :
  (∀ idx, 0 ≤ R → array_get standardIndex (h - 1) = Some idx →
     calculateStablefordPoints (Num strokes) (Num par) (Num R) h =
     stableford_reference strokes par R idx) ∧
  calculateStablefordPoints (Num strokes) (Num par) (Num R) h ∈ [0; 1; 2; 3; 4] ∧
  (∀ strokes', strokes ≤ strokes' →
     calculateStablefordPoints (Num strokes') (Num par) (Num R) h ≤
     calculateStablefordPoints (Num strokes) (Num par) (Num R) h).
Proof.
  split; [|split].
  - intros idx HR Hidx. rewrite calculateStablefordPoints_Num, Hidx.
    unfold stableford_reference. cbv zeta.
    rewrite Z.rem_mod_nonneg by lia. done.
  - apply calculateStablefordPoints_range.
  - intros strokes' Hle. rewrite !calculateStablefordPoints_Num. cbv zeta.
    set (a := par + _).
    repeat match goal with
           | |- context [?x <=? ?y] => destruct (Z.leb_spec x y)
           | |- context [?x =? ?y] => destruct (Z.eqb_spec x y)
           end; lia.
Qed.

(** ** Rounding to a double *)

Lemma pow2_pos e : (0 < pow2 e)%Q.
Proof. apply Qpower_0_lt. reflexivity. Qed.

Lemma pow2_le a b : a ≤ b → (pow2 a <= pow2 b)%Q.
Proof. intros H. apply Qpower_le_compat_l; [exact H|]. discriminate. Qed.

Lemma pow2_lt_inv a b : (pow2 a < pow2 b)%Q → a < b.
Proof. intros H. apply (Qpower_lt_compat_l_inv 2); [exact H|reflexivity]. Qed.

Lemma pow2_plus a b : (pow2 (a + b) == pow2 a * pow2 b)%Q.
Proof. apply Qpower_plus. discriminate. Qed.

Lemma pow2_Z n : 0 ≤ n → (pow2 n == inject_Z (2 ^ n))%Q.
Proof. intros H. unfold pow2. by rewrite (Zpower_Qpower 2 n H). Qed.

Lemma ilog2_spec x :
  (0 < x)%Q → (pow2 (ilog2 x) <= x)%Q ∧ (x < pow2 (ilog2 x + 1))%Q.
Proof.
  intros Hx. destruct x as [n d]. unfold ilog2. cbn [Qnum Qden].
  assert (0 < n) as Hn.
  { unfold Qlt in Hx. simpl in Hx. lia. }
  set (ln := Z.log2 n). set (ld := Z.log2 (Z.pos d)).
  pose proof (Z.log2_spec n Hn) as [Hn1 Hn2]. fold ln in Hn1, Hn2.
  pose proof (Z.log2_spec (Z.pos d) ltac:(lia)) as [Hd1 Hd2]. fold ld in Hd1, Hd2.
  pose proof (Z.log2_nonneg n) as Hln. fold ln in Hln.
  pose proof (Z.log2_nonneg (Z.pos d)) as Hld. fold ld in Hld.
  assert (0 < 2 ^ ln ∧ 0 < 2 ^ ld) as [Hpn Hpd] by (split; apply Z.pow_pos_nonneg; lia).
  assert (2 ^ Z.succ ln = 2 * 2 ^ ln) as Hsn by (apply Z.pow_succ_r; lia).
  assert (2 ^ Z.succ ld = 2 * 2 ^ ld) as Hsd by (apply Z.pow_succ_r; lia).
  rewrite Hsn in Hn2. rewrite Hsd in Hd2.
  (* x is between 2^(ln-ld-1) and 2^(ln-ld+1) *)
  assert (pow2 (ln - ld) == inject_Z (2 ^ ln) / inject_Z (2 ^ ld))%Q as Hk.
  { unfold pow2. rewrite Qpower_minus by discriminate.
    fold (pow2 ln) (pow2 ld). by rewrite !pow2_Z. }
  assert (0 < inject_Z (2 ^ ld))%Q as Hqd.
  { unfold Qlt. simpl. lia. }
  assert (0 < inject_Z (2 ^ ln))%Q as Hqn.
  { unfold Qlt. simpl. lia. }
  assert (n # d < 2 * pow2 (ln - ld))%Q as Hupper.
  { rewrite Hk.
    assert (n # d < 2 * inject_Z (2 ^ ln) / inject_Z (2 ^ ld))%Q as H.
    { apply Qlt_shift_div_l; [exact Hqd|].
      unfold Qlt, Qmult, inject_Z. simpl. nia. }
    eapply Qlt_le_trans; [exact H|]. apply Qle_lteq. right. field. lra. }
  assert (pow2 (ln - ld) < 2 * (n # d))%Q as Hlower.
  { rewrite Hk. apply Qlt_shift_div_r; [exact Hqd|].
    unfold Qlt, Qmult, inject_Z. simpl. nia. }
  assert (∀ k, pow2 (k + 1) == 2 * pow2 k)%Q as Hstep.
  { intros k. rewrite pow2_plus. change (pow2 1) with 2%Q. ring. }
  destruct (Qle_bool (pow2 (ln - ld)) (n # d)) eqn:Hb.
  - apply Qle_bool_iff in Hb. split; [exact Hb|]. by rewrite Hstep.
  - assert (¬ (pow2 (ln - ld) <= n # d)%Q) as Hnb.
    { intros H. apply Qle_bool_iff in H. congruence. }
    apply Qnot_le_lt in Hnb.
    replace (ln - ld - 1 + 1) with (ln - ld) by lia.
    split; [|exact Hnb].
    pose proof (Hstep (ln - ld - 1)) as Hs.
    replace (ln - ld - 1 + 1) with (ln - ld) in Hs by lia.
    rewrite Hs in Hlower. lra.
Qed.

Lemma ilog2_le x y : (0 < x)%Q → (x <= y)%Q → ilog2 x ≤ ilog2 y.
Proof.
  intros Hx Hxy.
  destruct (ilog2_spec x Hx) as [Hx1 _].
  destruct (ilog2_spec y) as [_ Hy2]; [lra|].
  assert (pow2 (ilog2 x) < pow2 (ilog2 y + 1))%Q as H by lra.
  apply pow2_lt_inv in H. lia.
Qed.

Lemma ilog2_lt_pow2 x k : (0 < x)%Q → (x < pow2 k)%Q → ilog2 x < k.
Proof.
  intros Hx Hk. destruct (ilog2_spec x Hx) as [Hx1 _].
  apply pow2_lt_inv. lra.
Qed.

#[local] Instance rne_proper : Proper (Qeq ==> eq) rne.
Proof.
  intros x y Hxy. unfold rne. rewrite (Qfloor_comp _ _ Hxy).
  assert ((x - inject_Z (Qfloor y) ?= 1 # 2) = (y - inject_Z (Qfloor y) ?= 1 # 2))%Q
    as -> by (by rewrite Hxy).
  done.
Qed.

Lemma rne_cases x :
  let f := Qfloor x in
  (inject_Z f <= x)%Q ∧ (x < inject_Z f + 1)%Q ∧
  ((rne x = f ∧ (x - inject_Z f <= 1 # 2)%Q ∧
    ((x - inject_Z f == 1 # 2)%Q → Z.even f = true)) ∨
   (rne x = f + 1 ∧ (1 # 2 <= x - inject_Z f)%Q ∧
    ((x - inject_Z f == 1 # 2)%Q → Z.even f = false))).
Proof.
  intros f. pose proof (Qfloor_le x) as H1. pose proof (Qlt_floor x) as H2.
  fold f in H1, H2. rewrite inject_Z_plus in H2.
  split; [exact H1|]. split; [exact H2|].
  unfold rne. fold f.
  destruct (x - inject_Z f ?= 1 # 2)%Q eqn:Hc.
  - apply Qeq_alt in Hc. destruct (Z.even f) eqn:He.
    + left. split; [done|]. split; [lra|done].
    + right. split; [done|]. split; [lra|done].
  - apply Qlt_alt in Hc. left. split; [done|]. split; [lra|]. intros E. lra.
  - apply Qgt_alt in Hc. right. split; [done|]. split; [lra|]. intros E. lra.
Qed.

Lemma rne_error x :
  (inject_Z (rne x) - (1 # 2) <= x)%Q ∧ (x <= inject_Z (rne x) + (1 # 2))%Q.
Proof.
  destruct (rne_cases x) as (H1 & H2 & [(-> & H3 & _)|(-> & H3 & _)]).
  - lra.
  - rewrite inject_Z_plus. change (inject_Z 1) with 1%Q. lra.
Qed.

Lemma rne_Z n : rne (inject_Z n) = n.
Proof.
  destruct (rne_cases (inject_Z n)) as (H1 & H2 & H).
  rewrite Qfloor_Z in *. destruct H as [(-> & _)|(_ & H3 & _)]; [done|]. lra.
Qed.

Lemma rne_mono x y : (x <= y)%Q → rne x ≤ rne y.
Proof.
  intros Hxy. pose proof (Qfloor_resp_le _ _ Hxy) as Hf.
  destruct (rne_cases x) as (Hx1 & Hx2 & Hx).
  destruct (rne_cases y) as (Hy1 & Hy2 & Hy).
  destruct (Z.eq_dec (Qfloor x) (Qfloor y)) as [E|E].
  - rewrite E in *.
    destruct Hx as [(-> & _)|(-> & Hx3 & Hx4)];
      destruct Hy as [(-> & Hy3 & Hy4)|(-> & _)]; try lia.
    assert (x - inject_Z (Qfloor y) == 1 # 2)%Q as Ex by lra.
    assert (y - inject_Z (Qfloor y) == 1 # 2)%Q as Ey by lra.
    rewrite (Hx4 Ex) in Hy4. by specialize (Hy4 Ey).
  - destruct Hx as [(-> & _)|(-> & _)]; destruct Hy as [(-> & _)|(-> & _)]; lia.
Qed.

Lemma ulp_exponent_le x y : (0 < x)%Q → (x <= y)%Q → ulp_exponent x ≤ ulp_exponent y.
Proof.
  intros Hx Hxy. unfold ulp_exponent.
  pose proof (ilog2_le x y Hx Hxy). lia.
Qed.

Lemma round_magnitude_low x :
  (0 < x)%Q → -1022 ≤ ilog2 x →
  (pow2 (ilog2 x) <= round_magnitude x)%Q.
Proof.
  intros Hx Hnormal. unfold round_magnitude, ulp_exponent.
  rewrite Z.max_l by lia. set (e := ilog2 x - 52).
  destruct (ilog2_spec x Hx) as [Hlow _].
  assert (pow2 (ilog2 x) == inject_Z (2 ^ 52) * pow2 e)%Q as Hp.
  { rewrite <- (pow2_Z 52) by lia. rewrite <- pow2_plus. unfold e.
    by replace (52 + (ilog2 x - 52)) with (ilog2 x) by lia. }
  rewrite Hp. apply Qmult_le_compat_r; [|apply Qlt_le_weak, pow2_pos].
  rewrite <- Zle_Qle. rewrite <- (rne_Z (2 ^ 52)) at 1. apply rne_mono.
  apply Qle_shift_div_l; [apply pow2_pos|]. by rewrite <- Hp.
Qed.

Lemma round_magnitude_high x :
  (0 < x)%Q →
  (round_magnitude x <= pow2 (ulp_exponent x + 53))%Q.
Proof.
  intros Hx. unfold round_magnitude. set (e := ulp_exponent x).
  destruct (ilog2_spec x Hx) as [_ Hhigh].
  assert (pow2 (e + 53) == inject_Z (2 ^ 53) * pow2 e)%Q as Hp.
  { rewrite <- (pow2_Z 53) by lia. rewrite <- pow2_plus.
    by replace (53 + e) with (e + 53) by lia. }
  rewrite Hp. apply Qmult_le_compat_r; [|apply Qlt_le_weak, pow2_pos].
  rewrite <- Zle_Qle. rewrite <- (rne_Z (2 ^ 53)) at 1. apply rne_mono.
  apply Qle_shift_div_r; [apply pow2_pos|]. rewrite <- Hp.
  apply Qlt_le_weak. eapply Qlt_le_trans; [exact Hhigh|].
  apply pow2_le. unfold e, ulp_exponent. lia.
Qed.

Lemma round_magnitude_mono x y :
  (0 < x)%Q → (x <= y)%Q → (round_magnitude x <= round_magnitude y)%Q.
Proof.
  intros Hx Hxy. assert (0 < y)%Q as Hy by lra.
  pose proof (ulp_exponent_le x y Hx Hxy) as He.
  destruct (Z.eq_dec (ulp_exponent x) (ulp_exponent y)) as [E|E].
  - unfold round_magnitude. rewrite E.
    apply Qmult_le_compat_r; [|apply Qlt_le_weak, pow2_pos].
    rewrite <- Zle_Qle. apply rne_mono.
    apply Qmult_le_compat_r; [exact Hxy|].
    apply Qlt_le_weak, Qinv_lt_0_compat, pow2_pos.
  - eapply Qle_trans; [apply round_magnitude_high, Hx|].
    assert (-1022 ≤ ilog2 y ∧ ulp_exponent x + 53 ≤ ilog2 y) as [Hn Hle].
    { unfold ulp_exponent in *. lia. }
    eapply Qle_trans; [apply pow2_le, Hle|].
    by apply round_magnitude_low.
Qed.

Lemma round_magnitude_pos x : (0 < x)%Q → (0 <= round_magnitude x)%Q.
Proof.
  intros Hx. unfold round_magnitude.
  apply Qmult_le_0_compat; [|apply Qlt_le_weak, pow2_pos].
  change 0%Q with (inject_Z 0). rewrite <- Zle_Qle.
  rewrite <- (rne_Z 0). apply rne_mono.
  apply Qle_shift_div_l; [apply pow2_pos|].
  change (inject_Z 0) with 0%Q. lra.
Qed.

Lemma round_magnitude_error x :
  (0 < x)%Q →
  (Qabs (round_magnitude x - x) <= pow2 (ulp_exponent x - 1))%Q.
Proof.
  intros Hx. unfold round_magnitude. set (e := ulp_exponent x).
  pose proof (pow2_pos e) as Hp.
  destruct (rne_error (x / pow2 e)) as [H1 H2].
  set (n := inject_Z (rne (x / pow2 e))) in *.
  assert (pow2 (e - 1) == (1 # 2) * pow2 e)%Q as Hhalf.
  { replace (e - 1) with (-1 + e) by lia. rewrite pow2_plus. done. }
  rewrite Hhalf.
  assert (x == x / pow2 e * pow2 e)%Q as Hx' by (field; lra).
  apply Qabs_Qle_condition. split.
  - assert ((x / pow2 e - n) * pow2 e <= (1 # 2) * pow2 e)%Q as H.
    { apply Qmult_le_compat_r; lra. }
    lra.
  - assert ((n - x / pow2 e) * pow2 e <= (1 # 2) * pow2 e)%Q as H.
    { apply Qmult_le_compat_r; lra. }
    lra.
Qed.

Lemma Qabs_pos_lt x : ¬ (x == 0)%Q → (0 < Qabs x)%Q.
Proof.
  intros Hx. destruct (Qlt_le_dec 0 (Qabs x)) as [|H]; [done|].
  exfalso. apply Hx. pose proof (Qabs_nonneg x).
  apply Qabs_Qle_condition in H. lra.
Qed.

Lemma negative_true x : negative x = true ↔ (x < 0)%Q.
Proof.
  unfold negative. split.
  - intros H. apply Qnot_le_lt. intros Hle. apply Qle_bool_iff in Hle.
    rewrite Hle in H. done.
  - intros H. destruct (Qle_bool 0 x) eqn:E; [|done].
    apply Qle_bool_iff in E. lra.
Qed.

Lemma negative_false x : negative x = false ↔ (0 <= x)%Q.
Proof.
  unfold negative. destruct (Qle_bool 0 x) eqn:E; simpl.
  - apply Qle_bool_iff in E. done.
  - split; [done|]. intros H. apply Qle_bool_iff in H. congruence.
Qed.

(** Rounding a value below [2^k] in magnitude gives a finite double that is
    off by at most half a unit in the last place of that range. *)
Lemma round64_bounded x k :
  -1021 ≤ k ≤ 1023 → (Qabs x < pow2 k)%Q →
  ∃ y, round64 x = Finite y ∧
       (Qabs (y - x) <= pow2 (k - 54))%Q ∧ (Qabs y <= pow2 k)%Q ∧
       ((0 <= x)%Q → (0 <= y)%Q).
Proof.
  intros Hk Hx. unfold round64.
  destruct (Qeq_bool x 0) eqn:Hz.
  { apply Qeq_bool_iff in Hz. exists 0%Q. split; [done|].
    pose proof (pow2_pos (k - 54)). pose proof (pow2_pos k).
    split; [|split; [|done]].
    - rewrite Hz. by apply Qlt_le_weak.
    - by apply Qlt_le_weak. }
  assert (¬ (x == 0)%Q) as Hnz.
  { intros E. apply Qeq_bool_iff in E. congruence. }
  pose proof (Qabs_pos_lt x Hnz) as Hpos.
  set (m := round_magnitude (Qabs x)).
  pose proof (round_magnitude_high _ Hpos) as Hhigh.
  pose proof (round_magnitude_error _ Hpos) as Herr.
  pose proof (round_magnitude_pos _ Hpos) as Hmpos.
  fold m in Hhigh, Herr, Hmpos.
  pose proof (ilog2_lt_pow2 _ k Hpos Hx) as Hlog.
  assert (ulp_exponent (Qabs x) ≤ k - 53) as He.
  { unfold ulp_exponent. lia. }
  assert (m <= pow2 k)%Q as Hm.
  { eapply Qle_trans; [exact Hhigh|]. apply pow2_le. lia. }
  assert (Qabs (m - Qabs x) <= pow2 (k - 54))%Q as Herr'.
  { eapply Qle_trans; [exact Herr|]. apply pow2_le. lia. }
  assert (pow2 k < pow2 1024)%Q as Hmax.
  { apply Qpower_lt_compat_l; [lia|reflexivity]. }
  destruct (Qle_bool (pow2 1024) m) eqn:Ho.
  { apply Qle_bool_iff in Ho. lra. }
  apply Qabs_Qle_condition in Herr'.
  destruct (negative x) eqn:Hs.
  - apply negative_true in Hs. rewrite (Qabs_neg x) in Herr' by lra.
    exists (Qred (- m)). split; [done|]. rewrite Qred_correct.
    split; [|split].
    + apply Qabs_Qle_condition. lra.
    + rewrite Qabs_opp, Qabs_pos by done. done.
    + intros ?. lra.
  - apply negative_false in Hs. rewrite (Qabs_pos x) in Herr' by done.
    exists (Qred m). split; [done|]. rewrite Qred_correct.
    split; [|split].
    + apply Qabs_Qle_condition. lra.
    + by rewrite Qabs_pos.
    + done.
Qed.

(** Rounding keeps the order of the values it leaves finite. *)
Lemma round64_mono x x' y y' :
  round64 x = Finite y → round64 x' = Finite y' → (x <= x')%Q → (y <= y')%Q.
Proof.
  unfold round64. intros Hx Hx' Hle.
  destruct (Qeq_bool x 0) eqn:Hz; destruct (Qeq_bool x' 0) eqn:Hz'.
  - injection Hx as <-. injection Hx' as <-. lra.
  - injection Hx as <-. apply Qeq_bool_iff in Hz.
    assert (¬ (x' == 0)%Q) as Hnz' by (intros E; apply Qeq_bool_iff in E; congruence).
    pose proof (round_magnitude_pos _ (Qabs_pos_lt x' Hnz')).
    destruct (Qle_bool _ _); [done|]. injection Hx' as <-.
    rewrite Qred_correct.
    destruct (negative x') eqn:Hs; [|done].
    apply negative_true in Hs. lra.
  - injection Hx' as <-. apply Qeq_bool_iff in Hz'.
    assert (¬ (x == 0)%Q) as Hnz by (intros E; apply Qeq_bool_iff in E; congruence).
    pose proof (round_magnitude_pos _ (Qabs_pos_lt x Hnz)).
    destruct (Qle_bool _ _); [done|]. injection Hx as <-.
    rewrite Qred_correct.
    destruct (negative x) eqn:Hs; [lra|].
    apply negative_false in Hs. exfalso. apply Hnz. lra.
  - assert (¬ (x == 0)%Q) as Hnz by (intros E; apply Qeq_bool_iff in E; congruence).
    assert (¬ (x' == 0)%Q) as Hnz' by (intros E; apply Qeq_bool_iff in E; congruence).
    pose proof (Qabs_pos_lt x Hnz) as Hp. pose proof (Qabs_pos_lt x' Hnz') as Hp'.
    pose proof (round_magnitude_pos _ Hp). pose proof (round_magnitude_pos _ Hp').
    destruct (Qle_bool _ (round_magnitude (Qabs x))); [done|].
    destruct (Qle_bool _ (round_magnitude (Qabs x'))); [done|].
    injection Hx as <-. injection Hx' as <-. rewrite !Qred_correct.
    destruct (negative x) eqn:Hs; destruct (negative x') eqn:Hs'.
    + apply negative_true in Hs, Hs'.
      assert (round_magnitude (Qabs x') <= round_magnitude (Qabs x))%Q.
      { apply round_magnitude_mono; [done|].
        rewrite !Qabs_neg by lra. lra. }
      lra.
    + lra.
    + apply negative_false in Hs. apply negative_true in Hs'. lra.
    + apply negative_false in Hs, Hs'.
      apply round_magnitude_mono; [done|]. rewrite !Qabs_pos by done. done.
Qed.

#[local] Instance round_half_up_proper : Proper (Qeq ==> eq) round_half_up.
Proof. intros x y H. unfold round_half_up. by rewrite H. Qed.

Lemma round_half_up_mono (x y : Q) : (x <= y)%Q → round_half_up x ≤ round_half_up y.
Proof.
  intros H. unfold round_half_up. apply Qfloor_resp_le.
  apply Qplus_le_l. exact H.
Qed.


(** ** Course handicap *)

Ltac pow2_values :=
  repeat match goal with
         | H : context [pow2 ?k] |- _ =>
             let v := eval vm_compute in (Qred (pow2 k)) in
             let E := fresh "E" in
             assert (pow2 k == v)%Q as E by (vm_compute; reflexivity);
             rewrite E in H; clear E
         | |- context [pow2 ?k] =>
             let v := eval vm_compute in (Qred (pow2 k)) in
             let E := fresh "E" in
             assert (pow2 k == v)%Q as E by (vm_compute; reflexivity);
             rewrite E; clear E
         end.

Lemma course_handicap_steps h s r :
  in_range h → in_range s → in_range r →
  ∃ a b c v,
    round64 (h * s) = Finite a ∧ round64 (a / 113) = Finite b ∧
    round64 (r + - inject_Z 72) = Finite c ∧ round64 (b + c) = Finite v ∧
    (0 <= a)%Q ∧ (0 <= b)%Q ∧
    (Qabs (v - course_handicap_value h s r 72) <= pow2 (-36))%Q.
Proof.
  intros [Hh1 Hh2] [Hs1 Hs2] [Hr1 Hr2].
  assert (0 <= h * s)%Q as Hp0 by (by apply Qmult_le_0_compat).
  assert (h * s <= 1024 * 1024)%Q as Hp1.
  { eapply Qle_trans; [apply Qmult_le_compat_r; [exact Hh2|exact Hs1]|].
    apply Qmult_le_l; [reflexivity|exact Hs2]. }
  destruct (round64_bounded (h * s) 21) as (a & Ha & Ea & Ba & Pa); [lia| |].
  { rewrite Qabs_pos by done. pow2_values. lra. }
  specialize (Pa Hp0).
  rewrite Qabs_pos in Ba by done.
  destruct (round64_bounded (a / 113) 15) as (b & Hb & Eb & Bb & Pb); [lia| |].
  { rewrite Qabs_pos by (apply Qle_shift_div_l; lra).
    apply Qlt_shift_div_r; [reflexivity|]. pow2_values. lra. }
  assert (0 <= a / 113)%Q as Hq0 by (apply Qle_shift_div_l; lra).
  specialize (Pb Hq0). rewrite Qabs_pos in Bb by done.
  change (inject_Z 72) with 72%Q.
  destruct (round64_bounded (r + - 72) 10) as (c & Hc & Ec & Bc & _); [lia| |].
  { apply Qabs_Qlt_condition. pow2_values. lra. }
  apply Qabs_Qle_condition in Bc.
  destruct (round64_bounded (b + c) 16) as (v & Hv & Ev & _); [lia| |].
  { apply Qabs_Qlt_condition. pow2_values. lra. }
  exists a, b, c, v. repeat split; try done.
  unfold course_handicap_value.
  apply Qabs_Qle_condition in Ea, Eb, Ec, Ev.
  assert (a / 113 - h * s / 113 == (a - h * s) / 113)%Q as Hdiv by field.
  assert ((a - h * s) / 113 <= pow2 (-39))%Q as Hd2.
  { apply Qle_shift_div_r; [reflexivity|]. pow2_values. lra. }
  assert (- pow2 (-39) <= (a - h * s) / 113)%Q as Hd3.
  { apply Qle_shift_div_l; [reflexivity|]. pow2_values. lra. }
  apply Qabs_Qle_condition.
  set (q1 := (a / 113)%Q) in *. set (q2 := (h * s / 113)%Q) in *.
  set (d := ((a - h * s) / 113)%Q) in *.
  change (inject_Z 72) with 72%Q.
  pow2_values. lra.
Qed.

Lemma Qfloor_unique (x : Q) (n : Z) :
  (inject_Z n <= x)%Q → (x < inject_Z n + 1)%Q → Qfloor x = n.
Proof.
  intros H1 H2. pose proof (Qfloor_le x) as H3. pose proof (Qlt_floor x) as H4.
  rewrite inject_Z_plus in H4. change (inject_Z 1) with 1%Q in H4.
  assert (inject_Z (Qfloor x) < inject_Z n + 1)%Q as H5 by lra.
  assert (inject_Z n < inject_Z (Qfloor x) + 1)%Q as H6 by lra.
  change 1%Q with (inject_Z 1) in H5, H6. rewrite <- inject_Z_plus in H5, H6.
  rewrite <- Zlt_Qlt in H5, H6. lia.
Qed.

Lemma Qabs_gt (delta y : Q) :
  (delta < Qabs y)%Q →
  ((0 <= y)%Q → (delta < y)%Q) ∧ ((y <= 0)%Q → (delta < - y)%Q).
Proof.
  intros H. split; intros Hy; apply Qnot_le_lt; intros Hle;
    apply (Qlt_not_le _ _ H); apply Qabs_Qle_condition; lra.
Qed.

(** A value that is not within [delta] of a half keeps its nearest integer
    when it is moved by [delta]. *)
Lemma round_half_up_stable (x delta : Q) :
  (0 <= delta)%Q →
  (∀ m : Z, (delta < Qabs (x - (inject_Z m + (1 # 2))))%Q) →
  round_half_up (x - delta) = round_half_up x ∧
  round_half_up (x + delta) = round_half_up x.
Proof.
  intros Hd Hfar. set (n := round_half_up x).
  pose proof (Qfloor_le (x + (1 # 2))) as H1.
  pose proof (Qlt_floor (x + (1 # 2))) as H2.
  fold (round_half_up x) in H1, H2. fold n in H1, H2.
  rewrite inject_Z_plus in H2. change (inject_Z 1) with 1%Q in H2.
  assert (inject_Z (n - 1) == inject_Z n - 1)%Q as En.
  { unfold Z.sub. rewrite inject_Z_plus, inject_Z_opp. reflexivity. }
  destruct (Qabs_gt _ _ (Hfar (n - 1))) as [Hlow _].
  destruct (Qabs_gt _ _ (Hfar n)) as [_ Hhigh].
  rewrite En in Hlow.
  specialize (Hlow ltac:(lra)). specialize (Hhigh ltac:(lra)).
  split; apply Qfloor_unique; lra.
Qed.

Lemma Math_max_zero (n : Z) : Math_max [Num 0; Num n] = Num (Z.max 0 n).
Proof.
  unfold Math_max. simpl. destruct (Z.ltb_spec 0 n).
  - by rewrite Z.max_r by lia.
  - by rewrite Z.max_l by lia.
Qed.

(** The strokes [parsePlayerInfo] computes from figures within range: the
    value rounded, through the doubles of every step. *)
Lemma parsePlayerInfo_steps uuid playerString name h s r :
  in_range h → in_range s → in_range r →
  ∃ a b c v,
    round64 (h * s) = Finite a ∧ round64 (a / 113) = Finite b ∧
    round64 (r + - inject_Z 72) = Finite c ∧ round64 (b + c) = Finite v ∧
    (Qabs (v - course_handicap_value h s r 72) <= pow2 (-36))%Q ∧
    receivedStrokes
      (parsePlayerInfo uuid playerString (Some (name, Finite h)) (Finite r) (Finite s))
    = Some (Num (Z.max 0 (round_half_up v))).
Proof.
  intros Hh Hs Hr.
  destruct (course_handicap_steps h s r Hh Hs Hr)
    as (a & b & c & v & Ha & Hb & Hc & Hv & _ & _ & Herr).
  exists a, b, c, v. repeat split; try done.
  unfold parsePlayerInfo. cbn [receivedStrokes].
  change (foldl Z.add 0 standardPar) with 72.
  unfold dmul. rewrite Ha. unfold div113. rewrite Hb.
  unfold dsub, dneg, dadd at 2. rewrite Hc. unfold dadd. rewrite Hv.
  cbn [Math_round]. by rewrite Math_max_zero.
Qed.

(** C5, as the code has it.  For an index, a slope rating and a course
    rating between 0 and 1024, the strokes a player created by
    [parsePlayerInfo] receives are a non-negative integer [r]: [max(0, n)]
    for the integer [n] nearest (halves going up) to the value of
    [index * slope / 113 + (courseRating - 72)] as double arithmetic
    computes it, each operation rounding, which is within [2^-36] of the
    exact value.  So [r] lies between what the formula gives for the exact
    value less [2^-36] and for the exact value plus [2^-36], and it is what
    the formula gives for the exact value whenever that value is farther
    than [2^-36] from every half.  A larger index never receives fewer
    strokes. *)
Theorem C5_received_strokes (uuid playerString name : string)
    (index rating slope : Q) :
  in_range index → in_range slope → in_range rating →
  let exact := course_handicap_value index slope rating 72 in
  let strokes_of i :=
    receivedStrokes
      (parsePlayerInfo uuid playerString (Some (name, Finite i))
         (Finite rating) (Finite slope)) in
  ∃ r : Z,
    strokes_of index = Some (Num r) ∧ 0 ≤ r ∧
    Z.max 0 (round_half_up (exact - pow2 (-36))) ≤ r ∧
    r ≤ Z.max 0 (round_half_up (exact + pow2 (-36))) ∧
    ((∀ m : Z, (pow2 (-36) < Qabs (exact - (inject_Z m + (1 # 2))))%Q) →
     r = Z.max 0 (round_half_up exact)) ∧
    (∀ index', in_range index' → (index <= index')%Q →
       ∃ r', strokes_of index' = Some (Num r') ∧ r ≤ r').
Proof.
  intros Hi Hs Hr exact strokes_of.
  destruct (parsePlayerInfo_steps uuid playerString name index slope rating Hi Hs Hr)
    as (a & b & c & v & Ha & Hb & Hc & Hv & Herr & Hstrokes).
  fold exact in Herr. apply Qabs_Qle_condition in Herr.
  assert (round_half_up (exact - pow2 (-36)) ≤ round_half_up v) as Hlow.
  { apply round_half_up_mono. lra. }
  assert (round_half_up v ≤ round_half_up (exact + pow2 (-36))) as Hhigh.
  { apply round_half_up_mono. lra. }
  exists (Z.max 0 (round_half_up v)).
  split; [exact Hstrokes|]. split; [lia|]. split; [lia|]. split; [lia|]. split.
  - intros Hfar.
    destruct (round_half_up_stable exact (pow2 (-36))) as [E1 E2];
      [apply Qlt_le_weak, pow2_pos|exact Hfar|].
    rewrite E1 in Hlow. rewrite E2 in Hhigh. lia.
  - intros index' Hi' Hle.
    destruct (parsePlayerInfo_steps uuid playerString name index' slope rating
                Hi' Hs Hr)
      as (a' & b' & c' & v' & Ha' & Hb' & Hc' & Hv' & _ & Hstrokes').
    exists (Z.max 0 (round_half_up v')). split; [exact Hstrokes'|].
    apply Z.max_le_compat_l, round_half_up_mono.
    rewrite Hc in Hc'. injection Hc' as <-.
    apply (round64_mono _ _ _ _ Hv Hv').
    apply Qplus_le_l.
    apply (round64_mono _ _ _ _ Hb Hb').
    apply Qmult_le_compat_r; [|discriminate].
    apply (round64_mono _ _ _ _ Ha Ha').
    apply Qmult_le_compat_r; [exact Hle|]. apply Hs.
Qed.

(** ** Lists: the stable sort, and entries found by key *)

Lemma sort_insert_Permutation {A} (cmp : A → A → number) x l :
  sort_insert cmp x l ≡ₚ x :: l.
Proof.
  induction l as [|y l IH]; simpl; [done|].
  case_match; [|done].
  rewrite IH. apply Permutation_swap.
Qed.

Lemma Array_sort_Permutation {A} (cmp : A → A → number) l :
  Array_sort cmp l ≡ₚ l.
Proof.
  induction l as [|x l IH]; simpl; [done|].
  rewrite sort_insert_Permutation. by rewrite IH.
Qed.

Lemma Array_sort_length {A} (cmp : A → A → number) (l : list A) :
  length (Array_sort cmp l) = length l.
Proof. by rewrite Array_sort_Permutation. Qed.

Section by_key.
Context {A K : Type} `{EqDecision K} (key : A → K).

Lemma filter_key_none (k : K) (l : list A) :
  (∀ x, x ∈ l → key x ≠ k) → filter (λ x, key x = k) l = [].
Proof.
  induction l as [|y l IH]; intros H; [done|].
  rewrite filter_cons_False; [|apply H; left].
  apply IH. intros x Hx. apply H. by right.
Qed.

Lemma NoDup_key_app_cons (l1 l2 : list A) (x : A) :
  NoDup (key <$> (l1 ++ x :: l2)) →
  (∀ y, y ∈ l1 → key y ≠ key x) ∧ (∀ y, y ∈ l2 → key y ≠ key x).
Proof.
  rewrite fmap_app, fmap_cons. intros H.
  apply NoDup_app in H as (_ & H1 & H2).
  apply NoDup_cons in H2 as [H2 _].
  split; intros y Hy Heq.
  - apply (H1 (key x)); [rewrite <- Heq; by apply list_elem_of_fmap_2|left].
  - apply H2. rewrite <- Heq. by apply list_elem_of_fmap_2.
Qed.

Lemma NoDup_key_replace (l1 l2 : list A) (x y : A) :
  key y = key x →
  NoDup (key <$> (l1 ++ x :: l2)) → NoDup (key <$> (l1 ++ y :: l2)).
Proof. intros Heq. by rewrite !fmap_app, !fmap_cons, Heq. Qed.

Lemma filter_key_replace (l1 l2 : list A) (x y : A) :
  key y = key x →
  NoDup (key <$> (l1 ++ x :: l2)) →
  filter (λ z, key z = key y) (l1 ++ y :: l2) = [y].
Proof.
  intros Heq Hnd. apply NoDup_key_app_cons in Hnd as [H1 H2].
  rewrite filter_app, filter_cons_True by done.
  rewrite !filter_key_none; [done| |]; intros z Hz; rewrite Heq; auto.
Qed.

Lemma NoDup_key_snoc (l : list A) (y : A) :
  (∀ z, z ∈ l → key z ≠ key y) →
  NoDup (key <$> l) → NoDup (key <$> (l ++ [y])).
Proof.
  intros Hfresh Hnd. rewrite fmap_app. apply NoDup_app. split; [done|].
  split; [|apply NoDup_singleton].
  intros k Hk Hk'. apply list_elem_of_singleton in Hk' as ->.
  apply list_elem_of_fmap in Hk as (z & Hz1 & Hz2). by apply (Hfresh z).
Qed.

Lemma filter_key_snoc (l : list A) (y : A) :
  (∀ z, z ∈ l → key z ≠ key y) →
  filter (λ z, key z = key y) (l ++ [y]) = [y].
Proof.
  intros Hfresh. rewrite filter_app, filter_key_none by done.
  by rewrite filter_cons_True.
Qed.

Lemma NoDup_key_delete (i : nat) (l : list A) :
  NoDup (key <$> l) → NoDup (key <$> delete i l).
Proof.
  intros H. apply (sublist_NoDup _ (key <$> l)); [done|].
  apply fmap_sublist, sublist_delete.
Qed.

Lemma NoDup_key_sort (cmp : A → A → number) (l : list A) :
  NoDup (key <$> l) → NoDup (key <$> Array_sort cmp l).
Proof. by rewrite Array_sort_Permutation. Qed.
End by_key.

(** An index found in a list splits it around the element found. *)
Lemma lookup_split {A} (l : list A) i x :
  l !! i = Some x → ∃ l1 l2, l = l1 ++ x :: l2 ∧ length l1 = i.
Proof.
  intros H. exists (take i l), (drop (S i) l). split.
  - by rewrite take_drop_middle.
  - rewrite length_take. apply lookup_lt_Some in H. lia.
Qed.

(** The stable sort orders a list whose comparator is consistent on the
    elements that satisfy [P]. *)
Section sort_sorted.
Context {A : Type} (cmp : A → A → number) (R : relation A) (P : A → Prop).
Hypothesis cmp_le : ∀ x y, P x → P y → jsgt (cmp x y) (Num 0) = false → R x y.
Hypothesis cmp_gt : ∀ x y, P x → P y → jsgt (cmp x y) (Num 0) = true → R y x.
Hypothesis R_trans : ∀ x y z, P x → P y → P z → R x y → R y z → R x z.

Lemma sort_insert_sorted x l :
  P x → Forall P l → StronglySorted R l →
  StronglySorted R (sort_insert cmp x l).
Proof using cmp_le cmp_gt R_trans.
  intros Hx. induction l as [|y l IH]; intros HP Hs; cbn [sort_insert].
  - repeat constructor.
  - apply Forall_cons in HP as [Hy HP].
    apply StronglySorted_inv in Hs as [Hs Hall].
    destruct (jsgt (cmp x y) (Num 0)) eqn:Hc.
    + constructor; [by apply IH|].
      rewrite sort_insert_Permutation. constructor; [|done].
      by apply cmp_gt.
    + constructor; [by constructor|].
      assert (R x y) as Hxy by (by apply cmp_le).
      constructor; [done|].
      rewrite Forall_forall in Hall, HP |- *.
      intros z Hz. apply (R_trans x y z); auto.
Qed.

Lemma Array_sort_sorted l :
  Forall P l → StronglySorted R (Array_sort cmp l).
Proof using cmp_le cmp_gt R_trans.
  induction l as [|x l IH]; intros HP; simpl; [constructor|].
  apply Forall_cons in HP as [Hx HP].
  apply sort_insert_sorted; [done| |by apply IH].
  by rewrite Array_sort_Permutation.
Qed.
End sort_sorted.

Lemma StronglySorted_pointwise {A} (R : relation A) (l : list A) i j a b :
  StronglySorted R l → (i < j)%nat →
  l !! i = Some a → l !! j = Some b → R a b.
Proof.
  intros Hs. revert i j. induction Hs as [|x l Hs IH Hall]; intros i j Hij Hi Hj.
  - done.
  - destruct j as [|j]; [lia|]. simpl in Hj.
    destruct i as [|i]; simpl in Hi.
    + injection Hi as ->. rewrite Forall_forall in Hall. apply Hall.
      apply list_elem_of_lookup. eauto.
    + apply (IH i j); [lia|done..].
Qed.

(** ** The score ledger *)

Lemma resolve_target_ledger t u :
  (resolve_target t u).2 = scores t ∨
  (resolve_target t u).2 = Array_sort byTimestampDesc (scores t).
Proof. unfold resolve_target. repeat case_match; simpl; auto. Qed.

Lemma deleteScore_in_unique now t u :
  NoDup (entry_key <$> scores t) →
  NoDup (entry_key <$> scores (deleteScore_in now t u).2).
Proof.
  intros Hnd. unfold deleteScore_in.
  assert (NoDup (entry_key <$> (resolve_target t u).2)) as Hl.
  { destruct (resolve_target_ledger t u) as [-> | ->];
      [done | by apply NoDup_key_sort]. }
  destruct (resolve_target t u) as [[player target] ledger]. simpl in Hl.
  repeat case_match; simplify_eq/=; try done.
  by apply NoDup_key_delete.
Qed.

(** [===] is equality, except that [NaN] is not equal to itself. *)
Lemma jseq_eq (a b : number) : b ≠ NaN → jseq a b ↔ a = b.
Proof.
  intros Hb. destruct a, b; simpl; try done; try (split; [intros []|done]).
  rewrite Is_true_true, Z.eqb_eq. split; [by intros ->|by intros [=]].
Qed.

Lemma jseq_NaN (a : number) : jseq a NaN = false.
Proof. by destruct a. Qed.

Lemma same_key_iff (e s : ScoreEntry) :
  round e ≠ NaN →
  (playerId s = playerId e ∧ hole s = hole e ∧ jseq (round s) (round e)) ↔
  entry_key s = entry_key e.
Proof.
  intros Hr. rewrite (jseq_eq _ _ Hr). unfold entry_key.
  split; [intros (-> & -> & ->); done|]. intros [=]; auto.
Qed.

(** What [upsert] does to a ledger that holds each key once, for an entry
    whose round is a number. *)
Lemma upsert_spec (e : ScoreEntry) (ledger : list ScoreEntry) :
  round e ≠ NaN →
  NoDup (entry_key <$> ledger) →
  NoDup (entry_key <$> upsert e ledger) ∧
  filter (λ s, entry_key s = entry_key e) (upsert e ledger) = [e] ∧
  (∀ k old, ledger !! k = Some old → entry_key old = entry_key e →
     upsert e ledger = <[k := e]> ledger) ∧
  ((∀ s, s ∈ ledger → entry_key s ≠ entry_key e) → upsert e ledger = ledger ++ [e]).
Proof.
  intros Hr Hnd. unfold upsert.
  destruct (list_find _ ledger) as [[i old]|] eqn:Hfind.
  - apply list_find_Some in Hfind as (Hi & Hkey & _).
    apply (same_key_iff _ _ Hr) in Hkey.
    destruct (lookup_split _ _ _ Hi) as (l1 & l2 & -> & Hlen).
    assert (<[i := e]> (l1 ++ old :: l2) = l1 ++ e :: l2) as Hins.
    { subst i. rewrite insert_app_r_alt, Nat.sub_diag by lia. done. }
    rewrite Hins. split; [|split; [|split]].
    + by apply (NoDup_key_replace entry_key l1 l2 old e).
    + by apply (filter_key_replace entry_key l1 l2 old e).
    + intros k old' Hk Hkey'. rewrite <- Hins.
      assert (k = i) as ->; [|done].
      eapply (NoDup_lookup _ k i (entry_key e) Hnd).
      * by rewrite list_lookup_fmap, Hk, <- Hkey'.
      * by rewrite list_lookup_fmap, Hi, <- Hkey.
    + intros Hfresh. exfalso. apply (Hfresh old); [|done].
      apply list_elem_of_lookup. eauto.
  - apply list_find_None in Hfind.
    assert (∀ s, s ∈ ledger → entry_key s ≠ entry_key e) as Hfresh.
    { intros s Hs Hkey. rewrite Forall_forall in Hfind.
      apply (Hfind s Hs). by apply same_key_iff. }
    split; [|split; [|split]].
    + by apply NoDup_key_snoc.
    + by apply filter_key_snoc.
    + intros k old Hk Hkey. exfalso. apply (Hfresh old); [|done].
      apply list_elem_of_lookup. eauto.
    + done.
Qed.

Lemma upsert_length_replace (e : ScoreEntry) (ledger : list ScoreEntry) :
  round e ≠ NaN →
  (∃ s, s ∈ ledger ∧ entry_key s = entry_key e) →
  length (upsert e ledger) = length ledger.
Proof.
  intros Hr (s & Hs & Hkey). unfold upsert.
  destruct (list_find _ ledger) as [[i old]|] eqn:Hfind.
  - by rewrite length_insert.
  - apply list_find_None in Hfind. rewrite Forall_forall in Hfind.
    exfalso. apply (Hfind s Hs). by apply same_key_iff.
Qed.

(** With a round that is [NaN] no stored entry is found, and the entry goes
    to the end. *)
Lemma upsert_NaN (e : ScoreEntry) (ledger : list ScoreEntry) :
  round e = NaN → upsert e ledger = ledger ++ [e].
Proof.
  intros Hr. unfold upsert.
  destruct (list_find _ ledger) as [[i old]|] eqn:Hfind; [|done].
  apply list_find_Some in Hfind as (_ & (_ & _ & Hkey) & _).
  rewrite Hr, jseq_NaN in Hkey. done.
Qed.

(** A recording that succeeds stores the entry it returns. *)
Lemma record_scores uuid now t u e t' :
  u_action u ≠ delete_ →
  processScoringUpdate_in uuid now t u = (Some e, t') →
  scores t' = upsert e (scores t) ∧
  (∀ s, nonzero (u_strokes u) = Some s → strokes e = Num s).
Proof.
  intros Hact. unfold processScoringUpdate_in.
  destruct (decide _) as [|_]; [done|].
  destruct (locate_player _ _ _) as [[[i player] roster]|]; [|done].
  cbv zeta.
  destruct (nonzero (u_strokes u)) as [s|] eqn:Hs.
  - intros [= <- <-]. simpl. split; [done|]. by intros ? [= ->].
  - destruct (strokes_of_action _ _); [|done].
    intros [= <- <-]. simpl. split; done.
Qed.

(** The entry is of the current round, and the current round stays. *)
Lemma record_round uuid now t u e t' :
  u_action u ≠ delete_ →
  processScoringUpdate_in uuid now t u = (Some e, t') →
  round e = currentRound t ∧ currentRound t' = currentRound t.
Proof.
  intros Hact. unfold processScoringUpdate_in.
  destruct (decide _) as [|_]; [done|].
  destruct (locate_player _ _ _) as [[[i player] roster]|]; [|done].
  cbv zeta.
  destruct (nonzero (u_strokes u)) as [s|] eqn:Hs.
  - intros [= <- <-]. done.
  - destruct (strokes_of_action _ _); [|done].
    intros [= <- <-]. done.
Qed.

Lemma record_failure_scores uuid now t u t' :
  u_action u ≠ delete_ →
  processScoringUpdate_in uuid now t u = (None, t') →
  scores t' = scores t.
Proof.
  intros Hact. unfold processScoringUpdate_in.
  destruct (decide _) as [|_]; [done|].
  destruct (locate_player _ _ _) as [[[i player] roster]|]; [|by intros [= <-]].
  cbv zeta. repeat case_match; intros [= <-]; done.
Qed.

Lemma processScoringUpdate_unfold uuid now tournaments tid t u :
  tournaments !! tid = Some t →
  processScoringUpdate uuid now tournaments tid u =
  ((processScoringUpdate_in uuid now t u).1,
   <[tid := (processScoringUpdate_in uuid now t u).2]> tournaments).
Proof. intros H. unfold processScoringUpdate. by rewrite H. Qed.

Lemma processScoringUpdate_in_unique uuid now t u :
  currentRound t ≠ NaN →
  NoDup (entry_key <$> scores t) →
  NoDup (entry_key <$> scores (processScoringUpdate_in uuid now t u).2).
Proof.
  intros Hr Hnd.
  destruct (decide (u_action u = delete_)) as [Hd|Hd].
  - unfold processScoringUpdate_in. rewrite decide_True by done.
    by apply deleteScore_in_unique.
  - destruct (processScoringUpdate_in uuid now t u) as [[e|] t'] eqn:Hp; simpl.
    + destruct (record_round _ _ _ _ _ _ Hd Hp) as [Hre _].
      apply record_scores in Hp as [-> _]; [|done].
      apply upsert_spec; [congruence|done].
    + apply record_failure_scores in Hp as ->; done.
Qed.


(** ** The roster while scores are recorded *)

Lemma locate_player_spec uuid t u i p roster :
  locate_player uuid t u = Some (i, p, roster) →
  roster !! i = Some p ∧
  ((roster = players t ∧ name_matches (u_player u) p) ∨
   (roster = players t ++ [p] ∧ i = length (players t) ∧
    p = {| id := uuid; name := u_player u; currentHole := 1;
           handicap := None; receivedStrokes := None |} ∧
    u_player u ≠ EmptyString ∧
    ∀ q, q ∈ players t → ¬ name_matches (u_player u) q)).
Proof.
  unfold locate_player.
  destruct (list_find _ _) as [[i' p']|] eqn:Hfind.
  - intros [= -> -> <-]. apply list_find_Some in Hfind as (Hi & Hm & _).
    split; [done|]. left. done.
  - destruct (decide _) as [|Hne]; [done|].
    intros [= <- <- <-]. split.
    + by rewrite lookup_app_r, Nat.sub_diag.
    + right. repeat split; try done.
      apply list_find_None in Hfind. by rewrite Forall_forall in Hfind.
Qed.

Lemma deleteScore_in_frame now t u :
  let t' := (deleteScore_in now t u).2 in
  players t' = players t ∧ t_id t' = t_id t ∧ t_name t' = t_name t ∧
  course t' = course t ∧ courseRating t' = courseRating t ∧
  slopeRating t' = slopeRating t ∧ t_par t' = t_par t ∧
  createdAt t' = createdAt t ∧ totalRounds t' = totalRounds t ∧
  currentRound t' = currentRound t.
Proof.
  unfold deleteScore_in.
  destruct (resolve_target t u) as [[player target] ledger].
  repeat case_match; simpl; repeat split; done.
Qed.

(** The roster after an update: the one the player was located in, with at
    most the located player's current hole moved on by one. *)
Lemma record_players uuid now t u :
  u_action u ≠ delete_ →
  let t' := (processScoringUpdate_in uuid now t u).2 in
  (t_id t' = t_id t ∧ t_name t' = t_name t ∧
   course t' = course t ∧ courseRating t' = courseRating t ∧
   slopeRating t' = slopeRating t ∧ t_par t' = t_par t ∧
   createdAt t' = createdAt t ∧ totalRounds t' = totalRounds t ∧
   currentRound t' = currentRound t) ∧
  (players t' = players t ∨
   ∃ i p roster, locate_player uuid t u = Some (i, p, roster) ∧
     (players t' = roster ∨
      (currentHole p < 18 ∧
       players t' = <[i := set_currentHole (currentHole p + 1) p]> roster))).
Proof.
  intros Hact. unfold processScoringUpdate_in.
  destruct (decide _) as [|_]; [done|].
  destruct (locate_player _ _ _) as [[[i p] roster]|] eqn:Hloc; [|simpl; auto 20].
  cbv zeta.
  destruct (match nonzero (u_strokes u) with Some _ => _ | None => _ end);
    simpl; (split; [done|]).
  - right. exists i, p, roster. split; [done|].
    destruct (decide _) as [[Heq Hlt]|]; [|by left].
    right. rewrite Heq in *. done.
  - right. exists i, p, roster. split; [done|]. by left.
Qed.

Lemma identity_of_set_currentHole h p :
  identity_of (set_currentHole h p) = identity_of p.
Proof. done. Qed.

Lemma identity_insert_currentHole (roster : list Player) i p h :
  roster !! i = Some p →
  identity_of <$> <[i := set_currentHole h p]> roster = identity_of <$> roster.
Proof.
  intros Hi. rewrite list_fmap_insert, identity_of_set_currentHole.
  apply list_insert_id. by rewrite list_lookup_fmap, Hi.
Qed.


(** ** Deletion *)

Lemma nonzero_Some x h : nonzero x = Some h → x = Some h ∧ h ≠ 0.
Proof.
  unfold nonzero. destruct x as [z|]; [|done].
  destruct (Z.eqb_spec z 0); [done|]. by intros [= <-].
Qed.

Lemma nonzero_id h : h ≠ 0 → nonzero (Some h) = Some h.
Proof. intros H. unfold nonzero. by destruct (Z.eqb_spec h 0). Qed.

Lemma list_find_first {A} (P : A → Prop) `{∀ x, Decision (P x)} (pre post : list A) x :
  P x → (∀ y, y ∈ pre → ¬ P y) →
  list_find P (pre ++ x :: post) = Some (length pre, x).
Proof.
  intros Hx Hpre. apply list_find_Some. split; [|split; [done|]].
  - by rewrite lookup_app_r, Nat.sub_diag.
  - intros j y Hj Hlt. apply Hpre.
    rewrite lookup_app_l in Hj by done. apply list_elem_of_lookup. eauto.
Qed.

Lemma list_find_split {A} (P : A → Prop) `{∀ x, Decision (P x)} (l : list A) i x :
  list_find P l = Some (i, x) →
  ∃ pre post, l = pre ++ x :: post ∧ length pre = i ∧ P x ∧
    ∀ y, y ∈ pre → ¬ P y.
Proof.
  intros (Hi & Hx & Hleast)%list_find_Some.
  destruct (lookup_split _ _ _ Hi) as (pre & post & -> & Hlen).
  exists pre, post. repeat split; try done.
  intros y (j & Hj)%list_elem_of_lookup.
  apply (Hleast j); [|apply lookup_lt_Some in Hj; lia].
  by apply lookup_app_l_Some.
Qed.

Lemma deleteScore_unfold now tournaments tid t u :
  tournaments !! tid = Some t →
  deleteScore now tournaments tid u =
  ((deleteScore_in now t u).1, <[tid := (deleteScore_in now t u).2]> tournaments).
Proof. intros H. unfold deleteScore. by rewrite H. Qed.

(** C10. Deletion matches on the player and the hole alone.  When the update
    names a roster player and a hole, the first stored entry of that player
    on that hole is removed, whatever its round and whatever the current
    round, and later entries of the same player and hole stay.  On every
    path, the entry that a successful deletion removes is the first one, in
    the ledger as the search left it, that has the player and the hole of
    the entry returned. *)
Theorem C10_delete_ignores_round now tournaments tid t u :
  tournaments !! tid = Some t →
  (∀ p h pre e1 post,
     u_player u ≠ EmptyString →
     find (name_matches (u_player u)) (players t) = Some p →
     nonzero (u_hole u) = Some h →
     scores t = pre ++ e1 :: post →
     playerId e1 = id p → hole e1 = h →
     (∀ s, s ∈ pre → ¬ (playerId s = id p ∧ hole s = h)) →
     deleteScore now tournaments tid u =
       (Some {| playerId := id p; hole := h; round := round e1;
                strokes := Num 0; par := par e1; timestamp := now |},
        <[tid := set_scores (pre ++ post) t]> tournaments)) ∧
  (∀ d tournaments',
     deleteScore now tournaments tid u = (Some d, tournaments') →
     ∃ ledger pre e1 post,
       (ledger = scores t ∨ ledger = Array_sort byTimestampDesc (scores t)) ∧
       ledger = pre ++ e1 :: post ∧
       playerId e1 = playerId d ∧ hole e1 = hole d ∧ round e1 = round d ∧
       (∀ s, s ∈ pre → ¬ (playerId s = playerId d ∧ hole s = hole d)) ∧
       tournaments' = <[tid := set_scores (pre ++ post) t]> tournaments).
Proof.
  intros Ht. rewrite (deleteScore_unfold _ _ _ _ _ Ht). split.
  - intros p h pre e1 post Hname Hfind Hhole Hsc Hp Hh Hpre.
    apply nonzero_Some in Hhole as Hh'. destruct Hh' as [_ Hh0].
    unfold deleteScore_in, resolve_target.
    rewrite decide_False, Hfind, Hhole by done.
    rewrite (nonzero_id _ Hh0), Hsc.
    rewrite (list_find_first _ pre post e1) by done.
    by rewrite delete_middle.
  - intros d tournaments'. unfold deleteScore_in.
    pose proof (resolve_target_ledger t u) as Hl.
    destruct (resolve_target t u) as [[player target] ledger]. simpl in Hl.
    destruct player as [p|]; [|done].
    destruct (nonzero target) as [h|]; [|done].
    destruct (list_find _ ledger) as [[i e1]|] eqn:Hfind; [|done].
    simpl. intros [= <- <-].
    apply list_find_split in Hfind as (pre & post & -> & <- & [Hp Hh] & Hpre).
    exists (pre ++ e1 :: post), pre, e1, post. simpl.
    rewrite delete_middle. repeat split; done.
Qed.

(** ** The individual leaderboard *)

Lemma foldl_jsadd_num {A} (f : A → number) (l : list A) (acc : number) :
  is_num acc → Forall (λ s, is_num (f s)) l →
  is_num (foldl (λ sum s, jsadd sum (f s)) acc l).
Proof.
  revert acc. induction l as [|x l IH]; intros acc Hacc Hall; simpl; [done|].
  apply Forall_cons in Hall as [Hx Hall]. apply IH; [|done].
  destruct acc, (f x); done.
Qed.

Lemma leaderboard_entry_num t r p :
  numeric_ledger (scores t) → is_num (currentScore (leaderboard_entry t r p)).
Proof.
  intros Hnum. unfold leaderboard_entry, scores_of. cbn [currentScore].
  set (ss := filter _ _).
  assert (numeric_ledger ss) as Hss.
  { unfold numeric_ledger, ss in *. rewrite Forall_forall in Hnum |- *.
    intros s [_ Hs]%list_elem_of_filter. by apply Hnum. }
  assert (is_num (foldl (λ sum s, jsadd sum (strokes s)) (Num 0) ss)) as H1.
  { apply foldl_jsadd_num; [done|]. eapply Forall_impl; [exact Hss|]. by intros ? []. }
  assert (is_num (foldl (λ sum s, jsadd sum (par s)) (Num 0) ss)) as H2.
  { apply foldl_jsadd_num; [done|]. eapply Forall_impl; [exact Hss|]. by intros ? []. }
  destruct (foldl _ _ _), (foldl _ _ _); done.
Qed.

Lemma leaderboard_compare_le a b :
  is_num (currentScore a) → is_num (currentScore b) →
  jsgt (leaderboard_compare a b) (Num 0) = false → ranks_before a b.
Proof.
  unfold leaderboard_compare, ranks_before, jsgt.
  destruct (currentScore a) as [x| | |], (currentScore b) as [y| | |]; try done.
  intros _ _. simpl. destruct (Z.eqb_spec x y); simpl; intros H%Z.ltb_ge;
    exists x, y; repeat split; lia.
Qed.

Lemma leaderboard_compare_gt a b :
  is_num (currentScore a) → is_num (currentScore b) →
  jsgt (leaderboard_compare a b) (Num 0) = true → ranks_before b a.
Proof.
  unfold leaderboard_compare, ranks_before, jsgt.
  destruct (currentScore a) as [x| | |], (currentScore b) as [y| | |]; try done.
  intros _ _. simpl. destruct (Z.eqb_spec x y); simpl; intros H%Z.ltb_lt;
    exists y, x; repeat split; lia.
Qed.

Lemma ranks_before_trans a b c :
  ranks_before a b → ranks_before b c → ranks_before a c.
Proof.
  intros (x & y & Ha & Hb & H1) (y' & z & Hb' & Hc & H2).
  rewrite Hb in Hb'. injection Hb' as <-.
  exists x, z. repeat split; try done. lia.
Qed.

Lemma strip_positions (l : list LeaderboardEntry) :
  Forall (λ e, position e = 0) l →
  set_position 0 <$> imap (λ i e, set_position (Z.of_nat i + 1) e) l = l.
Proof.
  intros Hpos. apply list_eq. intros i.
  rewrite list_lookup_fmap, list_lookup_imap.
  destruct (l !! i) as [e|] eqn:He; [|done]. simpl. f_equal.
  rewrite Forall_forall in Hpos.
  assert (position e = 0) as H0.
  { apply Hpos. apply list_elem_of_lookup. eauto. }
  destruct e. simpl in *. by subst.
Qed.

(** X25. The ranking of the leaderboard.  It has one entry per roster
    player, at positions 1, 2, ..., n in list order, ties included; when
    the strokes and pars of the ledger are all numbers, it is ordered by
    score against par ascending and, at equal score, holes completed
    descending; and it is a function of the roster, the ledger, the pars
    and the round counters alone, so that asking twice gives the same
    list. *)
Theorem leaderboard_ranking tournaments tid t r :
  tournaments !! tid = Some t →
  let lb := generateLeaderboard tournaments tid r in
  length lb = length (players t) ∧
  set_position 0 <$> lb ≡ₚ leaderboard_entry t r <$> players t ∧
  (∀ i e, lb !! i = Some e → position e = Z.of_nat i + 1) ∧
  (numeric_ledger (scores t) →
   ∀ i j a b, (i < j)%nat → lb !! i = Some a → lb !! j = Some b →
     ranks_before a b) ∧
  (∀ tournaments2 t2,
     tournaments2 !! tid = Some t2 →
     players t2 = players t → scores t2 = scores t → t_par t2 = t_par t →
     totalRounds t2 = totalRounds t → currentRound t2 = currentRound t →
     generateLeaderboard tournaments2 tid r = lb).
Proof.
  intros Ht lb. unfold lb, generateLeaderboard. rewrite Ht.
  unfold generateLeaderboard_in.
  split; [|split; [|split; [|split]]].
  - by rewrite length_imap, Array_sort_length, length_fmap.
  - rewrite strip_positions; [by rewrite Array_sort_Permutation|].
    rewrite Array_sort_Permutation. apply Forall_fmap. by apply Forall_true.
  - intros i e. rewrite list_lookup_imap.
    destruct (_ !! i) as [e0|]; [|done]. by intros [= <-].
  - intros Hnum i j a b Hij. rewrite !list_lookup_imap.
    destruct (_ !! i) as [a0|] eqn:Ha; [|done].
    destruct (_ !! j) as [b0|] eqn:Hb; [|done].
    intros [= <-] [= <-].
    assert (ranks_before a0 b0) as (x & y & ? & ? & ?).
    { eapply (StronglySorted_pointwise _ _ i j); [|done..].
      apply (Array_sort_sorted _ _ (λ e, is_num (currentScore e))).
      - intros ????. by apply leaderboard_compare_le.
      - intros ????. by apply leaderboard_compare_gt.
      - intros ??? _ _ _. apply ranks_before_trans.
      - apply Forall_fmap, Forall_true. intros p. by apply leaderboard_entry_num. }
    by exists x, y.
  - intros tournaments2 t2 Ht2 Hp Hs Hpar Htr Hcr. rewrite Ht2.
    unfold generateLeaderboard_in. rewrite Hp.
    do 2 f_equal. apply list_fmap_ext. intros _ p _.
    unfold leaderboard_entry, roundScores_of, scores_of.
    by rewrite Hs, Hpar, Htr, Hcr.
Qed.

(** ** Team sidegames: the extremes of a hole *)

#[local] Instance Num_inj : Inj (=) (=) Num.
Proof. by intros x y [= ->]. Qed.

Lemma Math_min_num (xs : list number) :
  Forall is_num xs → xs ≠ [] →
  ∃ m, Math_min xs = Num m ∧ Num m ∈ xs ∧ ∀ v, Num v ∈ xs → m ≤ v.
Proof.
  induction xs as [|x xs IH]; intros Hall Hne; [done|].
  apply Forall_cons in Hall as [Hx Hall].
  destruct x as [x| | |]; try done.
  destruct xs as [|y xs].
  - exists x. simpl. split; [done|]. split; [left|].
    intros v ->%list_elem_of_singleton%(inj Num). lia.
  - destruct (IH Hall) as (m & Hm & Hin & Hle); [done|].
    change (Math_min (Num x :: y :: xs)) with (jsmin (Num x) (Math_min (y :: xs))).
    rewrite Hm. simpl. destruct (Z.ltb_spec m x).
    + exists m. split; [done|]. split; [by right|].
      intros v [->%(inj Num)|Hv]%elem_of_cons; [lia|by apply Hle].
    + exists x. split; [done|]. split; [left|].
      intros v [->%(inj Num)|Hv]%elem_of_cons; [lia|].
      specialize (Hle v Hv). lia.
Qed.

Lemma Math_max_num (xs : list number) :
  Forall is_num xs → xs ≠ [] →
  ∃ m, Math_max xs = Num m ∧ Num m ∈ xs ∧ ∀ v, Num v ∈ xs → v ≤ m.
Proof.
  induction xs as [|x xs IH]; intros Hall Hne; [done|].
  apply Forall_cons in Hall as [Hx Hall].
  destruct x as [x| | |]; try done.
  destruct xs as [|y xs].
  - exists x. simpl. split; [done|]. split; [left|].
    intros v ->%list_elem_of_singleton%(inj Num). lia.
  - destruct (IH Hall) as (m & Hm & Hin & Hle); [done|].
    change (Math_max (Num x :: y :: xs)) with (jsmax (Num x) (Math_max (y :: xs))).
    rewrite Hm. simpl. destruct (Z.ltb_spec x m).
    + exists m. split; [done|]. split; [by right|].
      intros v [->%(inj Num)|Hv]%elem_of_cons; [lia|by apply Hle].
    + exists x. split; [done|]. split; [left|].
      intros v [->%(inj Num)|Hv]%elem_of_cons; [lia|].
      specialize (Hle v Hv). lia.
Qed.

Lemma foldl_insert_lookup {A} (g : A → string) (c : number)
    (l : list A) (obj : gmap string number) (k : string) :
  foldl (λ obj x, <[g x := c]> obj) obj l !! k =
  if decide (k ∈ g <$> l) then Some c else obj !! k.
Proof.
  revert obj. induction l as [|x l IH]; intros obj.
  - cbn [foldl]. destruct (decide (k ∈ g <$> [])) as [Hin|Hin]; [|done].
    by apply elem_of_nil in Hin.
  - cbn [foldl]. rewrite IH, fmap_cons.
    destruct (decide (k ∈ g <$> l)) as [Hin|Hin].
    + rewrite decide_True; [done|]. by right.
    + destruct (decide (k = g x)) as [->|Hne].
      * rewrite lookup_insert_eq, decide_True; [done|]. left.
      * rewrite lookup_insert_ne by done. rewrite decide_False; [done|].
        by intros [?|?]%elem_of_cons.
Qed.

Lemma zero_points_lookup (ts : list Team) (k : string) :
  zero_points ts !! k =
  if decide (k ∈ team_id <$> ts) then Some (Num 0) else None.
Proof. unfold zero_points. by rewrite foldl_insert_lookup, lookup_empty. Qed.

Lemma elem_of_values (d : gmap string number) (v : number) :
  v ∈ (map_to_list d).*2 ↔ ∃ k, d !! k = Some v.
Proof.
  rewrite list_elem_of_fmap. split.
  - intros ([k v'] & -> & Hin). exists k. by apply elem_of_map_to_list.
  - intros (k & Hk). exists (k, v). split; [done|]. by apply elem_of_map_to_list.
Qed.

Lemma elem_of_teams_at (e : number) (d : gmap string number) (k : string) :
  k ∈ teams_at e d ↔ ∃ v, d !! k = Some v ∧ jseq v e.
Proof.
  unfold teams_at. rewrite list_elem_of_fmap. split.
  - intros ([k' v] & -> & [Hv Hin]%list_elem_of_filter). exists v.
    split; [by apply elem_of_map_to_list|done].
  - intros (v & Hk & Hv). exists (k, v). split; [done|].
    apply list_elem_of_filter. split; [done|]. by apply elem_of_map_to_list.
Qed.

Lemma NoDup_teams_at (e : number) (d : gmap string number) :
  NoDup (teams_at e d).
Proof.
  unfold teams_at. eapply (sublist_NoDup _ (map_to_list d).*1).
  - apply NoDup_fst_map_to_list.
  - apply fmap_sublist, sublist_filter.
Qed.

Lemma jseq_Num (v : number) (m : Z) : jseq v (Num m) ↔ v = Num m.
Proof.
  destruct v as [x| | |]; simpl; try (split; [done|discriminate]).
  destruct (Z.eqb_spec x m) as [->|Hne]; simpl.
  - done.
  - split; [done|]. intros [= ?]. done.
Qed.

Lemma elem_of_teams_at_Num (m : Z) (d : gmap string number) (k : string) :
  k ∈ teams_at (Num m) d ↔ d !! k = Some (Num m).
Proof.
  rewrite elem_of_teams_at. split.
  - intros (v & Hk & ->%jseq_Num). done.
  - intros Hk. exists (Num m). split; [done|]. by apply jseq_Num.
Qed.

(** The extremes of an object of numbers that is not empty. *)
Lemma extremes (d : gmap string number) (k0 : string) (v0 : number) :
  numeric_object d → d !! k0 = Some v0 →
  ∃ m M, Math_min (map_to_list d).*2 = Num m ∧
         Math_max (map_to_list d).*2 = Num M ∧
         is_best d m ∧ is_worst d M ∧
         (∃ k, d !! k = Some (Num m)) ∧ (∃ k, d !! k = Some (Num M)).
Proof.
  intros Hnum Hk0.
  assert (Forall is_num (map_to_list d).*2) as Hall.
  { rewrite Forall_forall. intros v (k & Hk)%elem_of_values. by apply (Hnum k). }
  assert ((map_to_list d).*2 ≠ []) as Hne.
  { intros Hnil. assert (v0 ∈ (map_to_list d).*2) as Hin by (apply elem_of_values; eauto).
    rewrite Hnil in Hin. by apply elem_of_nil in Hin. }
  destruct (Math_min_num _ Hall Hne) as (m & Hm & Hmin & Hmle).
  destruct (Math_max_num _ Hall Hne) as (M & HM & HMin & HMle).
  exists m, M. repeat split; try done.
  - intros k v Hk. apply Hmle, elem_of_values. eauto.
  - intros k v Hk. apply HMle, elem_of_values. eauto.
  - by apply elem_of_values.
  - by apply elem_of_values.
Qed.

Lemma all_tied_iff (d : gmap string number) (m M : Z) :
  is_best d m → is_worst d M →
  (∃ k, d !! k = Some (Num m)) → (∃ k, d !! k = Some (Num M)) →
  all_tied d ↔ m = M.
Proof.
  intros Hb Hw (km & Hkm) (kM & HkM). split.
  - intros Ht. by apply (Ht km kM).
  - intros <- k1 k2 v1 v2 H1 H2.
    pose proof (Hb _ _ H1). pose proof (Hw _ _ H1).
    pose proof (Hb _ _ H2). pose proof (Hw _ _ H2). lia.
Qed.

(** The points of [calculateSumMatchPoints], from the totals. *)
Lemma award_all_lookup (ts : list Team) (d : gmap string number)
    (m M : Z) (k : string) (v : Z) :
  k ∈ team_id <$> ts →
  d !! k = Some (Num v) →
  (if negb (jseq (Num m) (Num M)) then
     foldl (λ obj teamId, <[teamId := Num (-1)]> obj)
       (foldl (λ obj teamId, <[teamId := Num 1]> obj) (zero_points ts)
          (teams_at (Num m) d))
       (teams_at (Num M) d)
   else zero_points ts) !! k =
  Some (Num (if decide (m = M) then 0
             else if decide (v = M) then -1
             else if decide (v = m) then 1 else 0)).
Proof.
  intros Hk Hv. simpl. destruct (Z.eqb_spec m M) as [->|Hne]; simpl.
  - rewrite decide_True by done. rewrite zero_points_lookup. by rewrite decide_True.
  - rewrite (decide_False (P := m = M)) by done.
    rewrite (foldl_insert_lookup (λ x, x)), list_fmap_id.
    rewrite (foldl_insert_lookup (λ x, x)), list_fmap_id.
    rewrite zero_points_lookup, (decide_True (P := k ∈ team_id <$> ts)) by done.
    destruct (decide (v = M)) as [->|HvM].
    + rewrite decide_True; [done|]. by apply elem_of_teams_at_Num.
    + rewrite decide_False.
      2:{ rewrite elem_of_teams_at_Num, Hv. by intros [= ->]. }
      destruct (decide (v = m)) as [->|Hvm].
      * rewrite decide_True; [done|]. by apply elem_of_teams_at_Num.
      * rewrite decide_False; [done|].
        rewrite elem_of_teams_at_Num, Hv. by intros [= ->].
Qed.

Lemma is_best_Forall (d : gmap string number) (v : Z) :
  map_Forall (λ _ x, at_least v x) d → is_best d v.
Proof. intros H k' v' Hk'. by apply (H k' (Num v')). Qed.

Lemma is_worst_Forall (d : gmap string number) (v : Z) :
  map_Forall (λ _ x, at_most v x) d → is_worst d v.
Proof. intros H k' v' Hk'. by apply (H k' (Num v')). Qed.

(** ** Team sidegames: the totals of a hole *)

Lemma getPlayerTeam_elem playerName team :
  getPlayerTeam playerName = Some team → team ∈ teams.
Proof.
  unfold getPlayerTeam, find.
  destruct (list_find _ teams) as [[i t]|] eqn:Hfind; [|done].
  intros [= <-]. apply list_find_Some in Hfind as (Hi & _).
  apply list_elem_of_lookup. eauto.
Qed.

Lemma totals_of_teams_numeric ts d : totals_of_teams ts d → numeric_object d.
Proof.
  intros Hd k v Hk. destruct (decide (k ∈ team_id <$> ts)) as [Hin|Hin].
  - destruct (proj1 (Hd k) Hin) as (x & Hx). rewrite Hx in Hk. by injection Hk as <-.
  - rewrite (proj2 (Hd k) Hin) in Hk. done.
Qed.

Lemma zero_points_totals ts : totals_of_teams ts (zero_points ts).
Proof.
  intros k. rewrite zero_points_lookup. split; intros Hk.
  - rewrite decide_True by done. eauto.
  - by rewrite decide_False.
Qed.

Lemma add_result_totals h obj playerName v :
  is_num v → totals_of_teams teams obj →
  totals_of_teams teams (add_result h obj playerName v).
Proof.
  intros Hv Hobj. unfold add_result.
  destruct (getPlayerTeam playerName) as [team|] eqn:Hteam; [|done].
  destruct (counts_on_hole team playerName h); [|done].
  apply getPlayerTeam_elem in Hteam.
  assert (team_id team ∈ team_id <$> teams) as Hid by (by apply list_elem_of_fmap_2).
  destruct (proj1 (Hobj (team_id team)) Hid) as (x & Hx).
  destruct v as [y| | |]; try done.
  intros k. unfold add_to. rewrite Hx. simpl.
  destruct (decide (k = team_id team)) as [->|Hne].
  - rewrite lookup_insert_eq. split; [eauto|done].
  - rewrite lookup_insert_ne by done. apply Hobj.
Qed.

Lemma sum_totals_ok holeResults h :
  numeric_object holeResults → totals_of_teams teams (sum_totals holeResults h).
Proof.
  intros Hnum. unfold sum_totals.
  assert (Forall (λ e, is_num e.2) (map_to_list holeResults)) as Hall.
  { rewrite Forall_forall. intros [k v] Hin%elem_of_map_to_list. by apply (Hnum k). }
  revert Hall. generalize (map_to_list holeResults).
  generalize (zero_points_totals teams). generalize (zero_points teams).
  intros obj Hobj l. revert obj Hobj.
  induction l as [|e l IH]; intros obj Hobj Hall; simpl; [done|].
  apply Forall_cons in Hall as [He Hall].
  apply IH; [|done]. by apply add_result_totals.
Qed.

Lemma hole_totals_ok t h :
  numeric_ledger (scores t) → totals_of_teams teams (hole_totals t h).
Proof.
  intros Hnum. unfold hole_totals.
  set (ss := filter _ _).
  assert (numeric_ledger ss) as Hss.
  { unfold numeric_ledger, ss in *. rewrite Forall_forall in Hnum |- *.
    intros s [_ Hs]%list_elem_of_filter. by apply Hnum. }
  clearbody ss. revert Hss.
  generalize (zero_points_totals teams). generalize (zero_points teams).
  intros obj Hobj. revert obj Hobj.
  induction ss as [|s ss IH]; intros obj Hobj Hall; simpl; [done|].
  apply Forall_cons in Hall as [[Hs Hp] Hall].
  apply IH; [|done].
  destruct (find _ _); [|done].
  apply add_result_totals; [|done].
  destruct (strokes s), (par s); done.
Qed.

(** ** Team sidegames: the sum-match award *)

Lemma NoDup_is_singleton {A} (l : list A) (x : A) :
  NoDup l → (∀ y, y ∈ l ↔ y = x) → l = [x].
Proof.
  intros Hnd Hl. destruct l as [|a l].
  - exfalso. by apply (elem_of_nil x), Hl.
  - assert (a = x) as -> by (apply Hl; left).
    destruct l as [|b l]; [done|].
    assert (b = x) as -> by (apply Hl; right; left).
    apply NoDup_cons in Hnd as [Hnd _]. exfalso. apply Hnd. left.
Qed.

Lemma sole_best_teams_at (d : gmap string number) (m : Z) (k : string) :
  is_best d m → (∃ k', d !! k' = Some (Num m)) →
  sole_best d k ↔ teams_at (Num m) d = [k].
Proof.
  intros Hb (k0 & Hk0). split.
  - intros (v & Hk & Hothers).
    assert (v = m) as ->.
    { destruct (decide (k0 = k)) as [->|Hne]; [congruence|].
      pose proof (Hothers _ _ Hne Hk0). pose proof (Hb _ _ Hk). lia. }
    apply NoDup_is_singleton; [apply NoDup_teams_at|].
    intros y. rewrite elem_of_teams_at_Num. split; [|by intros ->].
    intros Hy. destruct (decide (y = k)) as [|Hne]; [done|].
    pose proof (Hothers _ _ Hne Hy). lia.
  - intros Hw. assert (∀ y, d !! y = Some (Num m) ↔ y = k) as Hy.
    { intros y. rewrite <- elem_of_teams_at_Num, Hw. apply list_elem_of_singleton. }
    exists m. split; [by apply Hy|].
    intros k' v' Hne Hk'. pose proof (Hb _ _ Hk').
    destruct (decide (v' = m)) as [->|]; [|lia].
    exfalso. apply Hne. by apply Hy.
Qed.

Lemma sole_worst_teams_at (d : gmap string number) (M : Z) (k : string) :
  is_worst d M → (∃ k', d !! k' = Some (Num M)) →
  sole_worst d k ↔ teams_at (Num M) d = [k].
Proof.
  intros Hb (k0 & Hk0). split.
  - intros (v & Hk & Hothers).
    assert (v = M) as ->.
    { destruct (decide (k0 = k)) as [->|Hne]; [congruence|].
      pose proof (Hothers _ _ Hne Hk0). pose proof (Hb _ _ Hk). lia. }
    apply NoDup_is_singleton; [apply NoDup_teams_at|].
    intros y. rewrite elem_of_teams_at_Num. split; [|by intros ->].
    intros Hy. destruct (decide (y = k)) as [|Hne]; [done|].
    pose proof (Hothers _ _ Hne Hy). lia.
  - intros Hw. assert (∀ y, d !! y = Some (Num M) ↔ y = k) as Hy.
    { intros y. rewrite <- elem_of_teams_at_Num, Hw. apply list_elem_of_singleton. }
    exists M. split; [by apply Hy|].
    intros k' v' Hne Hk'. pose proof (Hb _ _ Hk').
    destruct (decide (v' = M)) as [->|]; [|lia].
    exfalso. apply Hne. by apply Hy.
Qed.

(** The step [if (xs.length === 1) obj[xs[0]] += c]. *)
Lemma sole_award_lookup (obj : gmap string number) (xs : list string)
    (c : number) (k : string) :
  match xs with [x] => add_to obj x c | _ => obj end !! k =
  if decide (xs = [k]) then Some (jsadd (default NaN (obj !! k)) c)
  else obj !! k.
Proof.
  destruct xs as [|x [|y xs]].
  - by rewrite decide_False.
  - unfold add_to. destruct (decide (x = k)) as [->|Hne].
    + by rewrite decide_True, lookup_insert_eq.
    + rewrite decide_False by congruence. by rewrite lookup_insert_ne.
  - by rewrite decide_False.
Qed.

Lemma award_hole_lookup t tp h k :
  numeric_ledger (scores t) →
  let d := hole_totals t h in
  (¬ all_tied d → sole_best d k →
     award_hole t tp h !! k = Some (jsadd (default NaN (tp !! k)) (Num 1))) ∧
  (¬ all_tied d → sole_worst d k →
     award_hole t tp h !! k = Some (jsadd (default NaN (tp !! k)) (Num (-1)))) ∧
  (all_tied d ∨ (¬ sole_best d k ∧ ¬ sole_worst d k) →
     award_hole t tp h !! k = tp !! k).
Proof.
  intros Hnum d. pose proof (hole_totals_ok t h Hnum) as Hd. fold d in Hd.
  unfold award_hole. fold d.
  destruct (map_to_list d) as [|[k0 v0] l0] eqn:Hlist.
  { (* no team at all *)
    apply map_to_list_empty_iff in Hlist.
    assert (teams_at PosInf d = []) as Hnil.
    { unfold teams_at. by rewrite Hlist, map_to_list_empty. }
    assert (teams_at NegInf d = []) as Hnil'.
    { unfold teams_at. by rewrite Hlist, map_to_list_empty. }
    simpl. rewrite Hnil, Hnil'.
    split; [|split; [|done]].
    - intros _ (v & Hv & _). by rewrite Hlist, lookup_empty in Hv.
    - intros _ (v & Hv & _). by rewrite Hlist, lookup_empty in Hv. }
  rewrite <- Hlist.
  assert (d !! k0 = Some v0) as Hk0.
  { apply elem_of_map_to_list. rewrite Hlist. left. }
  destruct (extremes d k0 v0 (totals_of_teams_numeric _ _ Hd) Hk0)
    as (m & M & -> & -> & Hb & Hw & Hm & HM).
  pose proof (all_tied_iff d m M Hb Hw Hm HM) as Htied.
  pose proof (sole_best_teams_at d m k Hb Hm) as Hsb.
  pose proof (sole_worst_teams_at d M k Hw HM) as Hsw.
  simpl. destruct (Z.eqb_spec m M) as [Heq|Hne]; simpl.
  - split; [|split; [|done]]; intros Hnt; exfalso; by apply Hnt, Htied.
  - rewrite !sole_award_lookup.
    assert (teams_at (Num m) d = [k] → teams_at (Num M) d = [k] → False) as Hboth.
    { intros H1 H2.
      assert (d !! k = Some (Num m)) as E1
        by (apply elem_of_teams_at_Num; rewrite H1; left).
      assert (d !! k = Some (Num M)) as E2
        by (apply elem_of_teams_at_Num; rewrite H2; left).
      congruence. }
    split; [|split].
    + intros _ Hs%Hsb. rewrite (decide_True (P := teams_at (Num m) d = [k])) by done.
      rewrite decide_False; [done|]. intros H2. by apply Hboth.
    + intros _ Hs%Hsw. rewrite (decide_True (P := teams_at (Num M) d = [k])) by done.
      rewrite decide_False; [done|]. intros H1. by apply Hboth.
    + intros [Ht|[Hn1 Hn2]]; [by apply Htied in Ht|].
      rewrite !decide_False; [done| |]; intros H'.
      * by apply Hn1, Hsb.
      * by apply Hn2, Hsw.
Qed.

Lemma calculateSumMatchPoints_lookup holeResults h k v :
  numeric_object holeResults →
  let d := sum_totals holeResults h in
  d !! k = Some (Num v) →
  ∃ m M, is_best d m ∧ is_worst d M ∧
    (∃ k', d !! k' = Some (Num m)) ∧ (∃ k', d !! k' = Some (Num M)) ∧
    calculateSumMatchPoints holeResults h !! k =
    Some (Num (if decide (m = M) then 0
               else if decide (v = M) then -1
               else if decide (v = m) then 1 else 0)).
Proof.
  intros Hnum d Hk. pose proof (sum_totals_ok holeResults h Hnum) as Hd. fold d in Hd.
  destruct (extremes d k _ (totals_of_teams_numeric _ _ Hd) Hk)
    as (m & M & Hmin & Hmax & Hb & Hw & Hm & HM).
  exists m, M. repeat split; try done.
  unfold calculateSumMatchPoints. fold d. cbv zeta. rewrite Hmin, Hmax.
  apply award_all_lookup; [|done].
  destruct (decide (k ∈ team_id <$> teams)) as [|Hout]; [done|].
  rewrite (proj2 (Hd k) Hout) in Hk. done.
Qed.

(** C1, as the code has it.  In the per-hole match computation
    ([calculateSumMatchPoints], whose result [processHoleMatch] stores for a
    sum-match sidegame), with numbers as results: every configured team has a
    total; when all totals are equal every team gets 0; otherwise every team
    at the lowest total gets +1, every team at the highest gets -1, and the
    teams in between get 0.  In the per-hole award of the team-leaderboard
    recompute, on a ledger of numbers: when the totals are not all equal, a
    team that alone has the lowest total gains 1 and a team that alone has
    the highest loses 1; every other team, and every team when all totals
    are equal, keeps its points, so teams tied at an extreme get nothing. *)
Theorem C1_sum_match_award (holeResults : gmap string number) (h : Z)
    (t : Tournament) (points : gmap string number) :
  (numeric_object holeResults →
   let d := sum_totals holeResults h in
   let pts := calculateSumMatchPoints holeResults h in
   totals_of_teams teams d ∧
   ∀ k v, d !! k = Some (Num v) →
     (all_tied d → pts !! k = Some (Num 0)) ∧
     (¬ all_tied d → is_best d v → pts !! k = Some (Num 1)) ∧
     (¬ all_tied d → is_worst d v → pts !! k = Some (Num (-1))) ∧
     (¬ is_best d v → ¬ is_worst d v → pts !! k = Some (Num 0))) ∧
  (∀ uuid now sidegames sid sg,
     sidegames !! sid = Some sg → gameType sg = sum_match →
     ∃ mt sidegames',
       processHoleMatch uuid now sidegames sid h holeResults
         = (Some mt, sidegames') ∧
       teamPoints mt = calculateSumMatchPoints holeResults h) ∧
  (numeric_ledger (scores t) →
   let d := hole_totals t h in
   totals_of_teams teams d ∧
   ∀ k,
     (¬ all_tied d → sole_best d k →
        award_hole t points h !! k
          = Some (jsadd (default NaN (points !! k)) (Num 1))) ∧
     (¬ all_tied d → sole_worst d k →
        award_hole t points h !! k
          = Some (jsadd (default NaN (points !! k)) (Num (-1)))) ∧
     (all_tied d ∨ (¬ sole_best d k ∧ ¬ sole_worst d k) →
        award_hole t points h !! k = points !! k)).
Proof.
  split; [|split].
  - intros Hnum d pts. split; [by apply sum_totals_ok|].
    intros k v Hk.
    destruct (calculateSumMatchPoints_lookup holeResults h k v Hnum Hk)
      as (m & M & Hb & Hw & Hm & HM & Hpts).
    fold d in Hb, Hw, Hm, HM. fold pts in Hpts.
    pose proof (all_tied_iff d m M Hb Hw Hm HM) as Htied.
    assert (is_best d v ↔ v = m) as Hbest.
    { split; [|by intros ->]. intros Hv. destruct Hm as (k' & Hk').
      pose proof (Hv _ _ Hk'). pose proof (Hb _ _ Hk). lia. }
    assert (is_worst d v ↔ v = M) as Hworst.
    { split; [|by intros ->]. intros Hv. destruct HM as (k' & Hk').
      pose proof (Hv _ _ Hk'). pose proof (Hw _ _ Hk). lia. }
    pose proof (Hb _ _ Hk). pose proof (Hw _ _ Hk).
    rewrite Hpts. repeat split.
    + intros Ht%Htied. by rewrite decide_True.
    + intros Hnt ->%Hbest. rewrite decide_False by (intros E; by apply Hnt, Htied).
      rewrite decide_False by (intros E; by apply Hnt, Htied).
      by rewrite decide_True.
    + intros Hnt ->%Hworst. rewrite decide_False by (intros E; by apply Hnt, Htied).
      by rewrite decide_True.
    + intros Hnb Hnw. destruct (decide (m = M)); [done|].
      rewrite decide_False by (intros E; by apply Hnw, Hworst).
      by rewrite decide_False by (intros E; by apply Hnb, Hbest).
  - intros uuid now sidegames sid sg Hsg Hgt. unfold processHoleMatch.
    rewrite Hsg, Hgt. eauto.
  - intros Hnum d. split; [by apply hole_totals_ok|].
    intros k. by apply award_hole_lookup.
Qed.

(** ** Team sidegames: all-vs-all *)

Lemma sum_Z_cons x l : sum_Z (x :: l) = x + sum_Z l.
Proof. done. Qed.

Lemma each_pair_pairs_of {A S} (f : S → A → A → S) (s : S) (l : list A) :
  each_pair f s l = foldl (λ s pr, f s pr.1 pr.2) s (pairs_of l).
Proof.
  revert s. induction l as [|x l IH]; intros s; simpl; [done|].
  rewrite foldl_app, IH. f_equal.
  generalize s. clear. induction l as [|y l IH]; intros s; simpl; [done|].
  by rewrite IH.
Qed.

Lemma compare_pair_lookup holeResults obj player1 player2 :
  totals_of_teams teams obj →
  totals_of_teams teams (compare_pair holeResults obj player1 player2) ∧
  ∀ k n, obj !! k = Some (Num n) →
    compare_pair holeResults obj player1 player2 !! k =
    Some (Num (n + pair_points holeResults k player1 player2)).
Proof.
  intros Hobj. unfold compare_pair, pair_points.
  assert (∀ team, team ∈ teams →
            totals_of_teams teams (add_to obj (team_id team) (Num 1)) ∧
            ∀ k n, obj !! k = Some (Num n) →
              add_to obj (team_id team) (Num 1) !! k =
              Some (Num (n + if decide (team_id team = k) then 1 else 0))) as Hadd.
  { intros team Hteam.
    assert (team_id team ∈ team_id <$> teams) as Hid by (by apply list_elem_of_fmap_2).
    destruct (proj1 (Hobj (team_id team)) Hid) as (x & Hx).
    unfold add_to. rewrite Hx. simpl. split.
    - intros k. destruct (decide (k = team_id team)) as [->|Hne].
      + rewrite lookup_insert_eq. split; [eauto|done].
      + rewrite lookup_insert_ne by done. apply Hobj.
    - intros k n Hk. destruct (decide (team_id team = k)) as [<-|Hne].
      + rewrite lookup_insert_eq. rewrite Hx in Hk. by injection Hk as ->.
      + rewrite lookup_insert_ne by done. rewrite Hk. do 2 f_equal. lia. }
  assert (∀ k n, obj !! k = Some (Num n) → obj !! k = Some (Num (n + 0))) as Hsame.
  { intros k n ->. do 2 f_equal. lia. }
  destruct (getPlayerTeam player1) as [team1|] eqn:H1; [|by split].
  destruct (getPlayerTeam player2) as [team2|] eqn:H2; [|by split].
  apply getPlayerTeam_elem in H1, H2.
  destruct (decide (team_id team1 = team_id team2)) as [Heq|Hne].
  - rewrite bool_decide_eq_false_2 by (intros E; by apply E). by split.
  - rewrite bool_decide_eq_true_2 by done. cbv zeta.
    destruct (jsgt _ _); [by apply Hadd|].
    destruct (jsgt _ _); [by apply Hadd|]. by split.
Qed.

Lemma foldl_compare_pair_lookup holeResults (prs : list (string * string)) obj :
  totals_of_teams teams obj →
  totals_of_teams teams
    (foldl (λ s pr, compare_pair holeResults s pr.1 pr.2) obj prs) ∧
  ∀ k n, obj !! k = Some (Num n) →
    foldl (λ s pr, compare_pair holeResults s pr.1 pr.2) obj prs !! k =
    Some (Num (n + sum_Z ((λ pr, pair_points holeResults k pr.1 pr.2) <$> prs))).
Proof.
  revert obj. induction prs as [|pr prs IH]; intros obj Hobj; cbn [foldl].
  - split; [done|]. intros k n ->. do 2 f_equal. unfold sum_Z. simpl. lia.
  - destruct (compare_pair_lookup holeResults obj pr.1 pr.2 Hobj) as [Hobj' Hlk].
    destruct (IH _ Hobj') as [Hobj'' Hlk'].
    split; [done|]. intros k n Hk.
    rewrite (Hlk' k _ (Hlk k n Hk)). rewrite fmap_cons, sum_Z_cons. do 2 f_equal. lia.
Qed.

Lemma pair_points_range holeResults k player1 player2 :
  0 ≤ pair_points holeResults k player1 player2 ≤ 1.
Proof. unfold pair_points. repeat case_match; lia. Qed.

(** C6. The points [calculateAllVsAllPoints] gives a configured team are
    the sum, over the groups and over the pairs of positions [i < j] among a
    group's players who have a result, of what the pair is worth to the
    team; and a pair is worth one point to the team of the player with the
    strictly higher result when the two are of different teams, nothing to
    the other team, nothing to anybody when they tie or are of one team,
    and never a negative amount. *)
Theorem C6_all_vs_all (holeResults : gmap string number)
    (groupings : list (list string)) :
  (∀ k, k ∈ team_id <$> teams →
     calculateAllVsAllPoints holeResults groupings !! k =
     Some (Num (all_vs_all_reference holeResults groupings k))) ∧
  (∀ k, k ∉ team_id <$> teams →
     calculateAllVsAllPoints holeResults groupings !! k = None) ∧
  (∀ k player1 player2, 0 ≤ pair_points holeResults k player1 player2 ≤ 1) ∧
  (∀ player1 player2 team1 team2,
     getPlayerTeam player1 = Some team1 →
     getPlayerTeam player2 = Some team2 →
     (team_id team1 = team_id team2 →
        ∀ k, pair_points holeResults k player1 player2 = 0) ∧
     (team_id team1 ≠ team_id team2 →
        (jsgt (or_zero (holeResults !! player1)) (or_zero (holeResults !! player2)) →
           pair_points holeResults (team_id team1) player1 player2 = 1 ∧
           ∀ k, k ≠ team_id team1 → pair_points holeResults k player1 player2 = 0) ∧
        (jsgt (or_zero (holeResults !! player2)) (or_zero (holeResults !! player1)) →
           pair_points holeResults (team_id team2) player1 player2 = 1 ∧
           ∀ k, k ≠ team_id team2 → pair_points holeResults k player1 player2 = 0) ∧
        (¬ jsgt (or_zero (holeResults !! player1)) (or_zero (holeResults !! player2)) →
         ¬ jsgt (or_zero (holeResults !! player2)) (or_zero (holeResults !! player1)) →
           ∀ k, pair_points holeResults k player1 player2 = 0))).
Proof.
  assert (∀ gs obj,
            totals_of_teams teams obj →
            totals_of_teams teams
              (foldl (λ teamPoints group,
                        each_pair (compare_pair holeResults) teamPoints
                          (filter (λ playerName, is_Some (holeResults !! playerName)) group))
                     obj gs) ∧
            ∀ k n, obj !! k = Some (Num n) →
              foldl (λ teamPoints group,
                       each_pair (compare_pair holeResults) teamPoints
                         (filter (λ playerName, is_Some (holeResults !! playerName)) group))
                    obj gs !! k =
              Some (Num (n + all_vs_all_reference holeResults gs k))) as Hfold.
  { induction gs as [|g gs IH]; intros obj Hobj; cbn [foldl].
    - split; [done|]. intros k n ->. unfold all_vs_all_reference, sum_Z. simpl.
      do 2 f_equal. lia.
    - rewrite each_pair_pairs_of.
      destruct (foldl_compare_pair_lookup holeResults
                  (pairs_of (filter (λ playerName, is_Some (holeResults !! playerName)) g))
                  obj Hobj) as [Hobj' Hlk].
      destruct (IH _ Hobj') as [Hobj'' Hlk'].
      split; [done|]. intros k n Hk. rewrite (Hlk' k _ (Hlk k n Hk)).
      unfold all_vs_all_reference. rewrite fmap_cons, sum_Z_cons.
      do 2 f_equal. lia. }
  destruct (Hfold groupings _ (zero_points_totals teams)) as [Htot Hlk].
  split; [|split; [|split]].
  - intros k Hk. unfold calculateAllVsAllPoints. rewrite (Hlk k 0).
    + do 2 f_equal.
    + rewrite zero_points_lookup. by rewrite decide_True.
  - intros k Hk. by apply (Htot k).
  - intros. apply pair_points_range.
  - intros player1 player2 team1 team2 H1 H2. unfold pair_points.
    rewrite H1, H2. cbv zeta.
    destruct (decide (team_id team1 = team_id team2)) as [Heq|Hne];
      (split; [done|]); [done|].
    intros _.
    destruct (jsgt (or_zero (holeResults !! player1)) _) eqn:Hgt1;
      [|destruct (jsgt (or_zero (holeResults !! player2)) _) eqn:Hgt2].
    + split; [|split].
      * intros _. split; [by rewrite decide_True|].
        intros k Hk. by rewrite decide_False.
      * intros Hgt2. exfalso. revert Hgt1 Hgt2. unfold jsgt.
        destruct (or_zero (holeResults !! player1)), (or_zero (holeResults !! player2));
          simpl; try done.
        intros Ha%Z.ltb_lt Hb%Is_true_true%Z.ltb_lt. lia.
      * intros Hn. by exfalso; apply Hn.
    + split; [done|split].
      * intros _. split; [by rewrite decide_True|].
        intros k Hk. by rewrite decide_False.
      * intros _ Hn. by exfalso; apply Hn.
    + split; [done|split; done].
Qed.

(** ** The team leaderboard *)

Lemma add_to_keeps_numbers (S : list string) (obj : gmap string number)
    (w : string) (c : Z) :
  (∀ k, k ∈ S → ∃ n, obj !! k = Some (Num n)) →
  ∀ k, k ∈ S → ∃ n, add_to obj w (Num c) !! k = Some (Num n).
Proof.
  intros Hobj k Hk. destruct (Hobj k Hk) as (n & Hn). unfold add_to.
  destruct (decide (w = k)) as [->|Hne].
  - rewrite lookup_insert_eq, Hn. simpl. eauto.
  - rewrite lookup_insert_ne by done. eauto.
Qed.

Lemma award_hole_keeps_numbers (S : list string) t (obj : gmap string number) h :
  (∀ k, k ∈ S → ∃ n, obj !! k = Some (Num n)) →
  ∀ k, k ∈ S → ∃ n, award_hole t obj h !! k = Some (Num n).
Proof.
  intros Hobj. unfold award_hole. cbv zeta.
  destruct (negb _); [|done].
  destruct (teams_at (Math_min _) _) as [|w [|? ?]];
    destruct (teams_at (Math_max _) _) as [|w' [|? ?]];
    repeat apply add_to_keeps_numbers; done.
Qed.

Lemma team_points_numbers t (ts : list Team) (hs : list Z) :
  ∀ k, k ∈ team_id <$> ts →
    ∃ n, foldl (award_hole t) (zero_points ts) hs !! k = Some (Num n).
Proof.
  assert (∀ k, k ∈ team_id <$> ts → ∃ n, zero_points ts !! k = Some (Num n)) as H0.
  { intros k Hk. rewrite zero_points_lookup, decide_True by done. eauto. }
  revert H0. generalize (zero_points ts). intros obj Hobj. revert obj Hobj.
  induction hs as [|h hs IH]; intros obj Hobj; simpl; [done|].
  apply IH. by apply award_hole_keeps_numbers.
Qed.

Lemma or_zero_Num n : or_zero (Some (Num n)) = Num n.
Proof. simpl. destruct (Z.eqb_spec n 0) as [->|]; done. Qed.

Lemma team_compare_le a b :
  consistent_collation →
  is_num (totalPoints a) → is_num (totalPoints b) →
  jsgt (team_compare a b) (Num 0) = false → team_ranks_before a b.
Proof.
  intros _. unfold team_compare, team_ranks_before, jsgt.
  destruct (totalPoints a) as [x| | |], (totalPoints b) as [y| | |]; try done.
  intros _ _. simpl. destruct (Z.eqb_spec y x); simpl; intros H%Z.ltb_ge;
    exists x, y; repeat split; lia.
Qed.

Lemma team_compare_gt a b :
  consistent_collation →
  is_num (totalPoints a) → is_num (totalPoints b) →
  jsgt (team_compare a b) (Num 0) = true → team_ranks_before b a.
Proof.
  intros [Hanti _]. unfold team_compare, team_ranks_before, jsgt.
  destruct (totalPoints a) as [x| | |], (totalPoints b) as [y| | |]; try done.
  intros _ _. simpl. destruct (Z.eqb_spec y x); simpl; intros H%Z.ltb_lt;
    exists y, x; repeat split; try lia.
  right. split; [done|]. by apply Hanti.
Qed.

Lemma team_ranks_before_trans a b c :
  consistent_collation →
  team_ranks_before a b → team_ranks_before b c → team_ranks_before a c.
Proof.
  intros [_ Htrans] (x & y & Ha & Hb & H1) (y' & z & Hb' & Hc & H2).
  rewrite Hb in Hb'. injection Hb' as <-.
  exists x, z. repeat split; try done.
  destruct H1 as [|[-> H1]], H2 as [|[-> H2]]; try (left; lia).
  right. split; [done|]. by apply (Htrans _ (teamName b)).
Qed.

(** C8, as the code has it.  For a sidegame of type all-vs-all, and when no
    active tournament is stored, [generateTeamLeaderboard] returns the empty
    list.  For a sum-match sidegame with an active tournament it returns one
    entry per team of the sidegame's roster, with positions 1, 2, ..., n in
    list order, ordered (for a consistent collation of names) by total
    points descending and, at equal points, by team name ascending. *)
Theorem C8_team_leaderboard activeTournament sidegames sid sg :
  sidegames !! sid = Some sg →
  let lb := generateTeamLeaderboard activeTournament sidegames sid in
  (gameType sg = all_vs_all → lb = []) ∧
  (activeTournament = None → lb = []) ∧
  (gameType sg = sum_match → is_Some activeTournament →
     length lb = length (sg_teams sg) ∧
     (λ e, (teamId e, teamName e, teamColor e)) <$> lb ≡ₚ
       (λ team, (team_id team, team_name team, team_color team)) <$> sg_teams sg ∧
     (∀ i e, lb !! i = Some e → tl_position e = Z.of_nat i + 1) ∧
     (consistent_collation →
      ∀ i j a b, (i < j)%nat → lb !! i = Some a → lb !! j = Some b →
        team_ranks_before a b)).
Proof.
  intros Hsg lb. unfold lb, generateTeamLeaderboard. rewrite Hsg.
  split; [|split].
  - intros ->. done.
  - intros ->. by destruct (decide _).
  - intros Hgt [t ->]. rewrite decide_False by (intros E; by apply E).
    set (hs := holes_set _).
    set (mk := λ team : Team, _).
    split; [|split; [|split]].
    + by rewrite length_imap, Array_sort_length, length_fmap.
    + assert (∀ l : list TeamLeaderboardEntry,
                (λ e, (teamId e, teamName e, teamColor e)) <$>
                  imap (λ index entry, set_tl_position (Z.of_nat index + 1) entry) l
                = (λ e, (teamId e, teamName e, teamColor e)) <$> l) as ->.
      { intros l. apply list_eq. intros i.
        rewrite !list_lookup_fmap, list_lookup_imap.
        by destruct (l !! i). }
      rewrite Array_sort_Permutation, <- list_fmap_compose. done.
    + intros i e. rewrite list_lookup_imap.
      destruct (_ !! i) as [e0|]; [|done]. by intros [= <-].
    + intros Hcoll i j a b Hij. rewrite !list_lookup_imap.
      destruct (_ !! i) as [a0|] eqn:Ha; [|done].
      destruct (_ !! j) as [b0|] eqn:Hb; [|done].
      intros [= <-] [= <-].
      assert (team_ranks_before a0 b0) as (x & y & ? & ? & ?).
      { eapply (StronglySorted_pointwise _ _ i j); [|done..].
        apply (Array_sort_sorted _ _ (λ e, is_num (totalPoints e))).
        - intros ????. by apply team_compare_le.
        - intros ????. by apply team_compare_gt.
        - intros ??? _ _ _. by apply team_ranks_before_trans.
        - apply Forall_fmap, Forall_forall. intros team Hteam. unfold mk. simpl.
          destruct (team_points_numbers t (sg_teams sg) hs (team_id team)) as (n & ->).
          + by apply list_elem_of_fmap_2.
          + by rewrite or_zero_Num. }
      by exists x, y.
Qed.

(** * Further properties *)

(** ** What an update does, case by case *)

Lemma record_inv uuid now t u r t' :
  u_action u ≠ delete_ →
  processScoringUpdate_in uuid now t u = (r, t') →
  (locate_player uuid t u = None ∧ r = None ∧ t' = t) ∨
  ∃ i player roster,
    locate_player uuid t u = Some (i, player, roster) ∧
    let h := default (currentHole player) (nonzero (u_hole u)) in
    let par_ := match array_get (t_par t) (h - 1) with
                | Some p => Num p
                | None => NaN
                end in
    let strokes_ := match nonzero (u_strokes u) with
                    | Some s => Some (Num s)
                    | None => strokes_of_action (u_action u) par_
                    end in
    (strokes_ = None ∧ r = None ∧ t' = set_players roster t) ∨
    ∃ st, strokes_ = Some st ∧
      let e := {| playerId := id player; hole := h; round := currentRound t;
                  strokes := st; par := par_; timestamp := now |} in
      r = Some e ∧
      t' = set_scores (upsert e (scores t))
             (set_players
                (if decide (h = currentHole player ∧ h < 18)
                 then <[i := set_currentHole (h + 1) player]> roster
                 else roster) t).
Proof.
  intros Hact. unfold processScoringUpdate_in.
  destruct (decide _) as [|_]; [done|].
  destruct (locate_player _ _ _) as [[[i player] roster]|] eqn:Hloc.
  - cbv zeta. intros H. right. exists i, player, roster. split; [done|].
    cbv zeta.
    destruct (match nonzero (u_strokes u) with Some _ => _ | None => _ end) as [st|].
    + right. exists st. split; [done|]. by injection H as <- <-.
    + left. by injection H as <- <-.
  - intros [= <- <-]. by left.
Qed.

(** ** Invariants of the tournaments *)

Lemma set_scores_same t : set_scores (scores t) t = t.
Proof. by destruct t. Qed.

Lemma upsert_elem (e x : ScoreEntry) (ledger : list ScoreEntry) :
  x ∈ upsert e ledger → x = e ∨ x ∈ ledger.
Proof.
  unfold upsert. destruct (list_find _ ledger) as [[i old]|].
  - intros (j & Hj)%list_elem_of_lookup.
    destruct (decide (i = j)) as [->|Hne].
    + apply lookup_lt_Some in Hj as Hlt. rewrite length_insert in Hlt.
      rewrite list_lookup_insert_eq in Hj by done. left. by injection Hj.
    + rewrite list_lookup_insert_ne in Hj by done. right.
      apply list_elem_of_lookup. eauto.
  - intros [?|Hx%list_elem_of_singleton]%elem_of_app; auto.
Qed.

(** The roster after an update: the ids of before are still there. *)
Lemma record_roster uuid t u i player roster :
  locate_player uuid t u = Some (i, player, roster) →
  roster !! i = Some player ∧
  (∀ k, k ∈ id <$> players t → k ∈ id <$> roster) ∧
  (pointers_in_bounds t → Forall (λ p, 1 ≤ currentHole p ≤ 18) roster).
Proof.
  intros Hloc. destruct (locate_player_spec _ _ _ _ _ _ Hloc) as [Hi Hcase].
  split; [done|].
  destruct Hcase as [[-> _] | (-> & _ & -> & _)]; [by split|]. split.
  - intros k Hk. rewrite fmap_app. apply elem_of_app. by left.
  - intros Hb. apply Forall_app. split; [done|]. repeat constructor; simpl; lia.
Qed.

Lemma delete_ledger_elem now t u x :
  x ∈ scores (deleteScore_in now t u).2 → x ∈ scores t.
Proof.
  unfold deleteScore_in.
  pose proof (resolve_target_ledger t u) as Hl.
  destruct (resolve_target t u) as [[player target] ledger]. simpl in Hl.
  assert (x ∈ ledger → x ∈ scores t) as Hin.
  { destruct Hl as [-> | ->]; [done|]. by rewrite Array_sort_Permutation. }
  repeat case_match; simpl; try done.
  intros Hx. apply Hin. by eapply list_elem_of_delete_inv.
Qed.

Lemma process_round_in_bounds uuid now t u :
  round_in_bounds t → round_in_bounds (processScoringUpdate_in uuid now t u).2.
Proof.
  unfold round_in_bounds, is_round. intros Hb.
  destruct (decide (u_action u = delete_)) as [Hd|Hd].
  - unfold processScoringUpdate_in. rewrite decide_True by done.
    destruct (deleteScore_in_frame now t u) as (_&_&_&_&_&_&_&_&->&->). done.
  - destruct (record_players uuid now t u Hd) as [(_&_&_&_&_&_&_&->&->) _]. done.
Qed.

Lemma process_pointers_in_bounds uuid now t u :
  pointers_in_bounds t →
  pointers_in_bounds (processScoringUpdate_in uuid now t u).2.
Proof.
  intros Hb. unfold pointers_in_bounds.
  destruct (decide (u_action u = delete_)) as [Hd|Hd].
  { unfold processScoringUpdate_in. rewrite decide_True by done.
    by destruct (deleteScore_in_frame now t u) as (-> & _). }
  destruct (processScoringUpdate_in uuid now t u) as [r t'] eqn:Hp.
  destruct (record_inv _ _ _ _ _ _ Hd Hp)
    as [(_ & _ & ->) | (i & player & roster & Hloc & Hcase)]; [done|].
  destruct (record_roster _ _ _ _ _ _ Hloc) as (Hi & _ & Hroster).
  specialize (Hroster Hb). cbv zeta in Hcase.
  destruct Hcase as [(_ & _ & ->) | (st & _ & _ & ->)]; simpl; [done|].
  destruct (decide _) as [[Heq Hlt]|]; [|done].
  apply Forall_insert; [done|]. simpl.
  rewrite Forall_forall in Hroster.
  assert (1 ≤ currentHole player ≤ 18) as Hp'.
  { apply Hroster. apply list_elem_of_lookup. eauto. }
  lia.
Qed.

Lemma process_ledger_sound uuid now t u :
  round_in_bounds t → ledger_sound t →
  ledger_sound (processScoringUpdate_in uuid now t u).2.
Proof.
  intros Hrb [Hall Hnd]. split.
  2:{ apply processScoringUpdate_in_unique; [|done].
      destruct Hrb as (c & -> & _). done. }
  unfold is_round in *.
  rewrite Forall_forall in Hall. apply Forall_forall. intros x.
  destruct (decide (u_action u = delete_)) as [Hd|Hd].
  { unfold processScoringUpdate_in. rewrite decide_True by done.
    intros Hx%delete_ledger_elem.
    destruct (deleteScore_in_frame now t u) as (-> &_&_&_&_&_&_&_&->&_).
    by apply Hall. }
  destruct (processScoringUpdate_in uuid now t u) as [r t'] eqn:Hp.
  destruct (record_inv _ _ _ _ _ _ Hd Hp)
    as [(_ & _ & ->) | (i & player & roster & Hloc & Hcase)]; [by apply Hall|].
  destruct (record_roster _ _ _ _ _ _ Hloc) as (Hi & Hids & _).
  cbv zeta in Hcase.
  destruct Hcase as [(_ & _ & ->) | (st & _ & _ & ->)]; simpl.
  { intros Hx. destruct (Hall x Hx). split; [by apply Hids|done]. }
  set (roster' := if decide _ then _ else _).
  assert (id <$> roster' = id <$> roster) as Hsame.
  { unfold roster'. destruct (decide _); [|done].
    rewrite list_fmap_insert. simpl. apply list_insert_id.
    by rewrite list_lookup_fmap, Hi. }
  rewrite Hsame.
  intros [-> | Hx]%upsert_elem; simpl.
  - split; [|done]. apply list_elem_of_lookup. exists i.
    by rewrite list_lookup_fmap, Hi.
  - destruct (Hall x Hx). split; [by apply Hids|done].
Qed.

(** A property of tournaments that every step keeps is kept by a run. *)
Lemma run_invariant (I : Tournament → Prop) :
  (∀ uuid now t u, I t → I (processScoringUpdate_in uuid now t u).2) →
  (∀ t r, I t → round_in_bounds (set_currentRound r t) →
          I (set_currentRound r t)) →
  (∀ t, I t →
        I (set_players (set_currentHole 1 <$> players t)
             (set_currentRound (Num 1) (set_scores [] t)))) →
  (∀ t, I t → round_in_bounds t) →
  ∀ cs tournaments,
    map_Forall (λ _, I) tournaments → map_Forall (λ _, I) (run cs tournaments).
Proof.
  intros Hproc Hset Hclear Hrb cs. unfold run.
  induction cs as [|c cs IH]; intros tournaments HI; simpl; [done|].
  apply IH. clear IH.
  assert (∀ uuid now tid u,
            map_Forall (λ _, I) (processScoringUpdate uuid now tournaments tid u).2)
    as Hprocess.
  { intros uuid now tid u. unfold processScoringUpdate.
    destruct (tournaments !! tid) as [t|] eqn:Ht; [|done]. simpl.
    apply map_Forall_insert_2; [|done]. apply Hproc. by apply (HI tid). }
  destruct c as [uuid now tid u|uuid now tid pid h s|tid r|tid|tid]; simpl.
  - apply Hprocess.
  - unfold manual_score. repeat case_match; first [done | apply Hprocess].
  - unfold setCurrentRound, jsgt. simpl.
    destruct (tournaments !! tid) as [t|] eqn:Ht; [|done].
    destruct (Z.ltb_spec r 1); [done|].
    destruct (Z.ltb_spec (totalRounds t) r); [done|]. simpl.
    apply map_Forall_insert_2; [|done].
    apply Hset; [by apply (HI tid)|]. exists r. simpl. split; [done|lia].
  - unfold advanceToNextRound.
    destruct (tournaments !! tid) as [t|] eqn:Ht; [|done].
    pose proof (Hrb t (HI tid t Ht)) as (c & Hc & ? & ?).
    rewrite Hc. unfold jsge, jsle. simpl.
    destruct (Z.ltb_spec (totalRounds t) c); [done|].
    destruct (Z.eqb_spec (totalRounds t) c); [done|]. simpl.
    apply map_Forall_insert_2; [|done].
    apply Hset; [by apply (HI tid)|]. exists (c + 1). simpl. split; [done|lia].
  - unfold clearTournamentData.
    destruct (tournaments !! tid) as [t|] eqn:Ht; [|done]. simpl.
    apply map_Forall_insert_2; [|done]. apply Hclear. by apply (HI tid).
Qed.

(** X1. Whatever is called, and in whatever order (score updates, manual
    scores, setting the round to an integer, advancing it, clearing), the
    current round of every tournament stays between 1 and the number of
    rounds, and the current hole of every player between 1 and 18, once they
    are. *)
Theorem rounds_and_pointers_stay_in_bounds cs tournaments :
  map_Forall (λ _ t, round_in_bounds t ∧ pointers_in_bounds t) tournaments →
  map_Forall (λ _ t, round_in_bounds t ∧ pointers_in_bounds t)
             (run cs tournaments).
Proof.
  apply (run_invariant (λ t, round_in_bounds t ∧ pointers_in_bounds t)).
  - intros uuid now t u [Hr Hp]. split.
    + by apply process_round_in_bounds.
    + by apply process_pointers_in_bounds.
  - intros t r [_ Hp] Hr. by split.
  - intros t [(c & _ & ? & ?) Hp]. split.
    + exists 1. simpl. split; [done|lia].
    + unfold pointers_in_bounds. simpl. apply Forall_fmap, Forall_true.
      intros p. simpl. lia.
  - by intros t [? _].
Qed.

(** X2. In the same runs the ledger stays sound: every entry belongs to a
    player of the roster and to a round between 1 and the number of rounds,
    and no key (player, hole, round) is stored twice. *)
Theorem ledger_stays_sound cs tournaments :
  map_Forall (λ _ t, round_in_bounds t ∧ ledger_sound t) tournaments →
  map_Forall (λ _ t, round_in_bounds t ∧ ledger_sound t) (run cs tournaments).
Proof.
  apply (run_invariant (λ t, round_in_bounds t ∧ ledger_sound t)).
  - intros uuid now t u [Hr Hl]. split.
    + by apply process_round_in_bounds.
    + by apply process_ledger_sound.
  - intros t r [_ Hl] Hr. by split.
  - intros t [(c & _ & ? & ?) _]. split.
    + exists 1. simpl. split; [done|lia].
    + split; simpl; constructor.
  - by intros t [? _].
Qed.

(** ** Leaderboards without scores, and ties *)

Lemma Array_sort_id {A} (cmp : A → A → number) (l : list A) :
  (∀ i j x y, (i < j)%nat → l !! i = Some x → l !! j = Some y →
              jsgt (cmp x y) (Num 0) = false) →
  Array_sort cmp l = l.
Proof.
  induction l as [|x l IH]; intros H; [done|].
  cbn [Array_sort foldr]. fold (Array_sort cmp l). rewrite IH.
  - destruct l as [|y l]; [done|]. cbn [sort_insert].
    rewrite (H 0%nat 1%nat x y); [done|lia|done|done].
  - intros i j a b Hij Ha Hb. apply (H (S i) (S j)); [lia|done|done].
Qed.

Lemma leaderboard_entry_no_scores t r p :
  (∀ s, s ∈ scores t →
        ¬ jseq (round s) (default (currentRound t) (Num <$> nonzero r))) →
  let e := leaderboard_entry t r p in
  totalStrokes e = Num 0 ∧ holesCompleted e = 0 ∧ currentScore e = Num 0 ∧
  totalStablefordPoints e = 0 ∧ stablefordVsPar e = 0 ∧
  holeScores e = replicate 18 None ∧ stablefordPoints e = replicate 18 None.
Proof.
  intros Hnone.
  assert (scores_of t p (default (currentRound t) (Num <$> nonzero r)) = [])
    as Hnil.
  { unfold scores_of. induction (scores t) as [|s l IH]; [done|].
    rewrite filter_cons_False.
    - apply IH. intros s' Hs'. apply Hnone. by right.
    - intros [_ Hr]. apply (Hnone s); [left|done]. }
  unfold leaderboard_entry. cbv zeta. rewrite Hnil. simpl. done.
Qed.

(** The leaderboard when the display round has no score at all. *)
Lemma leaderboard_no_scores t r :
  (∀ s, s ∈ scores t →
        ¬ jseq (round s) (default (currentRound t) (Num <$> nonzero r))) →
  generateLeaderboard_in t r =
  imap (λ index p, set_position (Z.of_nat index + 1) (leaderboard_entry t r p))
       (players t).
Proof.
  intros Hnone. unfold generateLeaderboard_in.
  rewrite Array_sort_id.
  - by rewrite imap_fmap.
  - intros i j x y _ Hx Hy.
    apply list_lookup_fmap_Some in Hx as (p & -> & _).
    apply list_lookup_fmap_Some in Hy as (q & -> & _).
    destruct (leaderboard_entry_no_scores t r p Hnone) as (_ & Hp1 & Hp2 & _).
    destruct (leaderboard_entry_no_scores t r q Hnone) as (_ & Hq1 & Hq2 & _).
    unfold leaderboard_compare. rewrite Hp1, Hp2, Hq1, Hq2. done.
Qed.

Lemma leaderboard_names_no_scores t r :
  (∀ s, s ∈ scores t →
        ¬ jseq (round s) (default (currentRound t) (Num <$> nonzero r))) →
  playerName <$> generateLeaderboard_in t r = name <$> players t ∧
  Forall (λ e, totalStrokes e = Num 0 ∧ holesCompleted e = 0 ∧
               currentScore e = Num 0 ∧ totalStablefordPoints e = 0)
         (generateLeaderboard_in t r).
Proof.
  intros Hnone. rewrite (leaderboard_no_scores t r Hnone). split.
  - apply list_eq. intros i. rewrite !list_lookup_fmap, list_lookup_imap.
    by destruct (players t !! i).
  - apply Forall_forall. intros e (i & Hi)%list_elem_of_lookup.
    rewrite list_lookup_imap in Hi.
    destruct (players t !! i) as [p|]; [|done]. injection Hi as <-.
    destruct (leaderboard_entry_no_scores t r p Hnone) as (?&?&?&?&_).
    done.
Qed.

Lemma Math_max_zero_cases (x : number) :
  let r := Math_max [Num 0; x] in
  r = NaN ∨ r = PosInf ∨ ∃ z, r = Num z ∧ 0 ≤ z.
Proof.
  cbv zeta. destruct x as [z| | |].
  - right. right. rewrite Math_max_zero. eexists. split; [done|lia].
  - by left.
  - right. by left.
  - right. right. by exists 0.
Qed.

(** X3. [createTournament] returns the new tournament and stores it under
    its id, leaving the other tournaments alone.  The tournament has the
    name, the parsed course figures (72 and 113 when the course string does
    not match), the standard pars, the rounds asked for, round 1 as its
    current round (which is within the rounds of the tournament exactly when
    at least one round was asked for) and an empty ledger.  Its roster has
    one player per given string, in that order: the k-th player is what
    [parsePlayerInfo] makes of the k-th string, with the id of the k-th
    call, the name and the handicap matched in that string (the whole
    string and 0 when nothing matched), at hole 1, and with received strokes
    that are [NaN], [Infinity] or an integer that is not negative.  Its
    leaderboard, for every round, lists these names in the order given. *)
Theorem createTournament_fresh uuid now tournaments tournamentName
    courseString courseMatch playerNames rounds :
  let r := createTournament uuid now tournaments tournamentName courseString
             courseMatch playerNames rounds in
  let t := r.1 in
  let rating := if courseMatch is Some (_, x, _) then x else Finite 72 in
  let slope := if courseMatch is Some (_, _, x) then x else Finite 113 in
  r.2 !! uuid 0%nat = Some t ∧
  (∀ k, k ≠ uuid 0%nat → r.2 !! k = tournaments !! k) ∧
  t_id t = uuid 0%nat ∧ t_name t = tournamentName ∧
  course t = (if courseMatch is Some (n, _, _) then n else courseString) ∧
  courseRating t = rating ∧ slopeRating t = slope ∧
  t_par t = standardPar ∧ createdAt t = now ∧
  totalRounds t = rounds ∧ currentRound t = Num 1 ∧
  (round_in_bounds t ↔ 1 ≤ rounds) ∧
  pointers_in_bounds t ∧ ledger_sound t ∧ scores t = [] ∧
  length (players t) = length playerNames ∧
  (∀ k pm, playerNames !! k = Some pm →
     ∃ p, players t !! k = Some p ∧
          p = parsePlayerInfo (uuid (S k)) pm.1 pm.2 rating slope ∧
          id p = uuid (S k) ∧ name p = name_given pm ∧
          handicap p = Some (if pm.2 is Some (_, h) then h else Finite 0) ∧
          currentHole p = 1 ∧
          ∃ n, receivedStrokes p = Some n ∧
               (n = NaN ∨ n = PosInf ∨ ∃ z, n = Num z ∧ 0 ≤ z)) ∧
  name <$> players t = name_given <$> playerNames ∧
  (∀ round_, playerName <$> generateLeaderboard r.2 (uuid 0%nat) round_
             = name_given <$> playerNames).
Proof.
  intros r t rating slope.
  assert (r.2 !! uuid 0%nat = Some t) as Hlook.
  { unfold r, t, createTournament. simpl. by rewrite lookup_insert_eq. }
  assert (name <$> players t = name_given <$> playerNames) as Hnames.
  { unfold t, r, createTournament. simpl. apply list_eq. intros k.
    rewrite !list_lookup_fmap, list_lookup_imap.
    destruct (playerNames !! k) as [[s [[n h]|]]|]; done. }
  split; [done|]. split.
  { intros k Hk. unfold r, createTournament. simpl. by rewrite lookup_insert_ne. }
  do 9 (split; [done|]).
  split; [|split; [|split; [|split; [|split; [|split; [|split]]]]]].
  - unfold round_in_bounds, is_round, t, r, createTournament. simpl. split.
    + intros (c & [= <-] & ? & ?). done.
    + intros ?. exists 1. split; [done|lia].
  - unfold pointers_in_bounds, t, r, createTournament. simpl.
    apply Forall_forall. intros p (k & Hk)%list_elem_of_lookup.
    rewrite list_lookup_imap in Hk.
    destruct (playerNames !! k) as [pm|]; [|done]. injection Hk as <-.
    simpl. lia.
  - split; unfold t, r, createTournament; simpl; constructor.
  - done.
  - unfold t, r, createTournament. simpl. by rewrite length_imap.
  - intros k pm Hk. unfold t, r, createTournament. simpl.
    rewrite list_lookup_imap, Hk. simpl. eexists.
    split; [done|]. split; [done|]. split; [done|].
    split; [by destruct pm as [s [[n h]|]]|].
    split; [done|]. split; [done|].
    eexists. split; [done|]. apply Math_max_zero_cases.
  - done.
  - intros round_. unfold generateLeaderboard. rewrite Hlook, <- Hnames.
    apply leaderboard_names_no_scores. intros s Hs.
    unfold t, r, createTournament in Hs. simpl in Hs. by apply elem_of_nil in Hs.
Qed.

Lemma cleared_twice t :
  let clear_ := λ t, set_players (set_currentHole 1 <$> players t)
                       (set_currentRound (Num 1) (set_scores [] t)) in
  clear_ (clear_ t) = clear_ t.
Proof.
  simpl. unfold set_players, set_currentRound, set_scores. simpl. f_equal.
  rewrite <- list_fmap_compose. apply list_fmap_ext. by intros _ [] _.
Qed.

(** X4. Clearing a tournament that exists succeeds: the ledger is empty, the
    current round is 1 and every player is at hole 1, while the roster keeps
    its players, with their ids, names, handicaps and received strokes, and
    the other tournaments are not touched.  The leaderboard is then the
    roster in its order, with nothing played; and clearing once more changes
    nothing. *)
Theorem clearTournamentData_resets tournaments tid t :
  tournaments !! tid = Some t →
  let r := clearTournamentData tournaments tid in
  r.1 = true ∧
  (∀ k, k ≠ tid → r.2 !! k = tournaments !! k) ∧
  clearTournamentData r.2 tid = (true, r.2) ∧
  ∃ t', r.2 !! tid = Some t' ∧
    scores t' = [] ∧ currentRound t' = Num 1 ∧
    Forall (λ p, currentHole p = 1) (players t') ∧
    identity_of <$> players t' = identity_of <$> players t ∧
    totalRounds t' = totalRounds t ∧ t_par t' = t_par t ∧
    (∀ round_,
       playerName <$> generateLeaderboard r.2 tid round_ = name <$> players t ∧
       Forall (λ e, totalStrokes e = Num 0 ∧ holesCompleted e = 0 ∧
                    currentScore e = Num 0 ∧ totalStablefordPoints e = 0)
              (generateLeaderboard r.2 tid round_)).
Proof.
  intros Ht r. unfold r, clearTournamentData. rewrite Ht. simpl.
  split; [done|]. split; [|split].
  - intros k Hk. by rewrite lookup_insert_ne.
  - rewrite lookup_insert_eq. f_equal. rewrite insert_insert_eq. f_equal.
    apply cleared_twice.
  - eexists. split; [by rewrite lookup_insert_eq|]. simpl.
    split; [done|]. split; [done|]. split; [|split; [|split; [done|split; [done|]]]].
    + apply Forall_fmap, Forall_true. done.
    + rewrite <- list_fmap_compose. apply list_fmap_ext. by intros _ [] _.
    + intros round_. unfold generateLeaderboard. rewrite lookup_insert_eq.
      set (t' := set_players _ _).
      destruct (leaderboard_names_no_scores t' round_) as [Hn Hz].
      { intros s Hs. by apply elem_of_nil in Hs. }
      split; [|done]. rewrite Hn. unfold t'. simpl.
      rewrite <- list_fmap_compose. apply list_fmap_ext. by intros _ [] _.
Qed.

(** ** The sort is stable *)

Lemma sort_insert_elem {A} (cmp : A → A → number) a l (y : A) :
  y ∈ l → y ∈ sort_insert cmp a l.
Proof. intros Hy. rewrite sort_insert_Permutation. by right. Qed.

Lemma stands_before_cons {A} (x y z : A) l :
  stands_before x y l → stands_before x y (z :: l).
Proof.
  intros (i & j & Hij & Hi & Hj). exists (S i), (S j). split; [lia|done].
Qed.

Lemma stands_before_head {A} (x y : A) l :
  y ∈ l → stands_before x y (x :: l).
Proof.
  intros (j & Hj)%list_elem_of_lookup. exists 0%nat, (S j). split; [lia|done].
Qed.

Lemma stands_before_inv {A} (x y z : A) l :
  stands_before x y (z :: l) → (x = z ∧ y ∈ l) ∨ stands_before x y l.
Proof.
  intros (i & j & Hij & Hi & Hj).
  destruct j as [|j]; [lia|]. simpl in Hj. destruct i as [|i].
  - left. simpl in Hi. split; [congruence|]. apply list_elem_of_lookup. eauto.
  - right. exists i, j. split; [lia|done].
Qed.

Lemma sort_insert_keeps_order {A} (cmp : A → A → number) a l (x y : A) :
  stands_before x y l → stands_before x y (sort_insert cmp a l).
Proof.
  induction l as [|z l IH]; intros Hb.
  - by destruct Hb as (i & j & _ & Hi & _).
  - cbn [sort_insert]. destruct (jsgt _ _).
    + apply stands_before_inv in Hb as [[-> Hy] | Hb].
      * by apply stands_before_head, sort_insert_elem.
      * by apply stands_before_cons, IH.
    + by apply stands_before_cons.
Qed.

Lemma sort_insert_goes_before {A} (cmp : A → A → number) a l (y : A) :
  y ∈ l → jsgt (cmp a y) (Num 0) = false →
  stands_before a y (sort_insert cmp a l).
Proof.
  induction l as [|z l IH]; intros Hy Hle.
  - by apply elem_of_nil in Hy.
  - cbn [sort_insert]. destruct (jsgt (cmp a z) (Num 0)) eqn:Hz.
    + apply elem_of_cons in Hy as [-> | Hy]; [congruence|].
      by apply stands_before_cons, IH.
    + by apply stands_before_head.
Qed.

Lemma Array_sort_stable {A} (cmp : A → A → number) l (x y : A) :
  stands_before x y l → jsgt (cmp x y) (Num 0) = false →
  stands_before x y (Array_sort cmp l).
Proof.
  induction l as [|a l IH]; intros Hb Hle.
  - by destruct Hb as (i & j & _ & Hi & _).
  - cbn [Array_sort foldr]. fold (Array_sort cmp l).
    apply stands_before_inv in Hb as [[-> Hy] | Hb].
    + apply sort_insert_goes_before; [|done]. by rewrite Array_sort_Permutation.
    + by apply sort_insert_keeps_order, IH.
Qed.

Lemma ranks_before_compare a b :
  ranks_before a b → jsgt (leaderboard_compare a b) (Num 0) = false.
Proof.
  intros (x & y & Ha & Hb & H). unfold leaderboard_compare, jsgt.
  rewrite Ha, Hb. simpl. destruct (Z.eqb_spec x y); simpl; apply Z.ltb_ge; lia.
Qed.

(** X5. On a ledger whose strokes and pars are all numbers (so that every
    score against par is a number and the comparator of the sort is
    consistent), ties are broken by the roster: of two players, the one who
    comes first in the roster and whose entry may stand before the other's
    (lower score, or equal score and at least as many holes; in particular a
    tie in both) comes first on the leaderboard. *)
Theorem leaderboard_keeps_roster_order tournaments tid t r i j p q :
  tournaments !! tid = Some t →
  numeric_ledger (scores t) →
  (i < j)%nat → players t !! i = Some p → players t !! j = Some q →
  ranks_before (leaderboard_entry t r p) (leaderboard_entry t r q) →
  ∃ i' j', (i' < j')%nat ∧
    generateLeaderboard tournaments tid r !! i'
      = Some (set_position (Z.of_nat i' + 1) (leaderboard_entry t r p)) ∧
    generateLeaderboard tournaments tid r !! j'
      = Some (set_position (Z.of_nat j' + 1) (leaderboard_entry t r q)).
Proof.
  intros Ht _ Hij Hp Hq Hrank. unfold generateLeaderboard. rewrite Ht.
  unfold generateLeaderboard_in.
  destruct (Array_sort_stable leaderboard_compare
              (leaderboard_entry t r <$> players t)
              (leaderboard_entry t r p) (leaderboard_entry t r q))
    as (i' & j' & Hij' & Hi' & Hj').
  - exists i, j. split; [done|]. by rewrite !list_lookup_fmap, Hp, Hq.
  - by apply ranks_before_compare.
  - exists i', j'. split; [done|]. by rewrite !list_lookup_imap, Hi', Hj'.
Qed.

(** ** Deletion: nothing stored, the last score, and taking back *)

Lemma insert_same_tournament (tournaments : gmap string Tournament) tid t :
  tournaments !! tid = Some t →
  <[tid := set_scores (scores t) t]> tournaments = tournaments.
Proof. intros Ht. rewrite set_scores_same. by apply insert_id. Qed.

(** X6. A deletion that names a hole and finds nothing to delete changes
    nothing at all and returns nothing: that is so when it names no player,
    when no roster player matches the name, and when the matching player
    has no entry on that hole. *)
Theorem deleteScore_nothing_to_delete now tournaments tid t u h :
  tournaments !! tid = Some t →
  nonzero (u_hole u) = Some h →
  (∀ p, u_player u ≠ EmptyString →
        find (name_matches (u_player u)) (players t) = Some p →
        ∀ s, s ∈ scores t → ¬ (playerId s = id p ∧ hole s = h)) →
  deleteScore now tournaments tid u = (None, tournaments).
Proof.
  intros Ht Hh Hnone. rewrite (deleteScore_unfold _ _ _ _ _ Ht).
  apply nonzero_Some in Hh as Hh'. destruct Hh' as [_ Hh0].
  unfold deleteScore_in, resolve_target. rewrite Hh.
  destruct (decide (u_player u = EmptyString)) as [He|Hne].
  { simpl. by rewrite insert_same_tournament. }
  destruct (find _ (players t)) as [p|] eqn:Hfind.
  2:{ simpl. by rewrite insert_same_tournament. }
  rewrite (nonzero_id _ Hh0).
  destruct (list_find _ (scores t)) as [[k s]|] eqn:Hk.
  - exfalso. apply list_find_Some in Hk as (Hk & HP & _).
    apply (Hnone p Hne eq_refl s); [|done]. apply list_elem_of_lookup. eauto.
  - simpl. by rewrite insert_same_tournament.
Qed.

Lemma byTimestampDesc_sorted (l : list ScoreEntry) :
  StronglySorted (λ a b, timestamp b ≤ timestamp a) (Array_sort byTimestampDesc l).
Proof.
  apply (Array_sort_sorted _ _ (λ _, True)).
  - intros x y _ _. unfold byTimestampDesc, jsgt. simpl. intros H%Z.ltb_ge. lia.
  - intros x y _ _. unfold byTimestampDesc, jsgt. simpl. intros H%Z.ltb_lt. lia.
  - intros x y z _ _ _. lia.
  - by apply Forall_true.
Qed.

(** X7. "Undo last": a deletion that names neither a hole nor a player of
    the roster aims at the entry with the latest timestamp.  When the player
    of that entry is in the roster, that entry is deleted and returned with
    0 strokes, and the rest of the ledger is left ordered from the latest to
    the earliest.  When the ledger is empty nothing changes. *)
Theorem deleteScore_undo_last now tournaments tid t u :
  tournaments !! tid = Some t →
  nonzero (u_hole u) = None →
  (u_player u = EmptyString ∨
   find (name_matches (u_player u)) (players t) = None) →
  (scores t = [] → deleteScore now tournaments tid u = (None, tournaments)) ∧
  (∀ s0 rest,
     Array_sort byTimestampDesc (scores t) = s0 :: rest →
     hole s0 ≠ 0 → playerId s0 ∈ id <$> players t →
     deleteScore now tournaments tid u =
       (Some {| playerId := playerId s0; hole := hole s0; round := round s0;
                strokes := Num 0; par := par s0; timestamp := now |},
        <[tid := set_scores rest t]> tournaments) ∧
     s0 :: rest ≡ₚ scores t ∧
     (∀ s, s ∈ scores t → timestamp s ≤ timestamp s0) ∧
     StronglySorted (λ a b, timestamp b ≤ timestamp a) rest).
Proof.
  intros Ht Hh Hnamed. rewrite (deleteScore_unfold _ _ _ _ _ Ht).
  assert ((if decide (u_player u = EmptyString) then None
           else find (name_matches (u_player u)) (players t)) = None) as Hnone.
  { destruct (decide _); [done|]. by destruct Hnamed. }
  unfold deleteScore_in, resolve_target. rewrite Hh, Hnone. split.
  - intros Hnil. rewrite Hnil. simpl. rewrite <- Hnil.
    by rewrite insert_same_tournament.
  - intros s0 rest Hsort Hhole Hin.
    pose proof (byTimestampDesc_sorted (scores t)) as Hsorted.
    rewrite Hsort in Hsorted. apply StronglySorted_inv in Hsorted as [Hrest Hmax].
    assert (s0 :: rest ≡ₚ scores t) as Hperm.
    { rewrite <- Hsort. apply Array_sort_Permutation. }
    split; [|split; [done|split; [|done]]].
    + rewrite Hsort.
      assert (∃ p, find (λ p, bool_decide (id p = playerId s0)) (players t) = Some p ∧
                   id p = playerId s0) as (p & Hfind & Hp).
      { unfold find.
        apply list_elem_of_fmap in Hin as (p0 & Hid & Hp0).
        destruct (list_find _ (players t)) as [[k p]|] eqn:Hfind.
        - apply list_find_Some in Hfind as (_ & Hp%bool_decide_unpack & _).
          by exists p.
        - exfalso. apply list_find_None in Hfind. rewrite Forall_forall in Hfind.
          apply (Hfind p0 Hp0). by apply bool_decide_pack. }
      simpl. rewrite Hfind. destruct (Z.eqb_spec (hole s0) 0); [done|].
      rewrite decide_True by done. simpl. by rewrite Hp.
    + intros s Hs. rewrite <- Hperm in Hs.
      apply elem_of_cons in Hs as [-> | Hs]; [lia|].
      rewrite Forall_forall in Hmax. by apply Hmax.
Qed.

Lemma prefix_refl (s : string) : String.prefix s s = true.
Proof.
  induction s as [|a s IH]; [done|]. simpl.
  destruct (Ascii.ascii_dec a a); [done|congruence].
Qed.

Lemma includes_refl (s : string) : includes s s = true.
Proof. destruct s; cbn [includes]; by rewrite prefix_refl. Qed.

Lemma name_matches_own p : name_matches (name p) p = true.
Proof. unfold name_matches. by rewrite includes_refl. Qed.

(** After an update, the name of the update still finds the player it was
    booked on. *)
Lemma find_after_record uuid t u i player roster x :
  locate_player uuid t u = Some (i, player, roster) →
  ∀ roster', (roster' = roster ∨ roster' = <[i := set_currentHole x player]> roster) →
  ∃ p', find (name_matches (u_player u)) roster' = Some p' ∧ id p' = id player.
Proof.
  intros Hloc roster' Hr'.
  assert (∃ pre p0 post, roster = pre ++ p0 :: post ∧ length pre = i ∧
            p0 = player ∧ name_matches (u_player u) player ∧
            ∀ y, y ∈ pre → ¬ name_matches (u_player u) y)
    as (pre & p0 & post & -> & Hlen & -> & Hm & Hpre).
  { unfold locate_player in Hloc.
    destruct (list_find _ (players t)) as [[i' p']|] eqn:Hfind.
    - injection Hloc as -> -> <-.
      apply list_find_split in Hfind as (pre & post & -> & Hl & HP & Hpre).
      by exists pre, player, post.
    - destruct (decide _) as [|Hne]; [done|]. injection Hloc as <- <- <-.
      eexists (players t), _, []. split; [reflexivity|]. split; [done|].
      split; [reflexivity|]. split.
      + apply Is_true_true.
        apply (name_matches_own
                 {| id := uuid; name := u_player u; currentHole := 1;
                    handicap := None; receivedStrokes := None |}).
      + apply list_find_None in Hfind. by rewrite Forall_forall in Hfind. }
  assert (∃ p', roster' = pre ++ p' :: post ∧ id p' = id player ∧
                name p' = name player) as (p' & -> & Hid & Hname).
  { destruct Hr' as [-> | ->]; [by exists player|].
    exists (set_currentHole x player). split; [|done].
    subst i. by rewrite insert_app_r_alt, Nat.sub_diag by lia. }
  exists p'. split; [|done]. unfold find.
  rewrite (list_find_first _ pre post p'); [done| |done].
  unfold name_matches in *. by rewrite Hname.
Qed.

(** X8. Taking a score back.  An update that names a player and a hole is
    recorded, for a player who had no entry on that hole; a deletion that
    names the same player and hole then removes exactly that entry: the
    ledger is what it was before the two calls.  The player's current hole
    is not moved back. *)
Theorem record_then_delete_restores_ledger uuid now now' t u u' e t1 h :
  u_action u ≠ delete_ → u_player u ≠ EmptyString →
  nonzero (u_hole u) = Some h →
  processScoringUpdate_in uuid now t u = (Some e, t1) →
  (∀ s, s ∈ scores t → ¬ (playerId s = playerId e ∧ hole s = h)) →
  u_player u' = u_player u → u_hole u' = u_hole u →
  ∃ d t2,
    deleteScore_in now' t1 u' = (Some d, t2) ∧
    playerId d = playerId e ∧ hole d = h ∧ round d = round e ∧
    scores t2 = scores t ∧ players t2 = players t1.
Proof.
  intros Hact Hname Hh Hp Hfresh Hu1 Hu2.
  destruct (record_inv _ _ _ _ _ _ Hact Hp)
    as [(_ & ? & _) | (i & player & roster & Hloc & Hcase)]; [done|].
  cbv zeta in Hcase. rewrite Hh in Hcase. simpl in Hcase.
  destruct Hcase as [(_ & ? & _) | (st & _ & He & Ht1)]; [done|].
  injection He as ->. simpl in Hfresh.
  assert (upsert
            {| playerId := id player; hole := h; round := currentRound t;
               strokes := st;
               par := match array_get (t_par t) (h - 1) with
                      | Some p => Num p
                      | None => NaN
                      end;
               timestamp := now |} (scores t)
          = scores t ++
            [{| playerId := id player; hole := h; round := currentRound t;
                strokes := st;
                par := match array_get (t_par t) (h - 1) with
                       | Some p => Num p
                       | None => NaN
                       end;
                timestamp := now |}]) as Hups.
  { unfold upsert. destruct (list_find _ (scores t)) as [[k s]|] eqn:Hk; [|done].
    exfalso. apply list_find_Some in Hk as (Hk & (Hp1 & Hp2 & _) & _).
    apply (Hfresh s); [|done]. apply list_elem_of_lookup. eauto. }
  rewrite Hups in Ht1.
  destruct (find_after_record uuid t u i player roster (h + 1) Hloc (players t1))
    as (p' & Hfind & Hid).
  { rewrite Ht1. simpl. destruct (decide _); auto. }
  apply nonzero_Some in Hh as Hh'. destruct Hh' as [_ Hh0].
  unfold deleteScore_in, resolve_target.
  rewrite Hu1, Hu2, Hh, decide_False, Hfind by done.
  rewrite (nonzero_id _ Hh0).
  assert (scores t1 = scores t ++
            [{| playerId := id player; hole := h; round := currentRound t;
                strokes := st;
                par := match array_get (t_par t) (h - 1) with
                       | Some p => Num p
                       | None => NaN
                       end;
                timestamp := now |}]) as Hsc by (by rewrite Ht1).
  rewrite Hsc.
  rewrite (list_find_first _ (scores t) []).
  - eexists _, _. split; [done|]. simpl.
    rewrite delete_middle, app_nil_r. by rewrite Hid.
  - simpl. by rewrite Hid.
  - intros s Hs [H1 H2]. apply (Hfresh s Hs). by rewrite <- Hid.
Qed.

(** ** Recording: names, rejected updates, spoken results *)

Lemma includes_empty (s : string) : includes s EmptyString = true.
Proof. by destruct s. Qed.

Lemma leaderboard_names_perm t r :
  playerName <$> generateLeaderboard_in t r ≡ₚ name <$> players t.
Proof.
  unfold generateLeaderboard_in.
  assert (∀ l : list LeaderboardEntry,
            playerName <$> imap (λ index entry, set_position (Z.of_nat index + 1) entry) l
            = playerName <$> l) as ->.
  { intros l. apply list_eq. intros i.
    rewrite !list_lookup_fmap, list_lookup_imap. by destruct (l !! i). }
  rewrite Array_sort_Permutation, <- list_fmap_compose. done.
Qed.

Lemma upsert_contains (e : ScoreEntry) (ledger : list ScoreEntry) :
  e ∈ upsert e ledger.
Proof.
  unfold upsert. destruct (list_find _ ledger) as [[i old]|] eqn:Hfind.
  - apply list_find_Some in Hfind as (Hi & _).
    apply list_elem_of_lookup. exists i.
    apply list_lookup_insert_eq. by eapply lookup_lt_Some.
  - apply elem_of_app. right. left.
Qed.

Lemma set_players_same t : set_players (players t) t = t.
Proof. by destruct t. Qed.

(** What recording does once the player is located. *)
Lemma record_located uuid now t u i player roster :
  u_action u ≠ delete_ →
  locate_player uuid t u = Some (i, player, roster) →
  let h := default (currentHole player) (nonzero (u_hole u)) in
  let par_ := match array_get (t_par t) (h - 1) with
              | Some p => Num p
              | None => NaN
              end in
  let strokes_ := match nonzero (u_strokes u) with
                  | Some s => Some (Num s)
                  | None => strokes_of_action (u_action u) par_
                  end in
  processScoringUpdate_in uuid now t u =
  match strokes_ with
  | None => (None, set_players roster t)
  | Some st =>
      let e := {| playerId := id player; hole := h; round := currentRound t;
                  strokes := st; par := par_; timestamp := now |} in
      (Some e,
       set_scores (upsert e (scores t))
         (set_players
            (if decide (h = currentHole player ∧ h < 18)
             then <[i := set_currentHole (h + 1) player]> roster
             else roster) t))
  end.
Proof.
  intros Hact Hloc. unfold processScoringUpdate_in.
  rewrite decide_False by done. rewrite Hloc. done.
Qed.

(** An update that names somebody always has its player: one of the roster,
    or a new one. *)
Lemma locate_named uuid t u :
  u_player u ≠ EmptyString →
  ∃ i player roster, locate_player uuid t u = Some (i, player, roster).
Proof.
  intros Hname. unfold locate_player.
  destruct (list_find _ _) as [[i p]|]; [by eauto|].
  rewrite decide_False by done. by eauto.
Qed.

(** X9. An update without a player name is not rejected for the lack of a
    name: since every name includes the empty one, it is booked on the first
    player of the roster, and no player is added.  When it carries strokes,
    or a spoken result other than "score", an entry is returned and stored:
    it has the first player's id, the hole of the update (the player's
    current hole when the update has none) and the current round.  It
    returns nothing and changes nothing when the roster is empty, and
    likewise when the action is "score" and the strokes are missing. *)
Theorem nameless_update_goes_to_first_player uuid now t u :
  toLowerCase EmptyString = EmptyString →
  u_action u ≠ delete_ → u_player u = EmptyString →
  (players t = [] → processScoringUpdate_in uuid now t u = (None, t)) ∧
  (∀ p ps, players t = p :: ps →
     let r := processScoringUpdate_in uuid now t u in
     identity_of <$> players r.2 = identity_of <$> players t ∧
     (nonzero (u_strokes u) ≠ None ∨ u_action u ≠ score →
        ∃ e, r.1 = Some e ∧ e ∈ scores r.2 ∧ playerId e = id p ∧
             hole e = default (currentHole p) (nonzero (u_hole u)) ∧
             round e = currentRound t ∧
             (∀ s, nonzero (u_strokes u) = Some s → strokes e = Num s)) ∧
     (nonzero (u_strokes u) = None → u_action u = score → r = (None, t))).
Proof.
  intros Hlower Hact Hname. split.
  - intros Hnil. unfold processScoringUpdate_in, locate_player.
    rewrite decide_False, Hnil by done. simpl. by rewrite decide_True.
  - intros p ps Hps r.
    assert (locate_player uuid t u = Some (0%nat, p, players t)) as Hloc.
    { unfold locate_player. rewrite Hps. simpl.
      rewrite decide_True; [done|]. apply Is_true_true.
      unfold name_matches. by rewrite Hname, Hlower, includes_empty. }
    pose proof (record_located _ now _ _ _ _ _ Hact Hloc) as Hrec.
    cbv zeta in Hrec. unfold r. rewrite Hrec. clear Hrec r.
    assert (∀ h, identity_of <$>
                   (if decide (h = currentHole p ∧ h < 18)
                    then <[0%nat := set_currentHole (h + 1) p]> (players t)
                    else players t) = identity_of <$> players t) as Hid.
    { intros h. destruct (decide _); [|done].
      apply identity_insert_currentHole. by rewrite Hps. }
    destruct (nonzero (u_strokes u)) as [s|] eqn:Hs.
    + simpl. split; [apply Hid|]. split; [|done].
      intros _. eexists. split; [done|]. simpl.
      split; [apply upsert_contains|]. repeat split. by intros ? [= ->].
    + destruct (strokes_of_action _ _) as [st|] eqn:Hst.
      * simpl. split; [apply Hid|]. split.
        -- intros _. eexists. split; [done|]. simpl.
           split; [apply upsert_contains|]. repeat split. done.
        -- intros _ Hscore. by rewrite Hscore in Hst.
      * simpl. split; [done|]. split.
        -- intros [?|Hns]; [done|]. by destruct (u_action u).
        -- intros _ _. by rewrite set_players_same.
Qed.

(** X10. A rejected update can still change the roster: an update of action
    "score" without strokes that names somebody no roster player matches
    returns nothing and leaves the ledger alone, but the new player is in
    the roster, and on the leaderboard from then on. *)
Theorem rejected_update_still_adds_player uuid now tournaments tid t u :
  tournaments !! tid = Some t →
  u_action u = score → nonzero (u_strokes u) = None →
  u_player u ≠ EmptyString →
  (∀ q, q ∈ players t → ¬ name_matches (u_player u) q) →
  let r := processScoringUpdate uuid now tournaments tid u in
  r.1 = None ∧
  ∃ t', r.2 !! tid = Some t' ∧ scores t' = scores t ∧
    players t' = players t ++
      [{| id := uuid; name := u_player u; currentHole := 1;
          handicap := None; receivedStrokes := None |}] ∧
    ∀ round_,
      length (generateLeaderboard r.2 tid round_) = S (length (players t)) ∧
      u_player u ∈ playerName <$> generateLeaderboard r.2 tid round_.
Proof.
  intros Ht Hact Hs Hname Hnomatch r. unfold r.
  rewrite (processScoringUpdate_unfold _ _ _ _ _ _ Ht).
  assert (processScoringUpdate_in uuid now t u =
          (None, set_players
                   (players t ++
                    [{| id := uuid; name := u_player u; currentHole := 1;
                        handicap := None; receivedStrokes := None |}]) t)) as ->.
  { unfold processScoringUpdate_in, locate_player.
    rewrite decide_False by (rewrite Hact; discriminate).
    destruct (list_find _ (players t)) as [[i q]|] eqn:Hfind.
    { exfalso. apply list_find_Some in Hfind as (Hi & Hq & _).
      apply (Hnomatch q); [|done]. apply list_elem_of_lookup. eauto. }
    rewrite decide_False by done. cbv zeta. by rewrite Hs, Hact. }
  simpl. split; [done|]. eexists. split; [by rewrite lookup_insert_eq|].
  split; [done|]. split; [done|].
  intros round_. unfold generateLeaderboard. rewrite lookup_insert_eq. split.
  - unfold generateLeaderboard_in.
    rewrite length_imap, Array_sort_length, length_fmap. simpl.
    rewrite length_app. simpl. lia.
  - rewrite leaderboard_names_perm. simpl. rewrite fmap_app.
    apply elem_of_app. right. simpl. left.
Qed.

Lemma standardIndex_range i idx :
  array_get standardIndex i = Some idx → 1 ≤ idx ≤ 18.
Proof.
  unfold array_get. destruct (i <? 0); [done|].
  generalize (Z.to_nat i). intros n.
  do 19 (destruct n as [|n]; [by intros [= <-]|]). done.
Qed.

Lemma stableford_scratch (p k : Z) h :
  -2 ≤ k ≤ 2 →
  calculateStablefordPoints (Num (p + k)) (Num p) (Num 0) h = 2 - k.
Proof.
  intros Hk. rewrite calculateStablefordPoints_Num. cbv zeta.
  assert (match array_get standardIndex (h - 1) with
          | Some idx => if idx <=? Z.rem 0 18 then 1 else 0
          | None => 0
          end = 0) as ->.
  { destruct (array_get standardIndex (h - 1)) as [idx|] eqn:Hidx; [|done].
    apply standardIndex_range in Hidx. change (Z.rem 0 18) with 0.
    destruct (Z.leb_spec idx 0); [lia|done]. }
  change (0 / 18 + 0) with 0.
  repeat match goal with
         | |- context [?x <=? ?y] => destruct (Z.leb_spec x y)
         | |- context [?x =? ?y] => destruct (Z.eqb_spec x y)
         end; lia.
Qed.

Lemma stableford_NaN (st R : number) h :
  calculateStablefordPoints st NaN R h = 0.
Proof.
  unfold calculateStablefordPoints. cbv zeta.
  assert (∀ x, jssub st (jsadd NaN x) = NaN) as ->; [|done].
  intros x. by destruct st.
Qed.

(** X11. A spoken result without a stroke count, for a named player.  The
    update is recorded: an entry is returned and stored, on the hole of the
    update when it has one.  On a hole that has a par, the entry gets the
    par plus the offset of the word (eagle -2, birdie -1, par 0, bogey +1,
    double bogey +2), which for a player who receives no strokes is worth
    2 minus the offset in Stableford points.  On a hole that has no par the
    entry is recorded all the same, with strokes and par that are no
    numbers, and is worth 0 points. *)
Theorem spoken_result_strokes uuid now t u k :
  nonzero (u_strokes u) = None →
  action_offset (u_action u) = Some k →
  u_player u ≠ EmptyString →
  ∃ e t',
    processScoringUpdate_in uuid now t u = (Some e, t') ∧
    e ∈ scores t' ∧
    (∀ h, nonzero (u_hole u) = Some h → hole e = h) ∧
    (∀ p, array_get (t_par t) (hole e - 1) = Some p →
       par e = Num p ∧ strokes e = Num (p + k) ∧
       calculateStablefordPoints (strokes e) (par e) (Num 0) (hole e) = 2 - k) ∧
    (array_get (t_par t) (hole e - 1) = None →
       par e = NaN ∧ strokes e = NaN ∧
       ∀ R, calculateStablefordPoints (strokes e) (par e) R (hole e) = 0).
Proof.
  intros Hs Hk Hname.
  assert (u_action u ≠ delete_) as Hact by (intros E; by rewrite E in Hk).
  destruct (locate_named uuid t u Hname) as (i & player & roster & Hloc).
  pose proof (record_located _ now _ _ _ _ _ Hact Hloc) as Hrec.
  cbv zeta in Hrec. rewrite Hs in Hrec.
  destruct (strokes_of_action _ _) as [st|] eqn:Hst.
  2:{ destruct (u_action u); simpl in Hk, Hst; done. }
  eexists _, _. split; [exact Hrec|]. simpl.
  split; [apply upsert_contains|].
  split; [by intros h ->|]. split.
  - intros p Hpar. rewrite Hpar in Hst |- *.
    assert (st = Num (p + k) ∧ -2 ≤ k ≤ 2) as [-> Hrange].
    { destruct (u_action u); simpl in Hk, Hst; simplify_eq; simpl;
        (split; [f_equal; lia|lia]). }
    split; [done|]. split; [done|]. by apply stableford_scratch.
  - intros Hpar. rewrite Hpar in Hst |- *.
    assert (st = NaN) as ->.
    { destruct (u_action u); simpl in Hk, Hst; by simplify_eq. }
    split; [done|]. split; [done|]. intros R. apply stableford_NaN.
Qed.

Lemma foldl_jsadd_NaN_acc {A} (f : A → number) (l : list A) :
  foldl (λ sum s, jsadd sum (f s)) NaN l = NaN.
Proof. induction l as [|x l IH]; simpl; [done|]. exact IH. Qed.

Lemma foldl_jsadd_NaN {A} (f : A → number) (l : list A) (acc : number) (s : A) :
  s ∈ l → f s = NaN → foldl (λ sum s, jsadd sum (f s)) acc l = NaN.
Proof.
  revert acc. induction l as [|x l IH]; intros acc Hs Hf.
  - by apply elem_of_nil in Hs.
  - simpl. apply elem_of_cons in Hs as [<- | Hs].
    + rewrite Hf. assert (jsadd acc NaN = NaN) as -> by (by destruct acc).
      apply foldl_jsadd_NaN_acc.
    + by apply IH.
Qed.

(** X12. One entry without a number spoils the player's line: when an entry
    of the display round has strokes or a par that is no number (as the
    entries of holes without a par have), the player's score against par on
    the leaderboard is no number either. *)
Theorem unreadable_entry_makes_score_NaN tournaments tid t r p s :
  tournaments !! tid = Some t →
  p ∈ players t → s ∈ scores t →
  playerId s = id p →
  jseq (round s) (default (currentRound t) (Num <$> nonzero r)) →
  par s = NaN ∨ strokes s = NaN →
  ∃ e, e ∈ generateLeaderboard tournaments tid r ∧
       le_playerId e = id p ∧ playerName e = name p ∧ currentScore e = NaN.
Proof.
  intros Ht Hp Hs Hid Hround Hnan. unfold generateLeaderboard. rewrite Ht.
  assert (currentScore (leaderboard_entry t r p) = NaN) as Hscore.
  { unfold leaderboard_entry. cbn [currentScore].
    assert (s ∈ scores_of t p (default (currentRound t) (Num <$> nonzero r)))
      as Hin.
    { unfold scores_of. apply list_elem_of_filter. by split. }
    destruct Hnan as [Hn|Hn].
    - rewrite (foldl_jsadd_NaN par _ _ s Hin Hn).
      by destruct (foldl _ _ _).
    - by rewrite (foldl_jsadd_NaN strokes _ _ s Hin Hn). }
  unfold generateLeaderboard_in.
  assert (leaderboard_entry t r p ∈
          Array_sort leaderboard_compare (leaderboard_entry t r <$> players t))
    as (i & Hi)%list_elem_of_lookup.
  { rewrite Array_sort_Permutation. by apply list_elem_of_fmap_2. }
  exists (set_position (Z.of_nat i + 1) (leaderboard_entry t r p)).
  split; [|done].
  apply list_elem_of_lookup. exists i. by rewrite list_lookup_imap, Hi.
Qed.

(** ** The hole arrays and totals of a leaderboard line *)

Lemma slot_array_set {A} (arr : list (option A)) (j i : Z) (v : A) :
  slot (array_set None arr j (Some v)) i =
  if decide (0 ≤ j ∧ i = j) then Some v else slot arr i.
Proof.
  unfold slot, array_set, array_get.
  destruct (Z.ltb_spec j 0) as [Hj|Hj].
  { destruct (decide _) as [[? ?]|_]; [lia|done]. }
  cbv zeta. destruct (Z.ltb_spec i 0) as [Hi|Hi].
  { destruct (decide _) as [[? ?]|_]; [lia|done]. }
  destruct (Nat.ltb_spec (Z.to_nat j) (length arr)) as [Hlen|Hlen].
  - destruct (decide _) as [[_ ->]|Hne].
    + by rewrite list_lookup_insert_eq.
    + rewrite list_lookup_insert_ne; [done|lia].
  - destruct (decide _) as [[_ ->]|Hne].
    + rewrite lookup_app_r by done. rewrite lookup_app_r by (rewrite length_replicate; lia).
      rewrite length_replicate.
      by replace (Z.to_nat j - length arr - (Z.to_nat j - length arr))%nat with 0%nat by lia.
    + destruct (Nat.lt_ge_cases (Z.to_nat i) (length arr)) as [Hin|Hout].
      * by rewrite lookup_app_l.
      * rewrite (lookup_ge_None_2 arr) by done. rewrite lookup_app_r by done.
        destruct (Nat.lt_ge_cases (Z.to_nat i - length arr) (Z.to_nat j - length arr))
          as [Hfill|Hpast].
        -- rewrite lookup_app_l by (by rewrite length_replicate).
           by rewrite lookup_replicate_2.
        -- rewrite lookup_app_r by (by rewrite length_replicate).
           rewrite length_replicate.
           destruct (Z.to_nat i - length arr - (Z.to_nat j - length arr))%nat
             as [|m] eqn:Hm; [|done].
           exfalso. apply Hne. split; [done|]. lia.
Qed.

Lemma length_array_set {A} (arr : list (option A)) (j : Z) (v : option A) :
  length (array_set None arr j v) =
  if j <? 0 then length arr else (length arr `max` S (Z.to_nat j))%nat.
Proof.
  unfold array_set. destruct (Z.ltb_spec j 0); [done|]. cbv zeta.
  destruct (Nat.ltb_spec (Z.to_nat j) (length arr)).
  - rewrite length_insert. lia.
  - rewrite !length_app, length_replicate. simpl. lia.
Qed.

Lemma slot_replicate {A} (n : nat) (i : Z) : slot (replicate n (@None A)) i = None.
Proof.
  unfold slot, array_get. destruct (i <? 0); [done|].
  destruct (replicate n None !! Z.to_nat i) as [x|] eqn:E; [|done].
  by apply lookup_replicate in E as [-> _].
Qed.

Lemma fill_from_untouched {A} (f : ScoreEntry → A) arr ss i :
  (∀ s, s ∈ ss → 1 ≤ hole s → hole s - 1 ≠ i) →
  slot (fill_from f arr ss) i = slot arr i.
Proof.
  revert arr. induction ss as [|s ss IH]; intros arr Hne; [done|].
  simpl. rewrite IH.
  - rewrite slot_array_set. destruct (decide _) as [[Hs ->]|_]; [|done].
    exfalso. apply (Hne s); [left|lia|done].
  - intros s' Hs'. apply Hne. by right.
Qed.

Lemma fill_from_slot {A} (f : ScoreEntry → A) arr ss s :
  NoDup (hole <$> ss) → s ∈ ss → 1 ≤ hole s →
  slot (fill_from f arr ss) (hole s - 1) = Some (f s).
Proof.
  revert arr. induction ss as [|s0 ss IH]; intros arr Hnd Hs Hh.
  { by apply elem_of_nil in Hs. }
  rewrite fmap_cons in Hnd. apply NoDup_cons in Hnd as [Hfresh Hnd].
  apply elem_of_cons in Hs as [->|Hs]; simpl.
  - rewrite fill_from_untouched.
    + rewrite slot_array_set. destruct (decide _) as [_|Hno]; [done|].
      exfalso. apply Hno. split; [lia|done].
    + intros s' Hs' _ E. apply Hfresh.
      replace (hole s0) with (hole s') by lia. by apply list_elem_of_fmap_2.
  - by apply IH.
Qed.

Lemma fill_from_length {A} (f : ScoreEntry → A) arr ss :
  (length arr ≤ length (fill_from f arr ss))%nat ∧
  (Forall (λ s, hole s ≤ Z.of_nat (length arr)) ss →
   length (fill_from f arr ss) = length arr).
Proof.
  revert arr. induction ss as [|s ss IH]; intros arr; [done|].
  simpl. destruct (IH (array_set None arr (hole s - 1) (Some (f s)))) as [Hle Heq].
  rewrite length_array_set in Hle, Heq.
  split.
  - destruct (hole s - 1 <? 0); lia.
  - intros [Hs Hss]%Forall_cons.
    assert ((if hole s - 1 <? 0 then length arr
             else (length arr `max` S (Z.to_nat (hole s - 1)))%nat) = length arr) as E.
    { destruct (Z.ltb_spec (hole s - 1) 0); lia. }
    rewrite E in Heq. by apply Heq.
Qed.

Lemma fill_from_same_length {A B} (f : ScoreEntry → A) (g : ScoreEntry → B) a b ss :
  length a = length b →
  length (fill_from f a ss) = length (fill_from g b ss).
Proof.
  revert a b. induction ss as [|s ss IH]; intros a b Hab; [done|].
  simpl. apply IH. rewrite !length_array_set. by rewrite Hab.
Qed.

Lemma sum_Z_app l1 l2 : sum_Z (l1 ++ l2) = sum_Z l1 + sum_Z l2.
Proof.
  induction l1 as [|x l1 IH]; [unfold sum_Z; simpl; lia|].
  unfold sum_Z in *. simpl. rewrite IH. lia.
Qed.

Lemma foldl_points (arr : list (option Z)) (a : Z) :
  foldl (λ sum points, sum + default 0 points) a arr =
  a + sum_Z (default 0 <$> arr).
Proof.
  revert a. induction arr as [|x arr IH]; intros a.
  - unfold sum_Z. simpl. lia.
  - cbn [foldl]. rewrite IH, fmap_cons, sum_Z_cons. lia.
Qed.

Lemma sum_insert_free (arr : list (option Z)) (n : nat) (v : Z) :
  arr !! n = Some None →
  sum_Z (default 0 <$> <[n := Some v]> arr) = sum_Z (default 0 <$> arr) + v.
Proof.
  revert n. induction arr as [|x arr IH]; intros n Hn; [done|].
  destruct n as [|n]; cbn [lookup list_lookup] in Hn.
  - injection Hn as ->. cbn [insert list_insert]. rewrite !fmap_cons, !sum_Z_cons.
    simpl. lia.
  - cbn [insert list_insert]. rewrite !fmap_cons, !sum_Z_cons.
    rewrite <- Z.add_assoc. f_equal. by apply IH.
Qed.

Lemma sum_array_set_free (arr : list (option Z)) (j : Z) (v : Z) :
  0 ≤ j → slot arr j = None →
  sum_Z (default 0 <$> array_set None arr j (Some v)) =
  sum_Z (default 0 <$> arr) + v.
Proof.
  intros Hj Hfree. unfold slot, array_get in Hfree. unfold array_set.
  destruct (Z.ltb_spec j 0); [lia|]. cbv zeta.
  destruct (Nat.ltb_spec (Z.to_nat j) (length arr)) as [Hin|Hout].
  - apply sum_insert_free.
    destruct (lookup_lt_is_Some_2 arr _ Hin) as [x Hx].
    rewrite Hx in Hfree |- *. simpl in Hfree. by rewrite Hfree.
  - rewrite !fmap_app, !sum_Z_app, fmap_replicate.
    assert (∀ n, sum_Z (replicate n (default 0 (@None Z))) = 0) as ->.
    { induction n as [|n IH]; [done|].
      change (replicate (S n) (default 0 (@None Z)))
        with (0 :: replicate n (default 0 (@None Z))).
      by rewrite sum_Z_cons, IH. }
    rewrite fmap_cons, sum_Z_cons. unfold sum_Z at 2. simpl. lia.
Qed.

Lemma fill_from_sum (f : ScoreEntry → Z) arr ss :
  NoDup (hole <$> ss) →
  (∀ s, s ∈ ss → slot arr (hole s - 1) = None) →
  sum_Z (default 0 <$> fill_from f arr ss) =
  sum_Z (default 0 <$> arr) + sum_Z (f <$> filter (λ s, 1 ≤ hole s) ss).
Proof.
  revert arr. induction ss as [|s ss IH]; intros arr Hnd Hfree.
  { unfold sum_Z at 3. simpl. lia. }
  rewrite fmap_cons in Hnd. apply NoDup_cons in Hnd as [Hfresh Hnd].
  simpl. rewrite IH; [|done|].
  - destruct (decide (1 ≤ hole s)) as [Hs|Hs].
    + rewrite filter_cons_True by done. rewrite fmap_cons.
      rewrite sum_array_set_free; [|lia|apply Hfree; left].
      rewrite sum_Z_cons. lia.
    + rewrite filter_cons_False by done.
      unfold array_set. by destruct (Z.ltb_spec (hole s - 1) 0); [|lia].
  - intros s' Hs'. rewrite slot_array_set.
    destruct (decide _) as [[_ E]|_]; [|apply Hfree; by right].
    exfalso. apply Hfresh. replace (hole s) with (hole s') by lia.
    by apply list_elem_of_fmap_2.
Qed.

Lemma jseq_true (a b : number) : jseq a b → a = b.
Proof.
  destruct a, b; simpl; try done. by intros ->%Is_true_true%Z.eqb_eq.
Qed.

Lemma NoDup_holes (t : Tournament) (a : string) (d : number) :
  NoDup (entry_key <$> scores t) →
  NoDup (hole <$> filter (λ s, playerId s = a ∧ jseq (round s) d) (scores t)).
Proof.
  generalize (scores t). intros l. induction l as [|s l IH]; intros Hnd.
  { constructor. }
  rewrite fmap_cons in Hnd. apply NoDup_cons in Hnd as [Hfresh Hnd].
  destruct (decide (playerId s = a ∧ jseq (round s) d)) as [[Ha Hd]|Hno].
  - rewrite filter_cons_True by done. rewrite fmap_cons. apply NoDup_cons.
    split; [|by apply IH].
    intros (s' & Hh & [[Ha' Hd'] Hs']%list_elem_of_filter)%list_elem_of_fmap.
    apply jseq_true in Hd, Hd'.
    apply Hfresh. apply list_elem_of_fmap. exists s'. split; [|done].
    unfold entry_key. by rewrite Hh, Ha, Hd, Ha', Hd'.
  - rewrite filter_cons_False by done. by apply IH.
Qed.

Lemma filter_all {A} (P : A → Prop) `{!∀ x, Decision (P x)} (l : list A) :
  Forall P l → filter P l = l.
Proof.
  induction 1 as [|x l Hx _ IH]; [done|].
  by rewrite filter_cons_True, IH.
Qed.

Lemma foldl_add_sum {A} (g : A → Z) (l : list A) (a : Z) :
  foldl (λ acc s, acc + g s) a l = a + sum_Z (g <$> l).
Proof.
  revert a. induction l as [|x l IH]; intros a.
  - unfold sum_Z. simpl. lia.
  - cbn [foldl]. rewrite IH, fmap_cons, sum_Z_cons. lia.
Qed.

Lemma stableford_points_range st p R h :
  0 ≤ calculateStablefordPoints st p R h ≤ 4.
Proof. unfold calculateStablefordPoints. cbv zeta. repeat case_match; lia. Qed.

Lemma sum_Z_range (g : ScoreEntry → Z) (l : list ScoreEntry) (c : Z) :
  (∀ s, 0 ≤ g s ≤ c) → 0 ≤ sum_Z (g <$> l) ≤ c * Z.of_nat (length l).
Proof.
  intros Hg. induction l as [|x l IH].
  - unfold sum_Z. simpl. lia.
  - rewrite fmap_cons, sum_Z_cons. cbn [length]. specialize (Hg x). lia.
Qed.

(** The lines of the leaderboard are the lines of the roster's players. *)
Lemma leaderboard_elem tournaments tid t r e :
  tournaments !! tid = Some t →
  e ∈ generateLeaderboard tournaments tid r →
  ∃ p k, p ∈ players t ∧ e = set_position k (leaderboard_entry t r p).
Proof.
  intros Ht. unfold generateLeaderboard. rewrite Ht. unfold generateLeaderboard_in.
  intros (i & y & -> & Hy)%elem_of_lookup_imap.
  apply list_elem_of_lookup_2 in Hy. rewrite Array_sort_Permutation in Hy.
  apply list_elem_of_fmap in Hy as (p & -> & Hp). by exists p, (Z.of_nat i + 1).
Qed.

Lemma entry_total t r p :
  NoDup (entry_key <$> scores t) →
  totalStablefordPoints (leaderboard_entry t r p) =
  sum_Z (points_of (receivedStrokes p) <$>
         filter (λ s, 1 ≤ hole s)
                (scores_of t p (default (currentRound t) (Num <$> nonzero r)))).
Proof.
  intros Hnd. cbn [leaderboard_entry totalStablefordPoints].
  set (ss := scores_of t p (default (currentRound t) (Num <$> nonzero r))).
  rewrite foldl_points.
  change (fill_stablefordPoints p ss)
    with (fill_from (points_of (receivedStrokes p)) (replicate 18 None) ss).
  rewrite fill_from_sum.
  - assert (sum_Z (default 0 <$> replicate 18 (@None Z)) = 0) as -> by done. lia.
  - by apply NoDup_holes.
  - intros s _. apply slot_replicate.
Qed.

(** X13. The Stableford total of a leaderboard line.  With no key stored
    twice, it is the sum of the points of the player's entries of the
    display round, each hole counted once; an entry on a hole below 1 is
    among the holes completed but adds no points.  The total lies between 0
    and four times the holes completed, and the comparison with par takes
    two points per hole completed. *)
Theorem stableford_total_counts_each_hole_once tournaments tid t r e :
  tournaments !! tid = Some t →
  NoDup (entry_key <$> scores t) →
  e ∈ generateLeaderboard tournaments tid r →
  let ss := entries_of t e (default (currentRound t) (Num <$> nonzero r)) in
  holesCompleted e = Z.of_nat (length ss) ∧
  totalStablefordPoints e =
    sum_Z (points_of (le_receivedStrokes e) <$> filter (λ s, 1 ≤ hole s) ss) ∧
  stablefordVsPar e = totalStablefordPoints e - 2 * holesCompleted e ∧
  0 ≤ totalStablefordPoints e ≤ 4 * holesCompleted e.
Proof.
  intros Ht Hnd He. destruct (leaderboard_elem _ _ _ _ _ Ht He) as (p & k & Hp & ->).
  pose proof (entry_total t r p Hnd) as Htotal.
  cbv zeta. unfold entries_of. cbn [set_position leaderboard_entry le_playerId
    holesCompleted totalStablefordPoints stablefordVsPar le_receivedStrokes] in *.
  fold (scores_of t p (default (currentRound t) (Num <$> nonzero r))) in *.
  set (ss := scores_of t p (default (currentRound t) (Num <$> nonzero r))) in *.
  rewrite Htotal. split; [done|]. split; [done|]. split; [lia|].
  pose proof (sum_Z_range (points_of (receivedStrokes p))
                (filter (λ s, 1 ≤ hole s) ss) 4) as Hrange.
  pose proof (length_filter (λ s, 1 ≤ hole s) ss) as Hlen.
  assert (∀ s, 0 ≤ points_of (receivedStrokes p) s ≤ 4) as Hpts.
  { intros s. apply stableford_points_range. }
  specialize (Hrange Hpts). lia.
Qed.

(** X14. The hole arrays of a leaderboard line.  They have at least 18
    slots, and exactly 18 when no entry of the round is on a hole beyond 18.
    With no key stored twice, the slot of every entry's hole holds the
    entry's strokes and its Stableford points, and the slot of a hole the
    player has no entry on is free. *)
Theorem hole_arrays_hold_the_round tournaments tid t r e :
  tournaments !! tid = Some t →
  NoDup (entry_key <$> scores t) →
  e ∈ generateLeaderboard tournaments tid r →
  let ss := entries_of t e (default (currentRound t) (Num <$> nonzero r)) in
  (18 ≤ length (holeScores e))%nat ∧
  length (stablefordPoints e) = length (holeScores e) ∧
  (Forall (λ s, hole s ≤ 18) ss → length (holeScores e) = 18%nat) ∧
  (∀ s, s ∈ ss → 1 ≤ hole s →
     slot (holeScores e) (hole s - 1) = Some (strokes s) ∧
     slot (stablefordPoints e) (hole s - 1) =
       Some (points_of (le_receivedStrokes e) s)) ∧
  (∀ h, (∀ s, s ∈ ss → hole s ≠ h) →
     slot (holeScores e) (h - 1) = None ∧
     slot (stablefordPoints e) (h - 1) = None).
Proof.
  intros Ht Hnd He. destruct (leaderboard_elem _ _ _ _ _ Ht He) as (p & k & Hp & ->).
  cbv zeta. unfold entries_of. cbn [set_position leaderboard_entry le_playerId
    holeScores stablefordPoints le_receivedStrokes].
  fold (scores_of t p (default (currentRound t) (Num <$> nonzero r))).
  set (ss := scores_of t p (default (currentRound t) (Num <$> nonzero r))).
  change (fill_stablefordPoints p ss)
    with (fill_from (points_of (receivedStrokes p)) (replicate 18 None) ss).
  change (fill_holeScores ss) with (fill_from strokes (replicate 18 None) ss).
  assert (NoDup (hole <$> ss)) as Hholes by (by apply NoDup_holes).
  destruct (fill_from_length strokes (replicate 18 None) ss) as [Hle Heq].
  rewrite length_replicate in Hle, Heq.
  split; [done|]. split; [|split; [done|split]].
  - apply fill_from_same_length. by rewrite !length_replicate.
  - intros s Hs Hh. split; by apply fill_from_slot.
  - intros h Hh. rewrite !fill_from_untouched.
    + by rewrite !slot_replicate.
    + intros s Hs _ E. apply (Hh s Hs). lia.
    + intros s Hs _ E. apply (Hh s Hs). lia.
Qed.

(** X15. The round-by-round breakdown.  A tournament of one round has none;
    a tournament of more rounds has one row per round, in order.  The points
    of a row are the sum over all the player's entries of that round, and
    the row of the display round repeats the line itself: the same strokes
    and the same hole arrays, and, with no key stored twice and no hole
    below 1, the same Stableford total. *)
Theorem round_breakdown tournaments tid t r e :
  tournaments !! tid = Some t →
  NoDup (entry_key <$> scores t) →
  e ∈ generateLeaderboard tournaments tid r →
  let d := default (currentRound t) (Num <$> nonzero r) in
  (totalRounds t ≤ 1 → roundScores e = None) ∧
  (1 < totalRounds t →
   ∃ rows, roundScores e = Some rows ∧
     Z.of_nat (length rows) = totalRounds t ∧
     ∀ k row, rows !! k = Some row →
       rs_round row = Z.of_nat k + 1 ∧
       roundStablefordPoints row =
         sum_Z (points_of (le_receivedStrokes e) <$>
                entries_of t e (Num (rs_round row))) ∧
       (Num (rs_round row) = d →
          roundStrokes row = totalStrokes e ∧
          rs_holeScores row = holeScores e ∧
          rs_stablefordPoints row = stablefordPoints e ∧
          (Forall (λ s, 1 ≤ hole s) (entries_of t e d) →
           roundStablefordPoints row = totalStablefordPoints e))).
Proof.
  intros Ht Hnd He.
  destruct (leaderboard_elem _ _ _ _ _ Ht He) as (p & k & Hp & ->).
  pose proof (entry_total t r p Hnd) as Htotal.
  cbv zeta in *. unfold entries_of in *. cbn [set_position leaderboard_entry le_playerId
    roundScores totalStrokes holeScores stablefordPoints totalStablefordPoints
    le_receivedStrokes] in *.
  split.
  - intros Hone. by destruct (Z.ltb_spec 1 (totalRounds t)); [lia|].
  - intros Hmore. destruct (Z.ltb_spec 1 (totalRounds t)); [|lia].
    eexists. split; [done|]. split.
    { rewrite length_fmap, length_seq. lia. }
    intros i row Hrow. rewrite list_lookup_fmap in Hrow.
    destruct (seq 1 (Z.to_nat (totalRounds t)) !! i) as [n|] eqn:Hn; [|done].
    apply lookup_seq in Hn as [-> Hi]. injection Hrow as <-.
    cbn [roundScores_of rs_round roundStablefordPoints roundStrokes rs_holeScores
         rs_stablefordPoints].
    split; [lia|]. split.
    { rewrite foldl_add_sum. done. }
    intros Hd. unfold scores_of. rewrite <- Hd. split; [done|]. split; [done|].
    split; [done|]. intros Hholes. unfold scores_of in Htotal.
    rewrite <- Hd in Htotal.
    rewrite Htotal, foldl_add_sum.
    rewrite (filter_all (λ s, 1 ≤ hole s)) by exact Hholes.
    apply Z.add_0_l.
Qed.

(** ** The team sidegame: holes, points, matches *)

Lemma holes_set_spec (hs : list Z) :
  NoDup (holes_set hs) ∧ ∀ h, h ∈ holes_set hs ↔ h ∈ hs.
Proof.
  unfold holes_set.
  assert (∀ acc, NoDup acc →
            NoDup (foldl (λ acc h, if decide (h ∈ acc) then acc else acc ++ [h]) acc hs) ∧
            ∀ h, h ∈ foldl (λ acc h, if decide (h ∈ acc) then acc else acc ++ [h]) acc hs
                 ↔ h ∈ acc ∨ h ∈ hs) as H.
  { induction hs as [|x hs IH]; intros acc Hacc.
    - split; [done|]. intros h. rewrite elem_of_nil. tauto.
    - cbn [foldl]. destruct (decide (x ∈ acc)) as [Hin|Hout].
      + destruct (IH acc Hacc) as [Hnd Hel]. split; [done|].
        intros h. rewrite Hel, elem_of_cons. split; [tauto|].
        intros [?|[->|?]]; tauto.
      + destruct (IH (acc ++ [x])) as [Hnd Hel].
        { apply NoDup_app. split; [done|]. split; [|apply NoDup_singleton].
          intros y Hy ->%list_elem_of_singleton. done. }
        split; [done|]. intros h.
        rewrite Hel, elem_of_app, list_elem_of_singleton, elem_of_cons. tauto. }
  destruct (H [] (NoDup_nil_2)) as [Hnd Hel]. split; [done|].
  intros h. rewrite Hel, elem_of_nil. tauto.
Qed.

Lemma holesWithScores_elem t h :
  h ∈ holesWithScores t ↔
  ∃ s, s ∈ scores t ∧ jseq (round s) (currentRound t) ∧ hole s = h.
Proof.
  unfold holesWithScores. rewrite (proj2 (holes_set_spec _)), list_elem_of_fmap.
  split.
  - intros (s & -> & [Hr Hs]%list_elem_of_filter). by exists s.
  - intros (s & Hs & Hr & <-). exists s. split; [done|]. by apply list_elem_of_filter.
Qed.

Lemma foldl_insert_rows {V} (f : Z → V) (hs : list Z) (m : gmap Z V) (h : Z) :
  foldl (λ acc h, <[h := f h]> acc) m hs !! h =
  if decide (h ∈ hs) then Some (f h) else m !! h.
Proof.
  revert m. induction hs as [|x hs IH]; intros m.
  { cbn [foldl]. destruct (decide _) as [Hin|_]; [|done]. by apply elem_of_nil in Hin. }
  cbn [foldl]. rewrite IH.
  destruct (decide (h ∈ hs)) as [Hin|Hout].
  - rewrite decide_True; [done|by right].
  - destruct (decide (x = h)) as [->|Hne].
    + rewrite decide_True by left. by rewrite lookup_insert_eq.
    + rewrite decide_False.
      * by rewrite lookup_insert_ne.
      * intros [E|?]%elem_of_cons; [by apply Hne|done].
Qed.

Lemma foldl_insert_size {V} (f : Z → V) (hs : list Z) (m : gmap Z V) :
  NoDup hs → (∀ h, h ∈ hs → m !! h = None) →
  size (foldl (λ acc h, <[h := f h]> acc) m hs) = (size m + length hs)%nat.
Proof.
  revert m. induction hs as [|x hs IH]; intros m Hnd Hfresh.
  { cbn [foldl length]. lia. }
  apply NoDup_cons in Hnd as [Hx Hnd]. cbn [foldl length]. rewrite IH.
  - rewrite map_size_insert_None; [lia|]. apply Hfresh. left.
  - done.
  - intros h Hh. rewrite lookup_insert_ne.
    + apply Hfresh. by right.
    + intros ->. done.
Qed.

Lemma team_leaderboard_elem t sidegames sid sg e :
  sidegames !! sid = Some sg →
  e ∈ generateTeamLeaderboard (Some t) sidegames sid →
  gameType sg = sum_match ∧
  ∃ team, team ∈ sg_teams sg ∧ teamId e = team_id team ∧
    totalPoints e =
      or_zero (foldl (award_hole t) (zero_points (sg_teams sg)) (holesWithScores t)
               !! team_id team) ∧
    matchesPlayed e = Z.of_nat (length (holesWithScores t)).
Proof.
  intros Hsg. unfold generateTeamLeaderboard. rewrite Hsg.
  destruct (decide (gameType sg ≠ sum_match)) as [|Hty].
  { by intros ?%elem_of_nil. }
  intros (i & y & -> & Hy)%elem_of_lookup_imap.
  apply list_elem_of_lookup_2 in Hy. rewrite Array_sort_Permutation in Hy.
  apply list_elem_of_fmap in Hy as (team & -> & Hteam).
  split; [by destruct (decide (gameType sg = sum_match))|]. by exists team.
Qed.

Lemma add_to_lookup (obj : gmap string number) (w k : string) (v : number) :
  add_to obj w v !! k =
  if decide (w = k) then Some (jsadd (default NaN (obj !! k)) v) else obj !! k.
Proof.
  unfold add_to. destruct (decide (w = k)) as [->|Hne].
  - by rewrite lookup_insert_eq.
  - by rewrite lookup_insert_ne.
Qed.

Lemma award_hole_bounded t (obj : gmap string number) (h c : Z) :
  (∀ k v, obj !! k = Some v → v = NaN ∨ ∃ n, v = Num n ∧ - c ≤ n ≤ c) →
  ∀ k v, award_hole t obj h !! k = Some v →
    v = NaN ∨ ∃ n, v = Num n ∧ - (c + 1) ≤ n ≤ c + 1.
Proof.
  intros Hobj k v. unfold award_hole. cbv zeta.
  assert (∀ v, obj !! k = Some v → v = NaN ∨ ∃ n, v = Num n ∧ - (c + 1) ≤ n ≤ c + 1)
    as Hweak.
  { intros v' [->|(n & -> & ?)]%Hobj; [by left|right]. exists n. split; [done|lia]. }
  destruct (negb _); [|apply Hweak].
  pose proof (Hobj k) as Hk.
  destruct (teams_at (Math_min _) _) as [|w [|? ?]];
    destruct (teams_at (Math_max _) _) as [|lo [|? ?]];
    rewrite ?add_to_lookup; try apply Hweak;
    repeat (destruct (decide _) as [?|?]); try apply Hweak;
    destruct (obj !! k) as [x|]; simpl;
    try (destruct (Hk x eq_refl) as [->|(m & -> & ?)]);
    intros [= <-]; simpl; try (by left);
    right; eexists; (split; [done|lia]).
Qed.

Lemma team_points_bounded t (ts : list Team) (hs : list Z) k v :
  foldl (award_hole t) (zero_points ts) hs !! k = Some v →
  v = NaN ∨ ∃ n, v = Num n ∧ - Z.of_nat (length hs) ≤ n ≤ Z.of_nat (length hs).
Proof.
  assert (∀ obj c,
            (∀ k v, obj !! k = Some v → v = NaN ∨ ∃ n, v = Num n ∧ - c ≤ n ≤ c) →
            ∀ k v, foldl (award_hole t) obj hs !! k = Some v →
              v = NaN ∨ ∃ n, v = Num n ∧
                - (c + Z.of_nat (length hs)) ≤ n ≤ c + Z.of_nat (length hs)) as H.
  { induction hs as [|h hs IH]; intros obj c Hobj k' v' Hk'.
    - cbn [foldl length] in *. destruct (Hobj _ _ Hk') as [->|(n & -> & ?)]; [by left|].
      right. exists n. split; [done|lia].
    - cbn [foldl length] in *.
      destruct (IH _ (c + 1) (award_hole_bounded t obj h c Hobj) _ _ Hk')
        as [->|(n & -> & ?)]; [by left|].
      right. exists n. split; [done|lia]. }
  intros Hk.
  assert (∀ k v, zero_points ts !! k = Some v →
            v = NaN ∨ ∃ n, v = Num n ∧ - 0 ≤ n ≤ 0) as Hzero.
  { intros k' v'. rewrite (zero_points_lookup ts k'). destruct (decide _); [|done].
    intros [= <-]. right. exists 0. split; [done|lia]. }
  destruct (H _ 0 Hzero k v Hk) as [->|(n & -> & ?)]; [by left|].
  right. exists n. split; [done|lia].
Qed.

(** X16. No team can be ahead or behind by more than the holes played: on
    every line of the team leaderboard the points are a number between minus
    and plus the matches played, whatever the ledger holds. *)
Theorem team_points_within_matches t sidegames sid e :
  e ∈ generateTeamLeaderboard (Some t) sidegames sid →
  ∃ n, totalPoints e = Num n ∧ - matchesPlayed e ≤ n ≤ matchesPlayed e.
Proof.
  intros He. destruct (sidegames !! sid) as [sg|] eqn:Hsg.
  2: { unfold generateTeamLeaderboard in He. rewrite Hsg in He.
       by apply elem_of_nil in He. }
  destruct (team_leaderboard_elem _ _ _ _ _ Hsg He)
    as (_ & team & _ & _ & -> & ->).
  destruct (foldl _ _ _ !! team_id team) as [v|] eqn:Hv.
  - destruct (team_points_bounded _ _ _ _ _ Hv) as [->|(n & -> & Hn)].
    + exists 0. split; [done|lia].
    + exists n. split; [apply or_zero_Num|done].
  - exists 0. split; [done|lia].
Qed.

(** X17. The live scorecard of a sum match has a row for exactly the holes
    that have a score in the current round, the row being the teams' totals
    of that hole, and the matches played on every line of the team
    leaderboard count its rows. *)
Theorem live_scorecard_rows t sidegames sid sg :
  sidegames !! sid = Some sg → gameType sg = sum_match →
  let live := getSumMatchLiveScorecard (Some t) sidegames sid in
  (∀ s, s ∈ scores t → jseq (round s) (currentRound t) →
     live !! hole s = Some (hole_totals t (hole s))) ∧
  (∀ h, (∀ s, s ∈ scores t → jseq (round s) (currentRound t) → hole s ≠ h) →
     live !! h = None) ∧
  (∀ e, e ∈ generateTeamLeaderboard (Some t) sidegames sid →
     matchesPlayed e = Z.of_nat (size live)).
Proof.
  intros Hsg Hty. cbv zeta. unfold getSumMatchLiveScorecard. rewrite Hsg.
  rewrite decide_False by (intros E; by apply E).
  split; [|split].
  - intros s Hs Hr. rewrite foldl_insert_rows, decide_True; [done|].
    apply holesWithScores_elem. by exists s.
  - intros h Hh. rewrite foldl_insert_rows, decide_False; [done|].
    intros (s & Hs & Hr & E)%holesWithScores_elem. by apply (Hh s).
  - intros e He.
    destruct (team_leaderboard_elem _ _ _ _ _ Hsg He) as (_ & team & _ & _ & _ & ->).
    rewrite foldl_insert_size.
    + by rewrite map_size_empty.
    + apply holes_set_spec.
    + done.
Qed.

Lemma filter_hole_other (h h' : Z) (ms : list TeamMatch) :
  h' ≠ h →
  filter (λ x, m_hole x = h') (filter (λ m, m_hole m ≠ h) ms) =
  filter (λ x, m_hole x = h') ms.
Proof.
  intros Hne. induction ms as [|m ms IH]; [done|].
  destruct (decide (m_hole m = h)) as [E|E].
  - rewrite (filter_cons_False (λ m, m_hole m ≠ h)) by (intros ?; done).
    rewrite (filter_cons_False (λ x, m_hole x = h')) by lia. done.
  - rewrite (filter_cons_True (λ m, m_hole m ≠ h)) by done.
    destruct (decide (m_hole m = h')) as [E'|E'].
    + rewrite !(filter_cons_True (λ x, m_hole x = h')) by done. by rewrite IH.
    + rewrite !(filter_cons_False (λ x, m_hole x = h')) by done. done.
Qed.

Lemma filter_hole_same (h : Z) (ms : list TeamMatch) :
  filter (λ x, m_hole x = h) (filter (λ m, m_hole m ≠ h) ms) = [].
Proof.
  induction ms as [|m ms IH]; [done|].
  destruct (decide (m_hole m = h)) as [E|E].
  - by rewrite (filter_cons_False (λ m, m_hole m ≠ h)) by (intros ?; done).
  - rewrite (filter_cons_True (λ m, m_hole m ≠ h)) by done.
    by rewrite (filter_cons_False (λ x, m_hole x = h)) by done.
Qed.

(** X18. One match per hole.  Processing a hole of an unknown sidegame
    returns nothing and changes nothing.  On a known sidegame the new match
    becomes the only match of its hole, whatever was stored for the hole
    before, the matches of the other holes stay, and nothing else of the
    sidegame and no other sidegame changes. *)
Theorem processHoleMatch_one_match_per_hole uuid now sidegames sid h results :
  (sidegames !! sid = None →
   processHoleMatch uuid now sidegames sid h results = (None, sidegames)) ∧
  (∀ sg, sidegames !! sid = Some sg →
   ∃ m sg',
     processHoleMatch uuid now sidegames sid h results
       = (Some m, <[sid := sg']> sidegames) ∧
     m_id m = uuid ∧ m_hole m = h ∧ m_holeResults m = results ∧
     last (matches sg') = Some m ∧
     filter (λ x, m_hole x = h) (matches sg') = [m] ∧
     (∀ h', h' ≠ h →
        filter (λ x, m_hole x = h') (matches sg')
        = filter (λ x, m_hole x = h') (matches sg)) ∧
     (NoDup (m_hole <$> matches sg) → NoDup (m_hole <$> matches sg')) ∧
     sg' = set_matches (matches sg') sg).
Proof.
  unfold processHoleMatch. split.
  - by intros ->.
  - intros sg ->. cbv zeta. eexists _, _. split; [done|].
    cbn [m_id m_hole m_holeResults set_matches matches].
    split; [done|]. split; [done|]. split; [done|].
    split; [by rewrite last_snoc|]. split; [|split; [|split]].
    + rewrite filter_app, filter_hole_same.
      by rewrite filter_cons_True, filter_nil by done.
    + intros h' Hne. rewrite filter_app, filter_hole_other by done.
      rewrite filter_cons_False by (cbn [m_hole]; lia).
      by rewrite filter_nil, app_nil_r.
    + intros Hnd. rewrite fmap_app. apply NoDup_app. split; [|split].
      * eapply sublist_NoDup; [exact Hnd|]. apply fmap_sublist, sublist_filter.
      * intros x (m & -> & [Hm _]%list_elem_of_filter)%list_elem_of_fmap.
        intros (m' & E & ->%list_elem_of_singleton)%list_elem_of_fmap.
        by apply Hm.
      * apply NoDup_singleton.
    + done.
Qed.

(** X19. What one score entered by hand does to a sum match.  The endpoint
    hands the match computation that one result alone, so with a second
    team configured the hole is decided by it: the player's team takes the
    hole against every other team when the score is under par, loses it to
    every other team when it is over par, and nobody scores on a par. *)
Theorem manual_score_decides_hole_alone uuid now sidegames sid sg
    player e team other s p :
  sidegames !! sid = Some sg → gameType sg = sum_match →
  getPlayerTeam (name player) = Some team →
  counts_on_hole team (name player) (hole e) = true →
  other ∈ teams → team_id other ≠ team_id team →
  strokes e = Num s → par e = Num p →
  ∃ m sidegames',
    processHoleMatch uuid now sidegames sid (hole e)
      (manual_sum_match_results player e) = (Some m, sidegames') ∧
    teamPoints m !! team_id team =
      Some (Num (if decide (s < p) then 1 else if decide (p < s) then -1 else 0)) ∧
    ∀ k, k ∈ team_id <$> teams → k ≠ team_id team →
      teamPoints m !! k =
        Some (Num (if decide (s < p) then -1 else if decide (p < s) then 1 else 0)).
Proof.
  intros Hsg Hty Hteam Hcounts Hother Hne Hs Hp.
  unfold processHoleMatch. rewrite Hsg, Hty. cbv zeta.
  eexists _, _. split; [done|]. cbn [teamPoints].
  set (results := manual_sum_match_results player e).
  assert (numeric_object results) as Hnum.
  { unfold numeric_object, results, manual_sum_match_results.
    apply map_Forall_singleton. by rewrite Hs, Hp. }
  set (d := sum_totals results (hole e)).
  assert (∀ k, d !! k =
            if decide (team_id team = k) then Some (Num (0 + (s + - p)))
            else if decide (k ∈ team_id <$> teams) then Some (Num 0) else None) as Hd.
  { intros k. unfold d, sum_totals, results, manual_sum_match_results.
    rewrite map_to_list_singleton. cbn [foldl fst snd].
    unfold add_result. rewrite Hteam, Hcounts, add_to_lookup.
    destruct (decide (team_id team = k)) as [<-|_]; [|apply zero_points_lookup].
    rewrite zero_points_lookup, decide_True.
    - by rewrite Hs, Hp.
    - apply list_elem_of_fmap_2. by apply getPlayerTeam_elem in Hteam. }
  assert (team_id other ∈ team_id <$> teams) as Hin by (by apply list_elem_of_fmap_2).
  assert (∀ k v, d !! k = Some (Num v) →
            calculateSumMatchPoints results (hole e) !! k =
            Some (Num (if decide (v = 0 + (s + - p))
                       then (if decide (s < p) then (if decide (v = 0) then -1 else 1)
                             else if decide (p < s) then -1 else 0)
                       else (if decide (s < p) then -1
                             else if decide (p < s) then 1 else 0)))) as Hpts.
  { intros k v Hk.
    destruct (calculateSumMatchPoints_lookup results (hole e) k v Hnum Hk)
      as (m & M & Hb & Hw & (km & Hm) & (kM & HM) & ->).
    fold d in Hb, Hw, Hm, HM.
    pose proof (Hb (team_id team) (0 + (s + - p))) as Hb1.
    pose proof (Hb (team_id other) 0) as Hb2.
    pose proof (Hw (team_id team) (0 + (s + - p))) as Hw1.
    pose proof (Hw (team_id other) 0) as Hw2.
    rewrite Hd in Hb1, Hb2, Hw1, Hw2, Hm, HM, Hk.
    rewrite decide_True in Hb1, Hw1 by done.
    rewrite decide_False, decide_True in Hb2, Hw2 by done.
    specialize (Hb1 eq_refl). specialize (Hb2 eq_refl).
    specialize (Hw1 eq_refl). specialize (Hw2 eq_refl).
    assert (m = 0 + (s + - p) ∨ m = 0) as Hm'.
    { repeat case_decide; simplify_eq; auto. }
    assert (M = 0 + (s + - p) ∨ M = 0) as HM'.
    { repeat case_decide; simplify_eq; auto. }
    assert (v = 0 + (s + - p) ∨ v = 0) as Hv'.
    { repeat case_decide; simplify_eq; auto. }
    do 2 f_equal. repeat case_decide; lia. }
  split.
  - rewrite (Hpts _ (0 + (s + - p))).
    + do 2 f_equal. repeat case_decide; lia.
    + by rewrite Hd, decide_True.
  - intros k Hk Hkne. rewrite (Hpts _ 0).
    + do 2 f_equal. repeat case_decide; lia.
    + rewrite Hd, decide_False, decide_True; done.
Qed.

(** ** The sidegame store and the scorecard *)

Lemma foldl_delete_lookup (l : list TeamSidegame)
    (m : gmap string TeamSidegame) (k : string) :
  foldl (λ m sg, delete (sg_id sg) m) m l !! k =
  if decide (k ∈ sg_id <$> l) then None else m !! k.
Proof.
  revert m. induction l as [|x l IH]; intros m.
  { cbn [foldl]. destruct (decide _) as [Hin|_]; [|done]. by apply elem_of_nil in Hin. }
  cbn [foldl]. rewrite IH, fmap_cons.
  destruct (decide (k ∈ sg_id <$> l)) as [Hin|Hout].
  - rewrite decide_True; [done|by right].
  - destruct (decide (sg_id x = k)) as [<-|Hne].
    + rewrite decide_True by left. by rewrite lookup_delete_eq.
    + rewrite decide_False.
      * by rewrite lookup_delete_ne.
      * intros [E|?]%elem_of_cons; [by apply Hne|done].
Qed.

Lemma filter_none {A} (P : A → Prop) `{!∀ x, Decision (P x)} (l : list A) :
  (∀ x, x ∈ l → ¬ P x) → filter P l = [].
Proof.
  induction l as [|x l IH]; intros Hno; [done|].
  rewrite filter_cons_False by (apply Hno; left). apply IH.
  intros y Hy. apply Hno. by right.
Qed.

Lemma clear_lookup sidegames tid k :
  keyed_by_id sidegames →
  clearTournamentSidegames sidegames tid !! k =
  match sidegames !! k with
  | Some sg => if decide (sg_tournamentId sg = tid) then None else Some sg
  | None => None
  end.
Proof.
  intros Hkeyed. unfold clearTournamentSidegames. cbv zeta.
  rewrite foldl_delete_lookup.
  destruct (decide _) as [Hin|Hout].
  - apply list_elem_of_fmap in Hin as (sg & -> & [Htid Hsg]%list_elem_of_filter).
    apply list_elem_of_fmap in Hsg as ([k' sg'] & -> & Hk'%elem_of_map_to_list).
    cbn [snd] in *. rewrite <- (Hkeyed _ _ Hk') in Hk'. rewrite Hk'.
    by rewrite decide_True.
  - destruct (sidegames !! k) as [sg|] eqn:Hk; [|done].
    destruct (decide (sg_tournamentId sg = tid)) as [Htid|]; [|done].
    exfalso. apply Hout. apply list_elem_of_fmap. exists sg.
    split; [by rewrite (Hkeyed _ _ Hk)|].
    apply list_elem_of_filter. split; [done|].
    apply list_elem_of_fmap. exists (k, sg). split; [done|].
    by apply elem_of_map_to_list.
Qed.

(** X20. The sidegame store.  Creating a sidegame and processing a hole
    keep every sidegame stored under its own id.  On such a store, clearing
    a tournament removes exactly the sidegames of that tournament and keeps
    the others as they are, and clearing again changes nothing. *)
Theorem clearTournamentSidegames_removes_exactly sidegames tid :
  keyed_by_id sidegames →
  let cleared := clearTournamentSidegames sidegames tid in
  (∀ k, cleared !! k =
        match sidegames !! k with
        | Some sg => if decide (sg_tournamentId sg = tid) then None else Some sg
        | None => None
        end) ∧
  keyed_by_id cleared ∧
  clearTournamentSidegames cleared tid = cleared ∧
  (∀ uuid now tid' r ty groups,
     keyed_by_id (createSidegame uuid now sidegames tid' r ty groups).2) ∧
  (∀ uuid now sid h results,
     keyed_by_id (processHoleMatch uuid now sidegames sid h results).2).
Proof.
  intros Hkeyed. cbv zeta.
  assert (keyed_by_id (clearTournamentSidegames sidegames tid)) as Hcleared.
  { intros k sg. rewrite clear_lookup by done.
    destruct (sidegames !! k) as [sg'|] eqn:Hk; [|done].
    destruct (decide _); [done|]. intros [= <-]. by apply (Hkeyed k). }
  split; [intros k; by apply clear_lookup|]. split; [done|]. split; [|split].
  - unfold clearTournamentSidegames at 1. cbv zeta.
    rewrite filter_none; [done|].
    intros sg ([k sg'] & -> & Hk%elem_of_map_to_list)%list_elem_of_fmap.
    cbn [snd]. rewrite clear_lookup in Hk by done.
    destruct (sidegames !! k) as [sg''|]; [|done].
    destruct (decide _) as [|Hne]; [done|]. by injection Hk as <-.
  - intros uuid now tid' r ty groups. unfold createSidegame. cbn [snd].
    by apply map_Forall_insert_2.
  - intros uuid now sid h results. unfold processHoleMatch.
    destruct (sidegames !! sid) as [sg|] eqn:Hsg; [|done].
    cbn [snd]. apply map_Forall_insert_2; [|done].
    cbn [set_matches sg_id]. by apply (Hkeyed sid).
Qed.

Lemma byHole_sorted (l : list ScoreEntry) :
  StronglySorted (λ a b, hole a ≤ hole b) (Array_sort byHole l).
Proof.
  apply (Array_sort_sorted byHole (λ a b, hole a ≤ hole b) (λ _, True)).
  - intros x y _ _. unfold byHole, jsgt. simpl. intros H%Z.ltb_ge. lia.
  - intros x y _ _. unfold byHole, jsgt. simpl. intros H%Z.ltb_lt. lia.
  - intros x y z _ _ _. lia.
  - by apply Forall_true.
Qed.

(** X21. The scorecard of a player.  There is one exactly for a known
    tournament and a player id of its roster.  It holds the player's entries
    of the round asked for (a round 0 is taken as asked, the current round
    is used only when no round is given), each once, ordered by hole; with
    no key stored twice the holes increase strictly. *)
Theorem getPlayerScorecard_sorted tournaments tid pid r :
  (is_Some (getPlayerScorecard tournaments tid pid r) ↔
   ∃ t, tournaments !! tid = Some t ∧ pid ∈ id <$> players t) ∧
  (∀ t sc, tournaments !! tid = Some t →
     getPlayerScorecard tournaments tid pid r = Some sc →
     id (sc_player sc) = pid ∧ sc_player sc ∈ players t ∧
     sc_par sc = t_par t ∧
     sc_scores sc ≡ₚ
       filter (λ s, playerId s = pid ∧
                    jseq (round s) (default (currentRound t) r))
              (scores t) ∧
     (∀ i j a b, (i < j)%nat →
        sc_scores sc !! i = Some a → sc_scores sc !! j = Some b →
        hole a ≤ hole b ∧
        (NoDup (entry_key <$> scores t) → hole a < hole b))).
Proof.
  unfold getPlayerScorecard. split.
  - destruct (tournaments !! tid) as [t|] eqn:Ht.
    + unfold find.
      destruct (list_find _ (players t)) as [[i p]|] eqn:Hfind; cbn [fmap option_fmap option_map snd].
      * split; [|by eauto]. intros _. exists t. split; [done|].
        apply list_find_Some in Hfind as (Hi & Hp%Is_true_true & _).
        apply bool_decide_eq_true in Hp as <-.
        apply list_elem_of_fmap_2. apply list_elem_of_lookup. eauto.
      * split; [by intros [? ?]|]. intros (t' & [= <-] & (p & -> & Hp)%list_elem_of_fmap).
        exfalso. apply list_find_None in Hfind. rewrite Forall_forall in Hfind.
        apply (Hfind p Hp). by apply Is_true_true, bool_decide_eq_true.
    + split; [by intros [? ?]|]. by intros (t' & [=] & _).
  - intros t sc ->. unfold find.
    destruct (list_find _ (players t)) as [[i p]|] eqn:Hfind;
      cbn [fmap option_fmap option_map snd]; [|done].
    intros [= <-]. cbn [sc_player sc_par sc_scores].
    apply list_find_Some in Hfind as (Hi & Hp%Is_true_true & _).
    apply bool_decide_eq_true in Hp.
    split; [done|]. split; [apply list_elem_of_lookup; eauto|]. split; [done|].
    split; [apply Array_sort_Permutation|].
    intros k j a b Hkj Ha Hb.
    pose proof (StronglySorted_pointwise _ _ _ _ _ _ (byHole_sorted _) Hkj Ha Hb) as Hle.
    cbv beta in Hle. split; [done|]. intros Hnd.
    assert (hole a ≠ hole b); [|lia]. intros E.
    assert (NoDup (hole <$> Array_sort byHole
              (filter (λ s, playerId s = pid ∧
                    jseq (round s) (default (currentRound t) r))
                      (scores t)))) as Hholes.
    { rewrite Array_sort_Permutation. by apply NoDup_holes. }
    assert (k = j); [|lia].
    apply (NoDup_lookup _ k j (hole a) Hholes).
    + by rewrite list_lookup_fmap, Ha.
    + by rewrite list_lookup_fmap, Hb, E.
Qed.

(** ** Sequences of scores in a transcription *)

Lemma renumber_lookup startHole scores_ us i :
  renumber startHole scores_ us !! i =
  (λ u, set_hole_strokes (Some (startHole + Z.of_nat i))
          (match nonzero (scores_ !! i) with
           | Some s => Some s
           | None => u_strokes u
           end) u) <$> us !! i.
Proof. unfold renumber. by rewrite list_lookup_imap. Qed.

Lemma renumber_length startHole scores_ us :
  length (renumber startHole scores_ us) = length us.
Proof. unfold renumber. by rewrite length_imap. Qed.

Lemma renumber_twice startHole scores_ us :
  renumber startHole scores_ (renumber startHole scores_ us)
  = renumber startHole scores_ us.
Proof.
  apply list_eq. intros i. rewrite !renumber_lookup.
  destruct (us !! i) as [u|]; [|done]. cbn [fmap option_fmap option_map].
  f_equal. unfold set_hole_strokes. cbn [u_player u_strokes u_action rawTranscription].
  by destruct (nonzero (scores_ !! i)).
Qed.

Lemma renumber_holes startHole scores_ us i :
  (i < length us)%nat →
  Some (startHole + Z.of_nat i) ∈ u_hole <$> renumber startHole scores_ us.
Proof.
  intros Hi. destruct (lookup_lt_is_Some_2 us i Hi) as [u Hu].
  apply list_elem_of_lookup. exists i.
  by rewrite list_lookup_fmap, renumber_lookup, Hu.
Qed.

Lemma fix_renumbered startHole scores_ us :
  length us = length scores_ →
  fixSequentialScoring (renumber startHole scores_ us) (Some (startHole, scores_))
  = renumber startHole scores_ us.
Proof.
  intros Hlen. unfold fixSequentialScoring.
  destruct (decide (scores_ = [])); [done|]. cbv zeta.
  destruct (_ && _ && _); [apply renumber_twice|].
  destruct (_ && _); [|done].
  rewrite bool_decide_eq_true_2; [done|].
  apply Forall_forall. intros i [_ Hi]%elem_of_seq.
  apply renumber_holes. lia.
Qed.

Lemma fix_cases us m :
  (fixSequentialScoring us m = us ∧
   ∀ startHole scores_, m = Some (startHole, scores_) →
     length us = length scores_ → (1 < length scores_)%nat →
     ∀ i, (i < length scores_)%nat →
       Some (startHole + Z.of_nat i) ∈ u_hole <$> us) ∨
  (∃ startHole scores_, m = Some (startHole, scores_) ∧
     length us = length scores_ ∧
     fixSequentialScoring us m = renumber startHole scores_ us).
Proof.
  unfold fixSequentialScoring.
  destruct m as [[startHole scores_]|]; [|by left].
  destruct (decide (scores_ = [])) as [Hnil|Hnn].
  { left. split; [done|]. intros ? ? [= ? ?]; subst; intros _ Hlen.
    simpl in Hlen. lia. }
  cbv zeta.
  destruct (_ && bool_decide (length us = length scores_) && _) eqn:Hsame.
  { right. exists startHole, scores_. split; [done|]. split; [|done].
    apply andb_prop in Hsame as [[_ Hlen%bool_decide_eq_true]%andb_prop _]. done. }
  destruct (bool_decide (length us = length scores_) && _) eqn:Hcond.
  2: { left. split; [done|]. intros ? ? [= ? ?]; subst; intros Hlen Hmore i Hi.
       rewrite bool_decide_eq_true_2, bool_decide_eq_true_2 in Hcond; done. }
  apply andb_prop in Hcond as [Hlen%bool_decide_eq_true _].
  destruct (bool_decide (Forall _ (seq 0 (length scores_)))) eqn:Hcorrect; cbn [negb].
  2: { right. by exists startHole, scores_. }
  left. split; [done|]. intros ? ? [= ? ?]; subst; intros _ _ i Hi.
  apply bool_decide_eq_true in Hcorrect. rewrite Forall_forall in Hcorrect.
  apply Hcorrect. apply elem_of_seq. lia.
Qed.

(** X22. Repairing a spoken sequence of scores.  The repair keeps the number
    of updates and, place by place, their player, action and transcription.
    It either returns the updates as they are, or gives all of them the
    consecutive holes from the starting hole on, with the strokes of the
    sequence wherever it has a number other than 0.  When there are as many
    updates as numbers, and more than one, every hole of the sequence occurs
    in the result.  Repairing a second time changes nothing. *)
Theorem fixSequentialScoring_result us m :
  let us' := fixSequentialScoring us m in
  length us' = length us ∧
  (∀ i u', us' !! i = Some u' →
     ∃ u, us !! i = Some u ∧ u_player u' = u_player u ∧
          u_action u' = u_action u ∧ rawTranscription u' = rawTranscription u) ∧
  (us' = us ∨
   ∃ startHole scores_, m = Some (startHole, scores_) ∧
     length us = length scores_ ∧
     ∀ i u', us' !! i = Some u' →
       u_hole u' = Some (startHole + Z.of_nat i) ∧
       ∀ s, scores_ !! i = Some s → s ≠ 0 → u_strokes u' = Some s) ∧
  (∀ startHole scores_, m = Some (startHole, scores_) →
     length us = length scores_ → (1 < length scores_)%nat →
     ∀ i, (i < length scores_)%nat →
       Some (startHole + Z.of_nat i) ∈ u_hole <$> us') ∧
  fixSequentialScoring us' m = us'.
Proof.
  cbv zeta. destruct (fix_cases us m) as [[E Hholes]|(startHole & scores_ & -> & Hlen & E)];
    rewrite !E.
  - split; [done|]. split; [by eauto|]. split; [by left|]. split; [done|]. done.
  - split; [apply renumber_length|]. split; [|split; [|split]].
    + intros i u'. rewrite renumber_lookup.
      destruct (us !! i) as [u|]; [|done]. intros [= <-]. by exists u.
    + right. exists startHole, scores_. split; [done|]. split; [done|].
      intros i u'. rewrite renumber_lookup.
      destruct (us !! i) as [u|]; [|done]. intros [= <-].
      split; [done|]. intros s Hs Hnz. cbn [set_hole_strokes u_strokes].
      rewrite Hs. cbn [nonzero]. by destruct (Z.eqb_spec s 0).
    + intros ? ? [= ? ?]; subst; intros _ _ i Hi. apply renumber_holes. lia.
    + by apply fix_renumbered.
Qed.
(** ** Moving to the next round *)

(** X23. Advancing a tournament fails, and changes nothing, exactly when
    [currentRound >= totalRounds] holds.  So with a current round that is an
    integer it succeeds exactly when that round is before the last one; with
    a current round that is [NaN] (which [setCurrentRound] accepts, being
    neither below 1 nor above the number of rounds) it succeeds always, and
    the round stays [NaN].  On success the current round is moved on by one
    and the ledger and the roster are left as they are, the players' hole
    pointers included; from a round within the rounds of the tournament this
    is what [setCurrentRound] does for the next round; and from an integer
    round the leaderboard shown by default afterwards is the one that could
    be asked for the next round before. *)
Theorem advance_starts_next_round tournaments tid t :
  tournaments !! tid = Some t →
  let r := advanceToNextRound tournaments tid in
  (r.1 = false ↔ jsge (currentRound t) (Num (totalRounds t))) ∧
  (∀ c, currentRound t = Num c → (r.1 = true ↔ c < totalRounds t)) ∧
  (currentRound t = NaN →
   r.1 = true ∧ ∃ t', r.2 !! tid = Some t' ∧ currentRound t' = NaN) ∧
  (r.1 = false → r.2 = tournaments) ∧
  (r.1 = true →
   ∃ t', r.2 = <[tid := t']> tournaments ∧
     currentRound t' = jsadd (currentRound t) (Num 1) ∧
     totalRounds t' = totalRounds t ∧
     players t' = players t ∧ scores t' = scores t ∧
     (round_in_bounds t →
      r = setCurrentRound tournaments tid (jsadd (currentRound t) (Num 1))) ∧
     (∀ c, currentRound t = Num c → c + 1 ≠ 0 →
      generateLeaderboard r.2 tid None
      = generateLeaderboard tournaments tid (Some (c + 1)))).
Proof.
  intros Ht. cbv zeta. unfold advanceToNextRound. rewrite Ht.
  split; [|split; [|split]].
  - destruct (jsge _ _); cbn [fst]; split; done.
  - intros c ->. unfold jsge, jsle. simpl.
    destruct (Z.ltb_spec (totalRounds t) c);
      destruct (Z.eqb_spec (totalRounds t) c); cbn [fst orb]; split;
      first [done | lia].
  - intros ->. cbn [jsge jsle jslt jseq orb fst snd]. split; [done|].
    eexists. split; [by rewrite lookup_insert_eq|]. done.
  - destruct (jsge _ _) eqn:Hge; cbn [fst snd]; [done|].
    split; [done|]. intros _.
    eexists. split; [done|].
    cbn [set_currentRound currentRound totalRounds players scores].
    split; [done|]. split; [done|]. split; [done|]. split; [done|]. split.
    + intros (c & Hc & Hlo & Hhi). rewrite Hc in Hge |- *.
      unfold jsge, jsle in Hge. simpl in Hge.
      apply orb_false_iff in Hge as [Hlt%Z.ltb_ge Hne%Z.eqb_neq].
      unfold setCurrentRound, jsgt. simpl. rewrite Ht.
      destruct (Z.ltb_spec (c + 1) 1); [lia|].
      destruct (Z.ltb_spec (totalRounds t) (c + 1)); [lia|]. done.
    + intros c Hc Hnz. unfold generateLeaderboard. rewrite lookup_insert_eq, Ht.
      unfold generateLeaderboard_in. do 2 f_equal.
      apply list_fmap_ext. intros _ p _.
      unfold leaderboard_entry. rewrite Hc.
      cbn [nonzero default from_option id fmap option_fmap option_map jsadd
        set_currentRound currentRound totalRounds players scores t_par].
      destruct (Z.eqb_spec (c + 1) 0); [lia|]. done.
Qed.
(** ** Recording the same key twice *)

(** The search for a name depends on the names of the roster alone. *)
Lemma list_find_names (n : string) (l l' : list Player) :
  name <$> l' = name <$> l →
  fst <$> list_find (λ p, Is_true (name_matches n p)) l' =
  fst <$> list_find (λ p, Is_true (name_matches n p)) l.
Proof.
  revert l'. induction l as [|p l IH]; intros [|p' l'] Hnames; try done.
  injection Hnames as Hp Hl. cbn [list_find].
  assert (name_matches n p' = name_matches n p) as ->.
  { unfold name_matches. by rewrite Hp. }
  destruct (decide _); [done|].
  specialize (IH l' Hl).
  destruct (list_find _ l') as [[i x]|], (list_find _ l) as [[j y]|];
    simpl in *; congruence.
Qed.

(** The player an update was booked on is the one its name finds in the
    roster afterwards. *)
Lemma locate_player_found uuid t u i player roster :
  locate_player uuid t u = Some (i, player, roster) →
  list_find (λ p, Is_true (name_matches (u_player u) p)) roster
    = Some (i, player).
Proof.
  unfold locate_player.
  destruct (list_find _ (players t)) as [[i' p']|] eqn:Hfind.
  - by intros [= -> -> <-].
  - destruct (decide _) as [|Hne]; [done|]. intros [= <- <- <-].
    apply list_find_app_Some. right. split; [lia|]. split; [done|].
    rewrite Nat.sub_diag. cbn [list_find].
    rewrite decide_True; [done|].
    unfold name_matches. cbn [name]. by rewrite includes_refl.
Qed.

Lemma locate_player_again uuid uuid2 t t1 u u2 i player roster :
  locate_player uuid t u = Some (i, player, roster) →
  name <$> players t1 = name <$> roster →
  id <$> players t1 = id <$> roster →
  u_player u2 = u_player u →
  ∃ p', locate_player uuid2 t1 u2 = Some (i, p', players t1) ∧
        id p' = id player.
Proof.
  intros Hloc Hnames Hids Hname.
  apply locate_player_found in Hloc.
  pose proof (list_find_names (u_player u) roster (players t1) Hnames) as Hfst.
  rewrite Hloc in Hfst. unfold locate_player. rewrite Hname.
  destruct (list_find _ (players t1)) as [[j p']|] eqn:Hfind; [|done].
  injection Hfst as ->. exists p'. split; [done|].
  apply list_find_Some in Hfind as (Hi' & _).
  apply list_find_Some in Hloc as (Hi & _).
  assert ((id <$> players t1) !! i = (id <$> roster) !! i) as E by (by rewrite Hids).
  rewrite !list_lookup_fmap, Hi, Hi' in E. by injection E.
Qed.

(** X24. Recording a score twice for the same key, in a tournament whose
    current round is a number (not [NaN]) and whose ledger holds each key
    (playerId, hole, round) once.  An update that names a player and
    carries strokes, or a spoken result, is recorded: the entry returned is
    then the one entry of the ledger under its key and carries the strokes
    of the update; it replaces the entry that was stored under the key where
    that stood, and goes to the end when there was none; and no key is
    stored twice afterwards.  A further update for the same name and for the
    hole of that entry is recorded under the same key: the ledger keeps its
    length, and its one entry under the key is the later one, with the later
    strokes. *)
Theorem recording_twice_keeps_one_entry uuid now tournaments tid t u :
  tournaments !! tid = Some t →
  currentRound t ≠ NaN →
  NoDup (entry_key <$> scores t) →
  u_action u ≠ delete_ → u_player u ≠ EmptyString →
  nonzero (u_strokes u) ≠ None ∨ u_action u ≠ score →
  ∃ e t1,
    processScoringUpdate uuid now tournaments tid u
      = (Some e, <[tid := t1]> tournaments) ∧
    NoDup (entry_key <$> scores t1) ∧
    filter (λ s, entry_key s = entry_key e) (scores t1) = [e] ∧
    round e = currentRound t ∧
    (∀ s, nonzero (u_strokes u) = Some s → strokes e = Num s) ∧
    (∀ k old, scores t !! k = Some old → entry_key old = entry_key e →
       scores t1 = <[k := e]> (scores t)) ∧
    ((∀ s, s ∈ scores t → entry_key s ≠ entry_key e) →
       scores t1 = scores t ++ [e]) ∧
    (∀ uuid2 now2 u2,
       u_action u2 ≠ delete_ → u_player u2 = u_player u →
       nonzero (u_hole u2) = Some (hole e) →
       nonzero (u_strokes u2) ≠ None ∨ u_action u2 ≠ score →
       ∃ e2 t2,
         processScoringUpdate uuid2 now2 (<[tid := t1]> tournaments) tid u2
           = (Some e2, <[tid := t2]> (<[tid := t1]> tournaments)) ∧
         entry_key e2 = entry_key e ∧
         NoDup (entry_key <$> scores t2) ∧
         filter (λ s, entry_key s = entry_key e) (scores t2) = [e2] ∧
         (∀ s, nonzero (u_strokes u2) = Some s → strokes e2 = Num s) ∧
         length (scores t2) = length (scores t1)).
Proof.
  intros Ht Hround Hnd Hact Hname Hgiven.
  assert (∀ v par_, nonzero (u_strokes v) ≠ None ∨ u_action v ≠ score →
            u_action v ≠ delete_ →
            ∃ st, match nonzero (u_strokes v) with
                  | Some s => Some (Num s)
                  | None => strokes_of_action (u_action v) par_
                  end = Some st ∧
                  ∀ s, nonzero (u_strokes v) = Some s → st = Num s) as Hstrokes.
  { intros v par_ Hv Hd. destruct (nonzero (u_strokes v)) as [s|].
    - exists (Num s). split; [done|]. by intros ? [= ->].
    - destruct Hv as [?|Hv]; [done|].
      destruct (u_action v); simpl; try done; eexists; split; done. }
  destruct (locate_named uuid t u Hname) as (i & player & roster & Hloc).
  rewrite (processScoringUpdate_unfold _ _ _ _ _ _ Ht).
  pose proof (record_located _ now _ _ _ _ _ Hact Hloc) as Hrec.
  cbv zeta in Hrec.
  set (h := default (currentHole player) (nonzero (u_hole u))) in *.
  set (par1 := match array_get (t_par t) (h - 1) with
               | Some p => Num p
               | None => NaN
               end) in *.
  destruct (Hstrokes u par1 Hgiven Hact) as (st & Hst & Hst'). rewrite Hst in Hrec.
  rewrite Hrec. clear Hrec. cbn [fst snd].
  set (e := {| playerId := id player; hole := h; round := currentRound t;
               strokes := st; par := par1; timestamp := now |}).
  set (roster1 := if decide _ then _ else _).
  exists e. eexists. split; [done|].
  cbn [scores set_scores set_players].
  assert (round e ≠ NaN) as Hre by done.
  destruct (upsert_spec e (scores t) Hre Hnd) as (Hnd1 & Hone & Hrep & Hnew).
  split; [done|]. split; [done|]. split; [done|]. split; [done|].
  split; [done|]. split; [done|].
  intros uuid2 now2 u2 Hact2 Hname2 Hhole2 Hgiven2.
  set (t1 := set_scores _ _).
  destruct (locate_player_spec _ _ _ _ _ _ Hloc) as [Hi _].
  assert (name <$> roster1 = name <$> roster ∧ id <$> roster1 = id <$> roster)
    as [Hnames Hids].
  { unfold roster1. destruct (decide _); [|done].
    rewrite !list_fmap_insert. cbn [name id set_currentHole].
    split; apply list_insert_id; by rewrite list_lookup_fmap, Hi. }
  destruct (locate_player_again uuid uuid2 t t1 u u2 i player roster
              Hloc Hnames Hids Hname2) as (p' & Hloc2 & Hid2).
  rewrite (processScoringUpdate_unfold _ _ _ tid t1) by (by rewrite lookup_insert_eq).
  pose proof (record_located _ now2 _ _ _ _ _ Hact2 Hloc2) as Hrec2.
  cbv zeta in Hrec2. rewrite Hhole2 in Hrec2.
  set (par2 := match array_get (t_par t1)
                       (default (currentHole p') (Some (hole e)) - 1) with
               | Some p => Num p
               | None => NaN
               end) in *.
  destruct (Hstrokes u2 par2 Hgiven2 Hact2) as (st2 & Hst2 & Hst2').
  rewrite Hst2 in Hrec2. rewrite Hrec2. clear Hrec2. cbn [fst snd].
  set (e2 := {| playerId := id p'; hole := _; round := _; strokes := st2;
                par := par2; timestamp := now2 |}).
  exists e2. eexists. split; [done|].
  cbn [scores set_scores set_players].
  assert (entry_key e2 = entry_key e) as Hkey.
  { unfold entry_key, e2, e. cbn. by rewrite Hid2. }
  assert (round e2 ≠ NaN) as Hre2 by done.
  destruct (upsert_spec e2 (upsert e (scores t)) Hre2 Hnd1) as (Hnd2 & Hone2 & _ & _).
  rewrite Hkey in Hone2.
  split; [done|]. split; [done|]. split; [done|]. split; [done|].
  apply upsert_length_replace; [done|]. exists e. split; [|done].
  assert (e ∈ filter (λ s, entry_key s = entry_key e) (upsert e (scores t))) as Hin.
  { rewrite Hone. left. }
  by apply list_elem_of_filter in Hin as [_ Hin].
Qed.
End Engine.

(** * The properties on the sample data *)

Ltac by_computation :=
  unfold numeric_object, numeric_ledger;
  lazymatch goal with |- ?P => apply (bool_decide_unpack P) end;
  vm_compute; exact I.

(** The scenarios of the specification: index 10.0, slope 125, rating 72.0
    give 11 strokes, one of which falls on the hole of stroke index 1. *)
Example scenario_course_handicap :
  receivedStrokes
    (parsePlayerInfo "u" "Tiger 10.0" (Some ("Tiger", decimal 10))
       (decimal 72) (decimal 125)) = Some (Num 11).
Proof. vm_compute. reflexivity. Qed.

Example scenario_stroke_index_1 :
  array_get standardIndex (15 - 1) = Some 1 ∧
  calculateStablefordPoints (Num 5) (Num 5) (Num 11) 15 = 3 ∧
  calculateStablefordPoints (Num 6) (Num 5) (Num 11) 15 = 2.
Proof. repeat split; reflexivity. Qed.

(** The arithmetic of [double] against the floats of the machine: the
    two course handicaps that C5 turns on (index 33.9 with slope 125 and
    rating 72, index 4.2 with slope 113 and rating 72.3), a quotient that
    does not end, a tie and a value above it in the subnormal range, and
    the last step before overflow. *)
Module FloatCheck.
Import PrimFloat.

Example decimals_parsed :
  double_of_float 0x1.0f33333333333p+5 = decimal (339 # 10) ∧
  double_of_float 0x1.0cccccccccccdp+2 = decimal (42 # 10) ∧
  double_of_float 0x1.2133333333333p+6 = decimal (723 # 10).
Proof. repeat split; vm_compute; reflexivity. Qed.

Example course_handicap_33_9 :
  double_of_float (0x1.0f33333333333p+5 * 125 / 113 + (72 - 72))%float
  = dadd (div113 (dmul (decimal (339 # 10)) (decimal 125)))
         (dsub (decimal 72) (Finite 72)).
Proof. vm_compute. reflexivity. Qed.

Example course_handicap_4_2 :
  double_of_float
    (0x1.0cccccccccccdp+2 * 113 / 113 + (0x1.2133333333333p+6 - 72))%float
  = dadd (div113 (dmul (decimal (42 # 10)) (decimal 113)))
         (dsub (decimal (723 # 10)) (Finite 72)).
Proof. vm_compute. reflexivity. Qed.

Example rounding_cases :
  double_of_float (1 / 3)%float = round64 (1 # 3) ∧
  double_of_float (0x1p-1074 / 2)%float = round64 (pow2 (-1075)) ∧
  double_of_float (0x1p-1074 * 3 / 2)%float = round64 (3 * pow2 (-1075)) ∧
  double_of_float (0x1.fffffffffffffp1023 + 0x1p970)%float
  = round64 (pow2 1024 - pow2 970).
Proof. repeat split; vm_compute; reflexivity. Qed.

End FloatCheck.

Lemma C2_witness :
  calculateStablefordPoints (Num 4) (Num 4) (Num 11) 15
  = stableford_reference 4 4 11 1.
Proof.
  apply (proj1 (C2_stableford_points 4 4 11 15) 1); [lia | reflexivity].
Defined.

Lemma C5_witness :
  ∃ r',
    receivedStrokes
      (parsePlayerInfo "u" "Tiger 10.0" (Some ("Tiger", Finite 10))
         (Finite 72) (Finite 125)) = Some (Num 11) ∧
    receivedStrokes
      (parsePlayerInfo "u" "Tiger 10.0" (Some ("Tiger", Finite 20))
         (Finite 72) (Finite 125)) = Some (Num r') ∧
    11 ≤ r'.
Proof.
  destruct (C5_received_strokes "u" "Tiger 10.0" "Tiger" 10 72 125)
    as (r & Hr & Hpos & Hlow & Hhigh & _ & Hmono);
    [split; discriminate..|].
  assert (r = 11) as ->.
  { pose proof (Hlow <: 11 ≤ r). pose proof (Hhigh <: r ≤ 11). lia. }
  destruct (Hmono 20%Q) as (r' & Hr' & Hle); [split; discriminate|discriminate|].
  exists r'. split; [exact Hr|]. split; [exact Hr'|exact Hle].
Defined.

(** C5 does not hold of the value the formula has in exact arithmetic,
    however the figures are read.  Read as the decimals written: index 4.2,
    slope 113 and rating 72.3 have the value 4.5, which rounds to 5, and the
    player receives 4 strokes.  Read as the doubles parsed: the double of
    33.9, with slope 125 and rating 72, has a value just below 37.5, which
    rounds to 37, and the player receives 38 strokes. *)
Lemma C5_counterexample :
  (receivedStrokes
     (parsePlayerInfo "u" "Ann 4.2" (Some ("Ann", decimal (42 # 10)))
        (decimal (723 # 10)) (decimal 113)) = Some (Num 4) ∧
   Z.max 0 (round_half_up (course_handicap_value (42 # 10) 113 (723 # 10) 72))
   = 5) ∧
  (∃ index : Q,
     decimal (339 # 10) = Finite index ∧
     decimal 72 = Finite 72 ∧ decimal 125 = Finite 125 ∧
     receivedStrokes
       (parsePlayerInfo "u" "Bob 33.9" (Some ("Bob", Finite index))
          (Finite 72) (Finite 125)) = Some (Num 38) ∧
     Z.max 0 (round_half_up (course_handicap_value index 125 72 72)) = 37).
Proof.
  split; [split; vm_compute; reflexivity|].
  exists (4771000855245619 # 140737488355328)%Q.
  repeat split; vm_compute; reflexivity.
Qed.

Lemma sample_totals_best :
  let d := sum_totals asciiLowerCase sampleTeams sampleResults 1 in
  d !! "red" = Some (Num (-2)) ∧ d !! "blue" = Some (Num 1) ∧
  d !! "green" = Some (Num (-2)) ∧
  ¬ all_tied d ∧ is_best d (-2) ∧ is_worst d 1.
Proof.
  intros d.
  assert (d !! "red" = Some (Num (-2))) as Hred by (vm_compute; reflexivity).
  assert (d !! "blue" = Some (Num 1)) as Hblue by (vm_compute; reflexivity).
  split; [exact Hred|]. split; [exact Hblue|].
  split; [vm_compute; reflexivity|].
  split; [|split].
  - intros Ht. pose proof (Ht _ _ _ _ Hred Hblue) as E. discriminate E.
  - apply is_best_Forall. by_computation.
  - apply is_worst_Forall. by_computation.
Qed.

Lemma C1_witness :
  let pts := calculateSumMatchPoints asciiLowerCase sampleTeams sampleResults 1 in
  pts !! "red" = Some (Num 1) ∧ pts !! "green" = Some (Num 1) ∧
  pts !! "blue" = Some (Num (-1)).
Proof.
  destruct (C1_sum_match_award asciiLowerCase sampleTeams sampleResults 1
              sampleTournament ∅) as (Hmatch & _ & _).
  destruct Hmatch as [_ Hpts]; [by_computation|].
  destruct sample_totals_best as (Hred & Hblue & Hgreen & Hnt & Hb & Hw).
  split; [|split].
  - exact (proj1 (proj2 (Hpts "red" (-2) Hred)) Hnt Hb).
  - exact (proj1 (proj2 (Hpts "green" (-2) Hgreen)) Hnt Hb).
  - exact (proj1 (proj2 (proj2 (Hpts "blue" 1 Hblue))) Hnt Hw).
Defined.

Lemma C1_counterexample :
  let d := hole_totals asciiLowerCase sampleTeams sampleTournament 1 in
  let awarded :=
    award_hole asciiLowerCase sampleTeams sampleTournament
      (zero_points sampleTeams) 1 in
  ¬ (∀ k v, d !! k = Some (Num v) → ¬ all_tied d → is_best d v →
       awarded !! k = Some (Num 1)).
Proof.
  intros d awarded Hclaim.
  assert (d !! "red" = Some (Num (-2))) as Hred by (vm_compute; reflexivity).
  assert (d !! "blue" = Some (Num 1)) as Hblue by (vm_compute; reflexivity).
  assert (awarded !! "red" = Some (Num 0)) as Hzero by (vm_compute; reflexivity).
  rewrite (Hclaim "red" (-2) Hred) in Hzero; [discriminate Hzero| |].
  - intros Ht. pose proof (Ht _ _ _ _ Hred Hblue) as E. discriminate E.
  - apply is_best_Forall. by_computation.
Qed.

Lemma C6_witness :
  let pts :=
    calculateAllVsAllPoints asciiLowerCase sampleTeams samplePoints
      [["Ann"; "Cid"; "Eve"]] in
  pts !! "red" = Some (Num 1) ∧ pts !! "blue" = Some (Num 0).
Proof.
  destruct (C6_all_vs_all asciiLowerCase sampleTeams samplePoints
              [["Ann"; "Cid"; "Eve"]]) as (Hpts & _).
  split.
  - rewrite (Hpts "red"); [vm_compute; reflexivity|]. by_computation.
  - rewrite (Hpts "blue"); [vm_compute; reflexivity|]. by_computation.
Defined.

Lemma byteCompare_consistent : consistent_collation byteCompare.
Proof.
  split.
  - intros a b. unfold byteCompare.
    change (String.compare a b) with (OrderedTypeEx.String_as_OT.cmp a b).
    change (String.compare b a) with (OrderedTypeEx.String_as_OT.cmp b a).
    rewrite (OrderedTypeEx.String_as_OT.cmp_antisym b a).
    destruct (OrderedTypeEx.String_as_OT.cmp a b); simpl; lia.
  - intros a b c. unfold byteCompare.
    change (String.compare a b) with (OrderedTypeEx.String_as_OT.cmp a b).
    change (String.compare b c) with (OrderedTypeEx.String_as_OT.cmp b c).
    change (String.compare a c) with (OrderedTypeEx.String_as_OT.cmp a c).
    destruct (OrderedTypeEx.String_as_OT.cmp a b) eqn:Hab; [| |lia].
    + apply OrderedTypeEx.String_as_OT.cmp_eq in Hab as ->. done.
    + destruct (OrderedTypeEx.String_as_OT.cmp b c) eqn:Hbc; [| |lia].
      * apply OrderedTypeEx.String_as_OT.cmp_eq in Hbc as <-.
        rewrite Hab. done.
      * apply OrderedTypeEx.String_as_OT.cmp_lt in Hab, Hbc.
        pose proof (OrderedTypeEx.String_as_OT.lt_trans _ _ _ Hab Hbc) as Hac.
        apply OrderedTypeEx.String_as_OT.cmp_lt in Hac. rewrite Hac. done.
Qed.

Lemma C8_witness :
  let lb :=
    generateTeamLeaderboard asciiLowerCase byteCompare sampleTeams
      (Some sampleTournament) (sampleSidegames sum_match) "sg" in
  length lb = 3%nat ∧
  ∃ a b, lb !! 0%nat = Some a ∧ lb !! 1%nat = Some b ∧
         tl_position a = 1 ∧ tl_position b = 2 ∧
         team_ranks_before byteCompare a b.
Proof.
  destruct (C8_team_leaderboard asciiLowerCase byteCompare sampleTeams
              (Some sampleTournament) (sampleSidegames sum_match) "sg"
              (sampleSidegame sum_match) eq_refl) as (_ & _ & Hsum).
  destruct (Hsum eq_refl (mk_is_Some _ _ eq_refl)) as (Hlen & _ & Hpos & Hsorted).
  split; [exact Hlen|].
  set (lb := generateTeamLeaderboard _ _ _ _ _ _) in *.
  assert (lb !! 0%nat =
          Some {| teamId := "green"; teamName := "Green"; teamColor := "#0c0";
                  totalPoints := Num 0; matchesPlayed := 1; tl_position := 1 |})
    as Ha by (vm_compute; reflexivity).
  assert (lb !! 1%nat =
          Some {| teamId := "red"; teamName := "Red"; teamColor := "#c00";
                  totalPoints := Num 0; matchesPlayed := 1; tl_position := 2 |})
    as Hb by (vm_compute; reflexivity).
  eexists _, _. split; [exact Ha|]. split; [exact Hb|].
  split; [exact (Hpos 0%nat _ Ha)|]. split; [exact (Hpos 1%nat _ Hb)|].
  apply (Hsorted byteCompare_consistent 0%nat 1%nat); [lia|exact Ha|exact Hb].
Defined.

Lemma C8_counterexample :
  gameType (sampleSidegame all_vs_all) = all_vs_all ∧
  length (generateTeamLeaderboard asciiLowerCase byteCompare sampleTeams
            (Some sampleTournament) (sampleSidegames all_vs_all) "sg")
  ≠ length (sg_teams (sampleSidegame all_vs_all)).
Proof. split; [reflexivity|]. intros H. vm_compute in H. discriminate H. Qed.



Lemma C10_witness :
  deleteScore asciiLowerCase 100 (sampleTournaments sampleSecondRound) "t"
    (sampleUpdate "Ann" (Some 5) None delete_) =
  (Some {| playerId := "p1"; hole := 5; round := Num 1; strokes := Num 0;
           par := Num 5; timestamp := 100 |},
   <["t" := set_scores [sampleEntry "p2" 5 1 6 5 20; sampleEntry "p1" 5 2 7 5 90]
              sampleSecondRound]> (sampleTournaments sampleSecondRound)).
Proof.
  destruct (C10_delete_ignores_round asciiLowerCase 100
              (sampleTournaments sampleSecondRound) "t" sampleSecondRound
              (sampleUpdate "Ann" (Some 5) None delete_) eq_refl) as [Hexplicit _].
  apply (Hexplicit (samplePlayer "p1" "Ann" 6) 5
           [sampleEntry "p2" 5 1 6 5 20] (sampleEntry "p1" 5 1 4 5 21)
           [sampleEntry "p1" 5 2 7 5 90]).
  - discriminate.
  - vm_compute; reflexivity.
  - reflexivity.
  - reflexivity.
  - reflexivity.
  - reflexivity.
  - intros s Hs [Hp _]. apply list_elem_of_singleton in Hs. subst s.
    discriminate Hp.
Defined.

(** C4, on the code.  The manual-score endpoint is asked to record, for
    Ann, 4 strokes on hole 25, and then -2 strokes on hole 3: both requests
    are processed, and both entries are in the ledger afterwards, the first
    with no par. *)
Lemma C4_malformed_score_enters_ledger :
  let r1 := manual_score asciiLowerCase "u" 100
              (sampleTournaments sampleTournament) "t" "p1" 25 (Some (Some 4)) in
  let r2 := manual_score asciiLowerCase "u" 101 r1.2 "t" "p1" 3 (Some (Some (-2))) in
  r1.1 = Some {| playerId := "p1"; hole := 25; round := Num 1; strokes := Num 4;
                 par := NaN; timestamp := 100 |} ∧
  r2.1 = Some {| playerId := "p1"; hole := 3; round := Num 1; strokes := Num (-2);
                 par := Num 5; timestamp := 101 |} ∧
  scores <$> r2.2 !! "t" =
    Some (scores sampleTournament ++
          [ {| playerId := "p1"; hole := 25; round := Num 1; strokes := Num 4;
               par := NaN; timestamp := 100 |};
            {| playerId := "p1"; hole := 3; round := Num 1; strokes := Num (-2);
               par := Num 5; timestamp := 101 |} ]).
Proof. repeat split; vm_compute; reflexivity. Qed.

(** C3, on the code.  Cid, Ann and Eve stand in the roster in this order.
    Cid's 5 on hole 1 (par 4), Ann's 4 on a hole 25, which has no par, and
    Eve's 4 on hole 1 are entered by hand.  Ann's score against par is then
    no number, and every comparison with her line gives [NaN], which counts
    as a tie: the sort finds each line tied with the next and leaves the
    roster order.  Cid, at +1, is at position 1, above Eve, at 0, at
    position 3. *)
Lemma C3_unreadable_score_breaks_ranking :
  let r1 := manual_score asciiLowerCase "u" 100
              (sampleTournaments sampleRoster) "t" "p2" 1 (Some (Some 5)) in
  let r2 := manual_score asciiLowerCase "u" 101 r1.2 "t" "p1" 25 (Some (Some 4)) in
  let r3 := manual_score asciiLowerCase "u" 102 r2.2 "t" "p3" 1 (Some (Some 4)) in
  let lb := generateLeaderboard r3.2 "t" None in
  is_Some r1.1 ∧ is_Some r2.1 ∧ is_Some r3.1 ∧
  (λ e, (position e, playerName e, currentScore e, holesCompleted e)) <$> lb
  = [(1, "Cid", Num 1, 1); (2, "Ann", NaN, 1); (3, "Eve", Num 0, 1)] ∧
  ∃ a b, lb !! 0%nat = Some a ∧ lb !! 2%nat = Some b ∧
         ranks_before b a ∧ ¬ ranks_before a b.
Proof.
  intros r1 r2 r3 lb.
  split; [by eexists|]. split; [by eexists|]. split; [by eexists|].
  split; [vm_compute; reflexivity|].
  eexists _, _. split; [vm_compute; reflexivity|].
  split; [vm_compute; reflexivity|]. split.
  - exists 0, 1. repeat split. lia.
  - intros (x & y & Hx & Hy & Hxy).
    vm_compute in Hx, Hy. injection Hx as <-. injection Hy as <-. lia.
Qed.

(** C7, on the code.  The round of the tournament is set with a request
    whose round is no number ([parseInt] gives [NaN]): the call succeeds and
    the current round is [NaN].  Ann's 3 on hole 1 is recorded, and then
    her 5 on the same hole: the second entry does not replace the first,
    and the ledger holds both under the key (p1, 1, NaN). *)
Lemma C7_unreadable_round_duplicates :
  let r0 := setCurrentRound (sampleTournaments sampleTournament) "t" NaN in
  let r1 := processScoringUpdate asciiLowerCase "u" 100 r0.2 "t"
              (sampleUpdate "Ann" (Some 1) (Some 3) score) in
  let r2 := processScoringUpdate asciiLowerCase "u" 101 r1.2 "t"
              (sampleUpdate "Ann" (Some 1) (Some 5) score) in
  let e1 := {| playerId := "p1"; hole := 1; round := NaN; strokes := Num 3;
               par := Num 4; timestamp := 100 |} in
  let e2 := {| playerId := "p1"; hole := 1; round := NaN; strokes := Num 5;
               par := Num 4; timestamp := 101 |} in
  r0.1 = true ∧ currentRound <$> r0.2 !! "t" = Some NaN ∧
  r1.1 = Some e1 ∧ r2.1 = Some e2 ∧
  entry_key e1 = entry_key e2 ∧
  scores <$> r2.2 !! "t" = Some (scores sampleTournament ++ [e1; e2]) ∧
  ∀ t2, r2.2 !! "t" = Some t2 →
    filter (λ s, entry_key s = entry_key e2) (scores t2) = [e1; e2] ∧
    ¬ NoDup (entry_key <$> scores t2).
Proof.
  intros r0 r1 r2 e1 e2.
  assert (r2.2 !! "t" =
          Some (set_scores (scores sampleTournament ++ [e1; e2])
                  (set_currentRound NaN sampleTournament))) as Ht2
    by (vm_compute; reflexivity).
  do 5 (split; [vm_compute; reflexivity|]).
  split; [by rewrite Ht2|].
  intros t2. rewrite Ht2. intros [= <-]. split; [vm_compute; reflexivity|].
  intros Hnd.
  pose proof (NoDup_lookup _ 3%nat 4%nat (entry_key e1) Hnd eq_refl eq_refl) as E.
  discriminate E.
Qed.

(** ** The further properties on the sample data *)

Lemma rounds_and_pointers_stay_in_bounds_witness :
  map_Forall (λ _ t, round_in_bounds t ∧ pointers_in_bounds t)
             (run asciiLowerCase sampleCalls (sampleTournaments sampleTournament)).
Proof.
  apply rounds_and_pointers_stay_in_bounds.
  apply map_Forall_singleton. split.
  - exists 1. split; [reflexivity|]. simpl. lia.
  - unfold pointers_in_bounds.
    lazymatch goal with |- ?P => apply (bool_decide_unpack P) end.
    vm_compute. exact I.
Defined.

Lemma ledger_stays_sound_witness :
  map_Forall (λ _ t, round_in_bounds t ∧ ledger_sound t)
             (run asciiLowerCase sampleCalls (sampleTournaments sampleTournament)).
Proof.
  apply ledger_stays_sound.
  assert (is_round sampleTournament (Num 1)) as Hround.
  { exists 1. split; [reflexivity|]. simpl. lia. }
  apply map_Forall_singleton. split; [exact Hround|]. split.
  - apply Forall_forall. intros s Hs.
    unfold sampleTournament in Hs. cbn [scores] in Hs.
    repeat (apply elem_of_cons in Hs as [->|Hs];
            [split; [by_computation|exact Hround]|]).
    by apply elem_of_nil in Hs.
  - lazymatch goal with |- ?P => apply (bool_decide_unpack P) end.
    vm_compute. exact I.
Defined.

Lemma createTournament_fresh_witness :
  let r := createTournament sampleUuid 0 ∅ "GA 2025" "El Saler 72.0 125"
             (Some ("El Saler", decimal 72, decimal 125))
             [("Tiger 10.0", Some ("Tiger", decimal 10)); ("Ann", None)] 2 in
  r.2 !! "t9" = Some r.1 ∧ round_in_bounds r.1 ∧ scores r.1 = [] ∧
  name <$> players r.1 = ["Tiger"; "Ann"] ∧
  playerName <$> generateLeaderboard r.2 "t9" None = ["Tiger"; "Ann"] ∧
  ∃ p, players r.1 !! 0%nat = Some p ∧ id p = "a" ∧ name p = "Tiger" ∧
       handicap p = Some (Finite 10) ∧ receivedStrokes p = Some (Num 11).
Proof.
  intros r.
  destruct (createTournament_fresh sampleUuid 0 ∅ "GA 2025" "El Saler 72.0 125"
              (Some ("El Saler", decimal 72, decimal 125))
              [("Tiger 10.0", Some ("Tiger", decimal 10)); ("Ann", None)] 2)
    as (Hstored & _ & _ & _ & _ & _ & _ & _ & _ & _ & _ & Hround & _ & _ &
        Hscores & _ & Hplayers & Hnames & Hboard).
  split; [exact Hstored|]. split; [apply Hround; lia|].
  split; [exact Hscores|]. split; [exact Hnames|]. split; [exact (Hboard None)|].
  destruct (Hplayers 0%nat ("Tiger 10.0", Some ("Tiger", decimal 10)) eq_refl)
    as (p & Hp & Hparsed & Hid & Hname & Hhandicap & _).
  exists p. split; [exact Hp|]. split; [exact Hid|]. split; [exact Hname|].
  split; [exact Hhandicap|]. rewrite Hparsed. vm_compute. reflexivity.
Defined.

Lemma clearTournamentData_resets_witness :
  let r := clearTournamentData (sampleTournaments sampleTournament) "t" in
  r.1 = true ∧ clearTournamentData r.2 "t" = (true, r.2).
Proof.
  destruct (clearTournamentData_resets (sampleTournaments sampleTournament) "t"
              sampleTournament eq_refl) as (Hok & _ & Hagain & _).
  split; [exact Hok|exact Hagain].
Defined.

Lemma leaderboard_keeps_roster_order_witness :
  let lb := generateLeaderboard (sampleTournaments sampleTournament) "t" None in
  ∃ i' j', (i' < j')%nat ∧
    playerName <$> lb !! i' = Some "Ann" ∧ playerName <$> lb !! j' = Some "Eve".
Proof.
  destruct (leaderboard_keeps_roster_order (sampleTournaments sampleTournament) "t"
              sampleTournament None 0%nat 2%nat
              (samplePlayer "p1" "Ann" 2) (samplePlayer "p3" "Eve" 2)
              eq_refl)
    as (i' & j' & Hlt & Hi & Hj).
  { by_computation. }
  { lia. }
  { reflexivity. }
  { reflexivity. }
  { exists (-2), (-2). split; [vm_compute; reflexivity|].
    split; [vm_compute; reflexivity|]. right. split; [reflexivity|].
    vm_compute. discriminate. }
  exists i', j'. split; [exact Hlt|]. cbv zeta. rewrite Hi, Hj. split; reflexivity.
Defined.

Lemma deleteScore_nothing_to_delete_witness :
  deleteScore asciiLowerCase 100 (sampleTournaments sampleTournament) "t"
    (sampleUpdate "Ann" (Some 7) None delete_)
  = (None, sampleTournaments sampleTournament).
Proof.
  apply (deleteScore_nothing_to_delete asciiLowerCase 100
           (sampleTournaments sampleTournament) "t" sampleTournament
           (sampleUpdate "Ann" (Some 7) None delete_) 7 eq_refl eq_refl).
  intros p _ _ s Hs [_ Hh].
  repeat (apply elem_of_cons in Hs as [->|Hs]; [discriminate Hh|]).
  by apply elem_of_nil in Hs.
Defined.

Lemma deleteScore_undo_last_witness :
  deleteScore asciiLowerCase 100 (sampleTournaments sampleTournament) "t"
    (sampleUpdate EmptyString None None delete_)
  = (Some {| playerId := "p3"; hole := 1; round := Num 1; strokes := Num 0;
             par := Num 4; timestamp := 100 |},
     <["t" := set_scores [sampleEntry "p2" 1 1 5 4 11; sampleEntry "p1" 1 1 2 4 10]
                sampleTournament]> (sampleTournaments sampleTournament)).
Proof.
  destruct (deleteScore_undo_last asciiLowerCase 100
              (sampleTournaments sampleTournament) "t" sampleTournament
              (sampleUpdate EmptyString None None delete_)
              eq_refl eq_refl (or_introl eq_refl)) as [_ Hlast].
  destruct (Hlast (sampleEntry "p3" 1 1 2 4 12)
              [sampleEntry "p2" 1 1 5 4 11; sampleEntry "p1" 1 1 2 4 10])
    as [Hdeleted _].
  - vm_compute. reflexivity.
  - discriminate.
  - lazymatch goal with |- ?P => apply (bool_decide_unpack P) end.
    vm_compute. exact I.
  - exact Hdeleted.
Defined.

Lemma record_then_delete_restores_ledger_witness :
  let u := sampleUpdate "Ann" (Some 7) (Some 4) score in
  let t1 := (processScoringUpdate_in asciiLowerCase "u" 100 sampleTournament u).2 in
  ∃ d t2,
    deleteScore_in asciiLowerCase 101 t1 (sampleUpdate "Ann" (Some 7) None delete_)
      = (Some d, t2) ∧
    hole d = 7 ∧ scores t2 = scores sampleTournament.
Proof.
  intros u t1.
  destruct (record_then_delete_restores_ledger asciiLowerCase "u" 100 101
              sampleTournament u (sampleUpdate "Ann" (Some 7) None delete_)
              {| playerId := "p1"; hole := 7; round := Num 1; strokes := Num 4;
                 par := Num 4; timestamp := 100 |} t1 7)
    as (d & t2 & Hdel & _ & Hhole & _ & Hscores & _).
  - discriminate.
  - discriminate.
  - reflexivity.
  - vm_compute. reflexivity.
  - intros s Hs [_ Hh].
    repeat (apply elem_of_cons in Hs as [->|Hs]; [discriminate Hh|]).
    by apply elem_of_nil in Hs.
  - reflexivity.
  - reflexivity.
  - exists d, t2. split; [exact Hdel|]. split; [exact Hhole|exact Hscores].
Defined.

Lemma nameless_update_goes_to_first_player_witness :
  let r := processScoringUpdate_in asciiLowerCase "u" 100 sampleTournament
             (sampleUpdate EmptyString (Some 3) (Some 4) score) in
  (∃ e, r.1 = Some e ∧ e ∈ scores r.2 ∧ playerId e = "p1" ∧ hole e = 3 ∧
        strokes e = Num 4) ∧
  processScoringUpdate_in asciiLowerCase "u" 100 sampleTournament
    (sampleUpdate EmptyString (Some 3) None score) = (None, sampleTournament).
Proof.
  intros r. split.
  - destruct (nameless_update_goes_to_first_player asciiLowerCase "u" 100
                sampleTournament (sampleUpdate EmptyString (Some 3) (Some 4) score)
                eq_refl ltac:(discriminate) eq_refl) as [_ Hfirst].
    destruct (Hfirst (samplePlayer "p1" "Ann" 2)
                [samplePlayer "p2" "Cid" 2; samplePlayer "p3" "Eve" 2] eq_refl)
      as (_ & Hrecorded & _).
    destruct Hrecorded as (e & He & Hin & Hid & Hhole & _ & Hstrokes).
    { left. discriminate. }
    exists e. split; [exact He|]. split; [exact Hin|]. split; [exact Hid|].
    split; [exact Hhole|]. exact (Hstrokes 4 eq_refl).
  - destruct (nameless_update_goes_to_first_player asciiLowerCase "u" 100
                sampleTournament (sampleUpdate EmptyString (Some 3) None score)
                eq_refl ltac:(discriminate) eq_refl) as [_ Hfirst].
    destruct (Hfirst (samplePlayer "p1" "Ann" 2)
                [samplePlayer "p2" "Cid" 2; samplePlayer "p3" "Eve" 2] eq_refl)
      as (_ & _ & Hrejected).
    exact (Hrejected eq_refl eq_refl).
Defined.

Lemma rejected_update_still_adds_player_witness :
  let r := processScoringUpdate asciiLowerCase "u" 100
             (sampleTournaments sampleTournament) "t"
             (sampleUpdate "Zed" None None score) in
  r.1 = None ∧
  "Zed" ∈ playerName <$> generateLeaderboard r.2 "t" None.
Proof.
  intros r.
  destruct (rejected_update_still_adds_player asciiLowerCase "u" 100
              (sampleTournaments sampleTournament) "t" sampleTournament
              (sampleUpdate "Zed" None None score) eq_refl eq_refl eq_refl)
    as (Hnone & t' & _ & _ & _ & Hboard).
  - discriminate.
  - intros q Hq.
    repeat (apply elem_of_cons in Hq as [->|Hq]; [vm_compute; intros []|]).
    by apply elem_of_nil in Hq.
  - split; [exact Hnone|]. exact (proj2 (Hboard None)).
Defined.

Lemma spoken_result_strokes_witness :
  (∃ e t',
     processScoringUpdate_in asciiLowerCase "u" 100 sampleTournament
       (sampleUpdate "Ann" (Some 2) None birdie) = (Some e, t') ∧
     e ∈ scores t' ∧ hole e = 2 ∧ strokes e = Num (4 + -1) ∧
     calculateStablefordPoints (strokes e) (par e) (Num 0) (hole e) = 2 - -1) ∧
  (∃ e t',
     processScoringUpdate_in asciiLowerCase "u" 100 sampleTournament
       (sampleUpdate "Ann" (Some 25) None birdie) = (Some e, t') ∧
     e ∈ scores t' ∧ hole e = 25 ∧ par e = NaN ∧ strokes e = NaN).
Proof.
  split.
  - destruct (spoken_result_strokes asciiLowerCase "u" 100 sampleTournament
                (sampleUpdate "Ann" (Some 2) None birdie) (-1) eq_refl eq_refl)
      as (e & t' & Hrecorded & Hin & Hhole & Hpar & _); [discriminate|].
    specialize (Hhole 2 eq_refl).
    destruct (Hpar 4) as (_ & Hstrokes & Hpoints); [by rewrite Hhole|].
    exists e, t'. split; [exact Hrecorded|]. split; [exact Hin|].
    split; [exact Hhole|]. split; [exact Hstrokes|exact Hpoints].
  - destruct (spoken_result_strokes asciiLowerCase "u" 100 sampleTournament
                (sampleUpdate "Ann" (Some 25) None birdie) (-1) eq_refl eq_refl)
      as (e & t' & Hrecorded & Hin & Hhole & _ & Hnopar); [discriminate|].
    specialize (Hhole 25 eq_refl).
    destruct Hnopar as (Hpar & Hstrokes & _); [by rewrite Hhole|].
    exists e, t'. split; [exact Hrecorded|]. split; [exact Hin|].
    split; [exact Hhole|]. split; [exact Hpar|exact Hstrokes].
Defined.

Lemma unreadable_entry_makes_score_NaN_witness :
  ∃ e, e ∈ generateLeaderboard (sampleTournaments sampleUnreadable) "t" None ∧
       playerName e = "Ann" ∧ currentScore e = NaN.
Proof.
  destruct (unreadable_entry_makes_score_NaN (sampleTournaments sampleUnreadable)
              "t" sampleUnreadable None (samplePlayer "p1" "Ann" 2)
              {| playerId := "p1"; hole := 25; round := Num 1; strokes := Num 4;
                 par := NaN; timestamp := 100 |} eq_refl)
    as (e & He & _ & Hname & Hscore).
  - apply list_elem_of_lookup. exists 0%nat. reflexivity.
  - apply list_elem_of_lookup. exists 3%nat. reflexivity.
  - reflexivity.
  - exact I.
  - left. reflexivity.
  - exists e. split; [exact He|]. split; [exact Hname|exact Hscore].
Defined.

Lemma stableford_total_counts_each_hole_once_witness :
  ∃ e, generateLeaderboard (sampleTournaments sampleTournament) "t" None !! 0%nat
         = Some e ∧
       playerName e = "Ann" ∧ holesCompleted e = 1 ∧
       0 ≤ totalStablefordPoints e ≤ 4 * holesCompleted e.
Proof.
  eexists. split; [vm_compute; reflexivity|].
  split; [reflexivity|]. split; [reflexivity|].
  eapply (stableford_total_counts_each_hole_once
            (sampleTournaments sampleTournament) "t" sampleTournament None).
  - reflexivity.
  - lazymatch goal with |- ?P => apply (bool_decide_unpack P) end.
    vm_compute. exact I.
  - apply list_elem_of_lookup. exists 0%nat. vm_compute. reflexivity.
Defined.

Lemma hole_arrays_hold_the_round_witness :
  ∃ e, generateLeaderboard (sampleTournaments sampleTournament) "t" None !! 0%nat
         = Some e ∧
       length (holeScores e) = 18%nat ∧
       slot (holeScores e) (1 - 1) = Some (Num 2) ∧
       slot (holeScores e) (2 - 1) = None.
Proof.
  eexists. split; [vm_compute; reflexivity|].
  edestruct (hole_arrays_hold_the_round
               (sampleTournaments sampleTournament) "t" sampleTournament None)
    as (_ & _ & Hlen & Hfilled & Hfree).
  - reflexivity.
  - lazymatch goal with |- ?P => apply (bool_decide_unpack P) end.
    vm_compute. exact I.
  - apply list_elem_of_lookup. exists 0%nat. vm_compute. reflexivity.
  - split; [|split].
    + apply Hlen. vm_compute. repeat constructor; discriminate.
    + apply (Hfilled (sampleEntry "p1" 1 1 2 4 10)); [|done].
      apply list_elem_of_lookup. exists 0%nat. vm_compute. reflexivity.
    + apply (Hfree 2). intros s Hs. vm_compute in Hs.
      repeat (apply elem_of_cons in Hs as [->|Hs]; [discriminate|]).
      by apply elem_of_nil in Hs.
Defined.

Lemma round_breakdown_witness :
  ∃ e rows,
    generateLeaderboard (sampleTournaments sampleTournament) "t" None !! 0%nat
      = Some e ∧
    roundScores e = Some rows ∧ Z.of_nat (length rows) = 2.
Proof.
  eexists.
  edestruct (round_breakdown
               (sampleTournaments sampleTournament) "t" sampleTournament None)
    as (_ & Hrows).
  - reflexivity.
  - lazymatch goal with |- ?P => apply (bool_decide_unpack P) end.
    vm_compute. exact I.
  - apply list_elem_of_lookup. exists 0%nat. vm_compute. reflexivity.
  - destruct Hrows as (rows & Hrows & Hlen & _); [reflexivity|].
    exists rows. split; [vm_compute; reflexivity|].
    split; [exact Hrows|exact Hlen].
Defined.

Lemma team_points_within_matches_witness :
  ∃ e n,
    generateTeamLeaderboard asciiLowerCase byteCompare sampleTeams
      (Some sampleTournament) (sampleSidegames sum_match) "sg" !! 0%nat = Some e ∧
    totalPoints e = Num n ∧ - matchesPlayed e ≤ n ≤ matchesPlayed e.
Proof.
  eexists.
  edestruct (team_points_within_matches asciiLowerCase byteCompare sampleTeams
               sampleTournament (sampleSidegames sum_match) "sg")
    as (n & Hpoints & Hbound).
  - apply list_elem_of_lookup. exists 0%nat. vm_compute. reflexivity.
  - exists n. split; [vm_compute; reflexivity|]. split; [exact Hpoints|exact Hbound].
Defined.

Lemma live_scorecard_rows_witness :
  getSumMatchLiveScorecard asciiLowerCase sampleTeams (Some sampleTournament)
    (sampleSidegames sum_match) "sg" !! 1
  = Some (hole_totals asciiLowerCase sampleTeams sampleTournament 1).
Proof.
  destruct (live_scorecard_rows asciiLowerCase byteCompare sampleTeams
              sampleTournament (sampleSidegames sum_match) "sg"
              (sampleSidegame sum_match) eq_refl eq_refl) as (Hrow & _ & _).
  apply (Hrow (sampleEntry "p1" 1 1 2 4 10)); [|exact I].
  apply list_elem_of_lookup. exists 0%nat. reflexivity.
Defined.

Lemma processHoleMatch_one_match_per_hole_witness :
  ∃ m sg',
    processHoleMatch asciiLowerCase sampleTeams "m" 100
      (sampleSidegames sum_match) "sg" 1 sampleResults
      = (Some m, <["sg" := sg']> (sampleSidegames sum_match)) ∧
    filter (λ x, m_hole x = 1) (matches sg') = [m].
Proof.
  destruct (processHoleMatch_one_match_per_hole asciiLowerCase sampleTeams "m" 100
              (sampleSidegames sum_match) "sg" 1 sampleResults) as [_ Hknown].
  destruct (Hknown (sampleSidegame sum_match) eq_refl)
    as (m & sg' & Hmatch & _ & _ & _ & _ & Hone & _).
  exists m, sg'. split; [exact Hmatch|exact Hone].
Defined.

Lemma manual_score_decides_hole_alone_witness :
  ∃ m sidegames',
    processHoleMatch asciiLowerCase sampleTeams "m" 100
      (sampleSidegames sum_match) "sg" 1
      (manual_sum_match_results (samplePlayer "p1" "Ann" 2)
         (sampleEntry "p1" 1 1 2 4 10))
      = (Some m, sidegames') ∧
    teamPoints m !! "red" = Some (Num 1) ∧
    teamPoints m !! "blue" = Some (Num (-1)).
Proof.
  destruct (manual_score_decides_hole_alone asciiLowerCase sampleTeams "m" 100
              (sampleSidegames sum_match) "sg" (sampleSidegame sum_match)
              (samplePlayer "p1" "Ann" 2) (sampleEntry "p1" 1 1 2 4 10)
              sampleRed sampleBlue 2 4 eq_refl eq_refl)
    as (m & sidegames' & Hmatch & Hown & Hothers).
  - vm_compute. reflexivity.
  - vm_compute. reflexivity.
  - apply list_elem_of_lookup. exists 1%nat. reflexivity.
  - discriminate.
  - reflexivity.
  - reflexivity.
  - exists m, sidegames'. split; [exact Hmatch|]. split; [exact Hown|].
    apply (Hothers "blue"); [|discriminate].
    apply list_elem_of_lookup. exists 1%nat. reflexivity.
Defined.

Lemma clearTournamentSidegames_removes_exactly_witness :
  clearTournamentSidegames (sampleSidegames sum_match) "t" !! "sg" = None ∧
  clearTournamentSidegames (sampleSidegames sum_match) "other" !! "sg"
  = Some (sampleSidegame sum_match).
Proof.
  assert (keyed_by_id (sampleSidegames sum_match)) as Hkeyed.
  { apply map_Forall_singleton. reflexivity. }
  split.
  - destruct (clearTournamentSidegames_removes_exactly asciiLowerCase sampleTeams
                (sampleSidegames sum_match) "t" Hkeyed) as (Hlookup & _).
    exact (Hlookup "sg").
  - destruct (clearTournamentSidegames_removes_exactly asciiLowerCase sampleTeams
                (sampleSidegames sum_match) "other" Hkeyed) as (Hlookup & _).
    exact (Hlookup "sg").
Defined.

Lemma getPlayerScorecard_sorted_witness :
  ∃ sc, getPlayerScorecard (sampleTournaments sampleSecondRound) "t" "p1"
          (Some (Num 1)) = Some sc ∧
        id (sc_player sc) = "p1" ∧ sc_par sc = standardPar.
Proof.
  destruct (getPlayerScorecard_sorted (sampleTournaments sampleSecondRound)
              "t" "p1" (Some (Num 1))) as [Hsome Hcard].
  destruct (proj2 Hsome) as [sc Hsc].
  { exists sampleSecondRound. split; [reflexivity|].
    apply list_elem_of_lookup. exists 0%nat. reflexivity. }
  destruct (Hcard sampleSecondRound sc eq_refl Hsc) as (Hid & _ & Hpar & _).
  exists sc. split; [exact Hsc|]. split; [exact Hid|exact Hpar].
Defined.

Lemma fixSequentialScoring_result_witness :
  let us' := fixSequentialScoring sampleSequence (Some (3, [4; 5])) in
  Some (3 + Z.of_nat 1) ∈ u_hole <$> us' ∧
  fixSequentialScoring us' (Some (3, [4; 5])) = us'.
Proof.
  destruct (fixSequentialScoring_result sampleSequence (Some (3, [4; 5])))
    as (_ & _ & _ & Hholes & Hagain).
  split; [|exact Hagain].
  apply (Hholes 3 [4; 5] eq_refl eq_refl); simpl; lia.
Defined.

Lemma advance_starts_next_round_witness :
  let r := advanceToNextRound (sampleTournaments sampleTournament) "t" in
  r.1 = true ∧
  generateLeaderboard r.2 "t" None
  = generateLeaderboard (sampleTournaments sampleTournament) "t" (Some (1 + 1)).
Proof.
  intros r.
  destruct (advance_starts_next_round (sampleTournaments sampleTournament) "t"
              sampleTournament eq_refl) as (_ & Hiff & _ & _ & Hnext).
  assert (r.1 = true) as Hok by (apply (Hiff 1 eq_refl); reflexivity).
  split; [exact Hok|].
  destruct (Hnext Hok) as (t' & _ & _ & _ & _ & _ & _ & Hboard).
  apply (Hboard 1 eq_refl). discriminate.
Defined.

Lemma recording_twice_keeps_one_entry_witness :
  ∃ e t1 e2 t2,
    processScoringUpdate asciiLowerCase "u" 100
      (sampleTournaments sampleTournament) "t"
      (sampleUpdate "Ann" (Some 1) (Some 3) score)
      = (Some e, <["t" := t1]> (sampleTournaments sampleTournament)) ∧
    scores t1 = <[0%nat := e]> (scores sampleTournament) ∧
    processScoringUpdate asciiLowerCase "v" 101
      (<["t" := t1]> (sampleTournaments sampleTournament)) "t"
      (sampleUpdate "Ann" (Some 1) (Some 5) score)
      = (Some e2, <["t" := t2]> (<["t" := t1]> (sampleTournaments sampleTournament))) ∧
    filter (λ s, entry_key s = entry_key e) (scores t2) = [e2] ∧
    strokes e2 = Num 5 ∧ length (scores t2) = 3%nat.
Proof.
  destruct (recording_twice_keeps_one_entry asciiLowerCase "u" 100
              (sampleTournaments sampleTournament) "t" sampleTournament
              (sampleUpdate "Ann" (Some 1) (Some 3) score) eq_refl)
    as (e & t1 & Hfirst & _ & _ & Hround & Hstrokes & Hreplaced & _ & Hagain).
  - discriminate.
  - by_computation.
  - discriminate.
  - discriminate.
  - left. discriminate.
  - assert (e = {| playerId := "p1"; hole := 1; round := Num 1;
                   strokes := Num 3; par := Num 4; timestamp := 100 |}) as He.
    { assert ((processScoringUpdate asciiLowerCase "u" 100
                 (sampleTournaments sampleTournament) "t"
                 (sampleUpdate "Ann" (Some 1) (Some 3) score)).1
              = Some {| playerId := "p1"; hole := 1; round := Num 1;
                        strokes := Num 3; par := Num 4; timestamp := 100 |})
        as E by (vm_compute; reflexivity).
      rewrite Hfirst in E. by injection E. }
    assert (scores t1 = <[0%nat := e]> (scores sampleTournament)) as Hscores.
    { apply (Hreplaced 0%nat (sampleEntry "p1" 1 1 2 4 10) eq_refl).
      by rewrite He. }
    destruct (Hagain "v" 101 (sampleUpdate "Ann" (Some 1) (Some 5) score))
      as (e2 & t2 & Hsecond & _ & _ & Hone & Hstrokes2 & Hlength).
    + discriminate.
    + reflexivity.
    + by rewrite He.
    + left. discriminate.
    + exists e, t1, e2, t2. split; [exact Hfirst|]. split; [exact Hscores|].
      split; [exact Hsecond|]. split; [exact Hone|].
      split; [exact (Hstrokes2 5 eq_refl)|].
      rewrite Hlength, Hscores. reflexivity.
Defined.

Lemma leaderboard_ranking_witness :
  let lb := generateLeaderboard (sampleTournaments sampleTournament) "t" None in
  ∃ a b, lb !! 0%nat = Some a ∧ lb !! 2%nat = Some b ∧
         position a = 1 ∧ position b = 3 ∧ ranks_before a b.
Proof.
  destruct (leaderboard_ranking (sampleTournaments sampleTournament) "t"
              sampleTournament None eq_refl) as (_ & _ & Hpos & Hsorted & _).
  eexists _, _. split; [vm_compute; reflexivity|].
  split; [vm_compute; reflexivity|].
  split; [by apply (Hpos 0%nat)|]. split; [by apply (Hpos 2%nat)|].
  apply (Hsorted ltac:(repeat constructor) 0%nat 2%nat); [lia|done..].
Defined.
